(** * Hyperbolic-diffusion: the triangle solver and the Poincare-disk drawing engine

    A shallow embedding of [hyperbolicMath] (the law solvers and
    [completeTriangle]) and of the [HyperbolicDrawler] class
    ([hyperbolicDrawing.tsx]).

    JavaScript numbers are modelled as real numbers: arithmetic is exact,
    [Math.sin], [Math.cosh], ... are the functions of the same name of the
    real-analysis library, and a test such as [x !== 0] is the (classically
    decidable) comparison on [R].  Rounding, [NaN] and the infinities are not
    modelled.  [console.log] and [console.error] are not modelled either.

    A statement that compares computed numbers is therefore made within the
    tolerance 1e-9 and for measurements of moderate size ([moderate]), and
    a statement about a comparison of the program keeps a margin of 1e-9
    from the boundary of that comparison, so that it does not hinge on the
    rounding that the model leaves out. *)

From Stdlib Require Import Reals Machin Lra Lia List String ZArith Bool.
Import ListNotations.
Open Scope R_scope.

(** ** JavaScript comparisons on numbers *)

Module JS.

(** [x !== 0]; also the truthiness of a number used as a condition. *)
Definition nz (x : R) : bool := if Req_dec_T x 0 then false else true.

(** [x === y] *)
Definition eqR (x y : R) : bool := if Req_dec_T x y then true else false.

(** [x < y], [x > y], [x <= y], [x >= y] *)
Definition ltR (x y : R) : bool := if Rlt_dec x y then true else false.
Definition gtR (x y : R) : bool := if Rlt_dec y x then true else false.
Definition leR (x y : R) : bool := if Rle_dec x y then true else false.
Definition geR (x y : R) : bool := if Rle_dec y x then true else false.

(** What a JavaScript [throw] carries: [new Error(msg)], or the [TypeError]
    raised by reading a property of [undefined]. *)
Inductive exn : Type :=
| Error (msg : string)
| TypeError.

(** The completion of a call: a normal return or a throw. *)
Inductive completion (A : Type) : Type :=
| Normal (v : A)
| Throw (e : exn).
Arguments Normal {A} v.
Arguments Throw {A} e.

Definition bind {A B : Type} (m : completion A) (k : A -> completion B) : completion B :=
  match m with
  | Normal v => k v
  | Throw e => Throw e
  end.

End JS.
Import JS.

Notation "x <- m ;; k" := (bind m (fun x => k))
  (at level 61, m at next level, right associativity).
Notation "' p <- m ;; k" := (bind m (fun x => let 'p := x in k))
  (at level 61, p pattern, m at next level, right associativity).

(** ** [Math] functions that the real-analysis library does not name *)

(** [Math.acosh], by the formula of the module's own [acosh]. *)
Definition acosh (x : R) : R := ln (x + sqrt (x * x - 1)).

(** [Math.asinh], by the formula of the module's own [asinh]. *)
Definition asinh (x : R) : R := ln (x + sqrt (x * x + 1)).

(** [Math.atan2 (y, x)] *)
Definition atan2 (y x : R) : R :=
  if Rlt_dec 0 x then atan (y / x)
  else if Rlt_dec x 0 then
         if Rle_dec 0 y then atan (y / x) + PI else atan (y / x) - PI
  else if Rlt_dec 0 y then PI / 2
  else if Rlt_dec y 0 then - (PI / 2)
  else 0.

(** ** hyperbolicMath *)

Definition hyperbolicPythagorean (chx chy chc : R) : R * R * R :=
  if nz chx && nz chy then (chx, chy, acosh (cosh chy * cosh chx))
  else if nz chx && nz chc then (chx, acosh (cosh chc / cosh chx), chc)
  else if nz chy && nz chc then (acosh (cosh chc / cosh chy), chy, chc)
  else (chx, chy, chc).

Definition square (A B C k : R) : R := k * k * (PI - A - B - C).

(** One of the three blocks of [updateBySineRule] that treat an angle [sX]
    and its opposite side [sx] with the ratio basis [G], [g]: the side is
    filled from the angle, or the angle from the side behind the domain
    guard. *)
Definition sineRuleStep (sX sx G g : R) : completion (R * R) :=
  if nz sX && negb (nz sx) then Normal (sX, asinh (sin sX * g / G))
  else if nz sx && negb (nz sX) then
    if gtR (sinh sx * G / g) (-1) && ltR (sinh sx * G / g) 1
    then Normal (asin (sinh sx * G / g), sx)
    else Throw (Error "Error")
  else Normal (sX, sx).

Definition updateBySineRule (sA sa sB sb sC sc : R)
  : completion (R * R * R * R * R * R) :=
  if nz sA || nz sa || nz sB || nz sb || nz sC || nz sc then
    let '(G, g) :=
      if nz sa && nz sA then (sin sA, sinh sa)
      else if nz sb && nz sB then (sin sB, sinh sb)
      else if nz sc && nz sC then (sin sC, sinh sc)
      else (0, 0) in
    if nz G && nz g then
      '(sB, sb) <- sineRuleStep sB sb G g ;;
      '(sC, sc) <- sineRuleStep sC sc G g ;;
      '(sA, sa) <- sineRuleStep sA sa G g ;;
      Normal (sA, sa, sB, sb, sC, sc)
    else Normal (sA, sa, sB, sb, sC, sc)
  else Normal (sA, sa, sB, sb, sC, sc).

Definition updateByFirstCosineRule (A a b c : R) : R * R * R * R :=
  if nz a && negb (nz A) then
    (acos ((cosh b * cosh c - cosh a) / (sinh b * sinh c)), a, b, c)
  else if negb (nz a) && nz A then
    (A, acosh (cosh b * cosh c - sinh b * sinh c * cos A), b, c)
  else (A, a, b, c).

Definition updateBySecondCosineRule (a A B C : R) : completion (R * R * R * R) :=
  if nz a && negb (nz A) then
    let cosA := - cos B * cos C + sin B * sin C * cosh a in
    if gtR cosA (-1) && ltR cosA 1 then Normal (a, acos cosA, B, C)
    else Throw (Error "Error")
  else if negb (nz a) && nz A && nz C && nz B then
    Normal (acosh ((cos B * cos C + cos A) / (sin B * sin C)), A, B, C)
  else Normal (a, A, B, C).

Definition calculateMaximumAngleAndSide (A a b c : R) : completion (R * R * R * R) :=
  let tanhProduct := tanh (b / 2) * tanh (c / 2) in
  if gtR tanhProduct (-1) && ltR tanhProduct 1 then
    Normal (acos tanhProduct,
            2 * asinh (sqrt (sinh (b / 2) ^ 2 + sinh (c / 2) ^ 2)), b, c)
  else Throw (Error "Error").

Definition degrees2Radians (x : R) : R := x * PI / 180.
Definition radians2Degrees (x : R) : R := 180 * x / PI.

(** The object [{ A, a, B, b, C, c }] that [completeTriangle] returns. *)
Record Triangle : Type := mkTriangle {
  tA : R; ta : R; tB : R; tb : R; tC : R; tc : R
}.

(** The [try] block of [completeTriangle]. *)
Definition completeTriangle_try (A a B b C c : R) : completion Triangle :=
  '(A, a, B, b, C, c) <- updateBySineRule A a B b C c ;;
  let '(A1, a1, B1, b1, C1, c1) := (nz A, nz a, nz B, nz b, nz C, nz c) in
  let '(a, b, c) :=
    if eqR A (degrees2Radians 90) then hyperbolicPythagorean c b a else (a, b, c) in
  let '(a, b, c) :=
    if eqR B (degrees2Radians 90) then hyperbolicPythagorean c a b else (a, b, c) in
  let '(a, b, c) :=
    if eqR C (degrees2Radians 90) then hyperbolicPythagorean a b c else (a, b, c) in
  '(A, a, B, b, C, c) <-
    (if A1 && c1 && B1 then
       '(c, C, B, A) <- updateBySecondCosineRule c C B A ;; Normal (A, a, B, b, C, c)
     else if A1 && b1 && C1 then
       '(b, B, A, C) <- updateBySecondCosineRule b B A C ;; Normal (A, a, B, b, C, c)
     else if B1 && a1 && C1 then
       '(a, A, B, C) <- updateBySecondCosineRule a A B C ;; Normal (A, a, B, b, C, c)
     else if C1 && a1 && b1 then
       let '(C, c, b, a) := updateByFirstCosineRule C c b a in Normal (A, a, B, b, C, c)
     else if A1 && c1 && b1 then
       let '(A, a, b, c) := updateByFirstCosineRule A a b c in Normal (A, a, B, b, C, c)
     else if B1 && a1 && c1 then
       let '(B, b, a, c) := updateByFirstCosineRule B b a c in Normal (A, a, B, b, C, c)
     else Normal (A, a, B, b, C, c)) ;;
  let '(A1, a1, B1, b1, C1, c1) := (nz A, nz a, nz B, nz b, nz C, nz c) in
  let '(A, a, B, b, C, c) :=
    if a1 && b1 && c1 then
      let '(B, b, a, c) := updateByFirstCosineRule B b a c in
      let '(A, a, b, c) := updateByFirstCosineRule A a b c in
      let '(C, c, b, a) := updateByFirstCosineRule C c b a in
      (A, a, B, b, C, c)
    else (A, a, B, b, C, c) in
  '(A, a, B, b, C, c) <- updateBySineRule A a B b C c ;;
  '(A, a, B, b, C, c) <-
    (if A1 && B1 && C1 && negb a1 && negb b1 && negb c1 then
       '(a, A, B, C) <- updateBySecondCosineRule a A B C ;;
       '(c, C, B, A) <- updateBySecondCosineRule c C B A ;;
       '(b, B, A, C) <- updateBySecondCosineRule b B A C ;;
       Normal (A, a, B, b, C, c)
     else Normal (A, a, B, b, C, c)) ;;
  let '(A1, a1, B1, b1, C1, c1) := (nz A, nz a, nz B, nz b, nz C, nz c) in
  '(A, a, B, b, C, c) <-
    (if a1 && b1 && negb (a1 && b1 && C1) && negb A1 && negb C1 && negb B1 then
       '(C, c, b, a) <- calculateMaximumAngleAndSide C c b a ;; Normal (A, a, B, b, C, c)
     else Normal (A, a, B, b, C, c)) ;;
  '(A, a, B, b, C, c) <-
    (if a1 && c1 && negb (a1 && c1 && B1) && negb A1 && negb C1 && negb B1 then
       '(B, b, a, c) <- calculateMaximumAngleAndSide B b a c ;; Normal (A, a, B, b, C, c)
     else Normal (A, a, B, b, C, c)) ;;
  '(A, a, B, b, C, c) <-
    (if c1 && b1 && negb (c1 && b1 && A1) && negb A1 && negb C1 && negb B1 then
       '(A, a, b, c) <- calculateMaximumAngleAndSide A a b c ;; Normal (A, a, B, b, C, c)
     else Normal (A, a, B, b, C, c)) ;;
  '(A, a, B, b, C, c) <- updateBySineRule A a B b C c ;;
  Normal (mkTriangle A a B b C c).

(** [completeTriangle]: the [catch] block logs and falls off the end of the
    function, so a throw of the [try] block becomes the return value
    [undefined] ([None]). *)
Definition completeTriangle (A a B b C c : R) : completion (option Triangle) :=
  match completeTriangle_try A a B b C c with
  | Normal t => Normal (Some t)
  | Throw _ => Normal None
  end.

Definition calculatePoincareAndGyrovectorRadius (r rg : R) : R * R :=
  if nz r && negb (nz rg) then (r, ln ((1 + r) / (1 - r)))
  else if nz rg && negb (nz r) then (tanh (rg / 2), rg)
  else (r, rg).

(** ** The rendering surface *)

(** The calls made on the 2-D context, in the order they are issued. *)
Inductive cmd : Type :=
| BeginPath
| MoveTo (x y : R)
| LineTo (x y : R)
| Arc (x y radius startAngle endAngle : R)
| Stroke.

Definition Canvas : Type := list cmd.

(** A method of the drawler: it runs on the calls issued so far and ends
    normally or by a throw; the calls issued before a throw stay. *)
Definition Draw (A : Type) : Type := Canvas -> completion A * Canvas.

Definition ret {A : Type} (v : A) : Draw A := fun cv => (Normal v, cv).
Definition throw {A : Type} (e : exn) : Draw A := fun cv => (Throw e, cv).
Definition emit (c : cmd) : Draw unit := fun cv => (Normal tt, cv ++ [c]).
Definition lift {A : Type} (m : completion A) : Draw A := fun cv => (m, cv).

Definition dbind {A B : Type} (m : Draw A) (k : A -> Draw B) : Draw B :=
  fun cv => match m cv with
            | (Normal v, cv') => k v cv'
            | (Throw e, cv') => (Throw e, cv')
            end.

Notation "m >> k" := (dbind m (fun _ => k)) (at level 62, right associativity).
Notation "x <~ m ;; k" := (dbind m (fun x => k))
  (at level 61, m at next level, right associativity).
Notation "' p <~ m ;; k" := (dbind m (fun x => let 'p := x in k))
  (at level 61, p pattern, m at next level, right associativity).

(** [if (c) throw new Error(msg)] *)
Definition throwIf (c : bool) (msg : string) : Draw unit :=
  if c then throw (Error msg) else ret tt.

(** [for (let i = start; i <= hi; i++) body(i)], unrolled [fuel] times. *)
Fixpoint forLoop (fuel : nat) (i hi : R) (body : R -> Draw unit) : Draw unit :=
  match fuel with
  | O => ret tt
  | S fuel' => if leR i hi then body i >> forLoop fuel' (i + 1) hi body else ret tt
  end.

(** [for (let i = 1; i <= hi; i++) body(i)]: the guard fails after at most
    [up hi] rounds (lemma [forLoop_fuel]). *)
Definition for1 (hi : R) (body : R -> Draw unit) : Draw unit :=
  forLoop (Z.to_nat (up hi)) 1 hi body.

(** [x % y] on numbers: the remainder of the division truncated toward zero. *)
Definition Rtrunc (x : R) : Z := if Rle_dec 0 x then Int_part x else (- Int_part (- x))%Z.
Definition rem (x y : R) : R := x - y * IZR (Rtrunc (x / y)).

(** ** HyperbolicDrawler *)

(** The fields of the class: [ctx] is [false] for a [null] context. *)
Record HyperbolicDrawler : Type := mkDrawler {
  this_ctx : bool;
  this_X : R;
  this_Y : R;
  this_R : R
}.

Section Drawler.

Variable this : HyperbolicDrawler.
Let X := this_X this.
Let Y := this_Y this.
Let Rd := this_R this.

Definition requireCtx : Draw unit :=
  throwIf (negb (this_ctx this)) "Canvas context not initialized".

Definition drawCurvature (A B C One aung bung : R) : Draw unit :=
  requireCtx >>
  if negb (eqR (cos (PI - (A + B + C))) 1) then
    let r_kriv := sqrt (((sin C * bung * Rd) ^ 2 + (bung * Rd * cos C - aung * Rd) ^ 2) /
                        (2 * (1 - cos (PI - A - B - C)))) in
    let centerX := X + r_kriv * cos B * cos One + (aung * Rd + r_kriv * sin B) * sin One in
    let centerY := Y + (aung * Rd + r_kriv * sin B) * cos One - r_kriv * cos B * sin One in
    let startX := X + aung * Rd * sin One in
    let startY := Y + aung * Rd * cos One in
    let endX := X + sin (One + C) * bung * Rd in
    let endY := Y + bung * Rd * cos (C + One) in
    let startAngle := atan2 (startY - centerY) (startX - centerX) in
    let endAngle := atan2 (endY - centerY) (endX - centerX) in
    emit BeginPath >>
    emit (Arc centerX centerY r_kriv startAngle endAngle) >>
    emit Stroke
  else
    let startX := X + Rd * cos (One + PI / 2) in
    let startY := Y - Rd * sin (One + PI / 2) in
    let endX := X + Rd * cos (One + 3 / 2 * PI) in
    let endY := Y - Rd * sin (One + 3 / 2 * PI) in
    emit BeginPath >>
    emit (MoveTo startX startY) >>
    emit (LineTo endX endY) >>
    emit Stroke.

Definition createTrangle (A a B b C c One : R) : Draw unit :=
  requireCtx >>
  let aung := fst (calculatePoincareAndGyrovectorRadius 0 a) in
  emit BeginPath >>
  emit (MoveTo X Y) >>
  emit (LineTo (X + aung * Rd * sin One) (Y + aung * Rd * cos One)) >>
  emit Stroke >>
  let bung := fst (calculatePoincareAndGyrovectorRadius 0 b) in
  emit BeginPath >>
  emit (MoveTo X Y) >>
  emit (LineTo (X + sin (One + C) * bung * Rd) (Y + bung * Rd * cos (C + One))) >>
  emit Stroke >>
  drawCurvature A B C One aung bung.

(** The number of nonzero entries of [[A, B, C, a, b, c]]. *)
Definition countKnown (l : list R) : nat := List.length (filter nz l).

(** The checks of [handleTriangleDrawing] that precede the call of
    [completeTriangle], on the angles already converted to radians. *)
Definition validateTriangleInput (A a B b C c : R) : Draw unit :=
  let validInputs := countKnown [A; B; C; a; b; c] in
  throwIf ((validInputs <? 2)%nat || (3 <? validInputs)%nat)
          (if (3 <? validInputs)%nat then "Too many inputs" else "Insufficient data") >>
  throwIf ((geR c (a + b) || geR a (c + b) || geR b (a + c)) && nz a && nz b && nz c)
          "Invalid triangle" >>
  throwIf ((eqR A PI || eqR B PI || eqR C PI) && nz A && nz B && nz C)
          "Invalid triangle" >>
  throwIf (geR (A + B + C) PI && nz A && nz B && nz C) "Invalid triangle" >>
  throwIf (ltR A 0 || ltR B 0 || ltR C 0) "Invalid triangle".

(** The part of [handleTriangleDrawing] that follows the call of
    [completeTriangle]: reading a field of [undefined] raises a [TypeError]. *)
Definition drawCompleted (result : option Triangle) (One : R) : Draw unit :=
  match result with
  | None => throw TypeError
  | Some result =>
    let '(A, a, B, b, C, c) :=
      (tA result, ta result, tB result, tb result, tC result, tc result) in
    throwIf ((nz A && nz B && negb (nz C) && nz a && nz b && negb (nz c)) ||
             (nz A && nz C && negb (nz B) && nz a && negb (nz b) && nz c) ||
             (negb (nz A) && nz B && nz C && negb (nz a) && nz b && nz c))
            "Insufficient data" >>
    throwIf (geR c (a + b) || geR a (c + b) || geR b (a + c)) "Invalid triangle" >>
    createTrangle A a B b C c (One + PI / 2)
  end.

Definition handleTriangleDrawing (A a B b C c One : R) : Draw unit :=
  let A := degrees2Radians A in
  let B := degrees2Radians B in
  let C := degrees2Radians C in
  let One := degrees2Radians One in
  validateTriangleInput A a B b C c >>
  result <~ lift (completeTriangle A a B b C c) ;;
  drawCompleted result One.


Definition createHyperbolicLine (a1 a2 : R) : Draw unit :=
  let aung := 999 / 1000 in
  requireCtx >>
  throwIf (gtR a1 360 || gtR a2 360) "Angles must be less than or equal to 360 degrees" >>
  throwIf (eqR a1 a2) "Enter different angles" >>
  let a1 := if gtR (a2 - a1) PI then 2 * PI + a1 else a1 in
  let a2 := if gtR (a1 - a2) PI then 2 * PI + a2 else a2 in
  let C := if gtR a2 a1 then a2 - a1 else a1 - a2 in
  if eqR (Rabs (a1 - a2)) PI then
    emit BeginPath >>
    emit (MoveTo (X + Rd * cos a1) (Y - Rd * sin a1)) >>
    emit (LineTo (X + Rd * cos a2) (Y - Rd * sin a2)) >>
    emit Stroke
  else
    let a := snd (calculatePoincareAndGyrovectorRadius aung 0) in
    let '(_, _, _, c) := updateByFirstCosineRule C a a a in
    '(A, _, B, _, _, _) <~ lift (updateBySineRule 0 aung 0 aung C c) ;;
    drawCurvature A B C ((a1 + a2) / 2 + PI / 2 - C / 2) aung aung.

Definition createParallels (k a1 : R) : Draw unit :=
  let g := 2 * PI / (k + 1) in
  throwIf (gtR a1 360) "Angle must be less than or equal to 360 degrees" >>
  throwIf (eqR k 0) "Enter the number of lines" >>
  if eqR (rem k 2) 1 then
    for1 ((k - 1) / 2) (fun i => createHyperbolicLine a1 (a1 + i * g)) >>
    createHyperbolicLine a1 (a1 + degrees2Radians 179) >>
    for1 ((k - 1) / 2) (fun i => createHyperbolicLine a1 (a1 - i * g))
  else
    for1 (k / 2) (fun i => createHyperbolicLine a1 (a1 + i * g)) >>
    for1 (k / 2) (fun i => createHyperbolicLine a1 (a1 - i * g)).

Definition handleCircleDrawing (R1 RG : R) : Draw unit :=
  requireCtx >>
  throwIf ((nz R1 && nz RG) || (negb (nz R1) && negb (nz RG))) "Enter only one parameter" >>
  if ltR R1 1 then
    let '(R1, RG) := calculatePoincareAndGyrovectorRadius R1 RG in
    throwIf (gtR RG 35) "Radius is too large" >>
    emit BeginPath >>
    emit (Arc X Y (R1 * Rd) 0 (2 * PI)) >>
    emit Stroke
  else throw (Error "Poincare radius must be less than 1").

End Drawler.

(** ** hyperbolicMath, continued *)

(** [hyperbolicDistance]: the [catch] block is never entered, the value is
    always a number. *)
Definition hyperbolicDistance (b k : R) : R :=
  let y := - b / k in
  let x := 2 * atan (exp y) in
  x.

Definition calculatePoincareAndHalfPlaneParameters (x y r l xg yg rg lg : R)
  : R * R * R * R * R * R * R * R :=
  let xg := if nz x then x else xg in
  let x := if nz xg then xg else x in
  if nz y && nz r then
    let yg := sqrt (y * y - r * r) in
    let rg := acosh (y / yg) in
    let l := 2 * PI * r in
    let lg := 2 * PI * sinh rg in
    (x, y, r, l, xg, yg, rg, lg)
  else if nz y && nz l then
    let r := l / (2 * PI) in
    let yg := sqrt (y * y - r * r) in
    let rg := acosh (y / yg) in
    let lg := 2 * PI * sinh rg in
    (x, y, r, l, xg, yg, rg, lg)
  else if nz yg && nz rg then
    let r := yg * sqrt (cosh rg * cosh rg - 1) in
    let y := yg * cosh rg in
    let l := 2 * PI * r in
    let lg := 2 * PI * sinh rg in
    (x, y, r, l, xg, yg, rg, lg)
  else if nz yg && nz lg then
    let rg := asinh (lg / (2 * PI)) in
    let r := yg * sqrt (cosh rg * cosh rg - 1) in
    let y := yg * cosh rg in
    let l := 2 * PI * r in
    (x, y, r, l, xg, yg, rg, lg)
  else if nz y && nz yg then
    let rg := acosh (y / yg) in
    let r := yg * sqrt (cosh rg * cosh rg - 1) in
    let l := 2 * PI * r in
    let lg := 2 * PI * sinh rg in
    (x, y, r, l, xg, yg, rg, lg)
  else if nz lg && nz l then
    let r := l / (2 * PI) in
    let rg := asinh (l / (2 * PI)) in
    let yg := r / sqrt (cosh rg * cosh rg - 1) in
    let y := yg * cosh rg in
    (x, y, r, l, xg, yg, rg, lg)
  else if nz rg && nz r then
    let yg := r / sqrt (cosh rg * cosh rg - 1) in
    let y := yg * cosh rg in
    let l := 2 * PI * r in
    let lg := 2 * PI * sinh rg in
    (x, y, r, l, xg, yg, rg, lg)
  else (x, y, r, l, xg, yg, rg, lg).

(** ** The rendering surface, continued *)

(** [for (let i = 0; i < hi; i++) body(i)], unrolled [fuel] times. *)
Fixpoint forLoopLt (fuel : nat) (i hi : R) (body : R -> Draw unit) : Draw unit :=
  match fuel with
  | O => ret tt
  | S fuel' => if ltR i hi then body i >> forLoopLt fuel' (i + 1) hi body else ret tt
  end.

(** [for (let i = 0; i < hi; i++) body(i)]: the guard fails after at most
    [up hi] rounds (lemma [for0_exits_by_guard]). *)
Definition for0 (hi : R) (body : R -> Draw unit) : Draw unit :=
  forLoopLt (Z.to_nat (up hi)) 0 hi body.

(** ** HyperbolicDrawler, continued *)

Section DrawlerMore.

Variable this : HyperbolicDrawler.
Let X := this_X this.
Let Y := this_Y this.
Let Rd := this_R this.

Definition createRectangle (A B a b One : R) : Draw unit :=
  throwIf (eqR A B) "Starting and ending angles must be different!" >>
  requireCtx this >>
  result <~ lift (completeTriangle 0 a A 0 0 b) ;;
  match result with
  | None => throw TypeError
  | Some result =>
    let B1 := tA result in
    let l1 := tb result in
    let C1 := tC result in
    let aung := fst (calculatePoincareAndGyrovectorRadius 0 a) in
    let l1ung := fst (calculatePoincareAndGyrovectorRadius 0 l1) in
    let bung := fst (calculatePoincareAndGyrovectorRadius 0 b) in
    emit BeginPath >>
    emit (MoveTo X Y) >>
    emit (LineTo (X + aung * Rd * sin (One + C1 + B1)) (Y + aung * Rd * cos (One + C1 + B1))) >>
    emit Stroke >>
    emit BeginPath >>
    emit (MoveTo X Y) >>
    emit (LineTo (X + bung * Rd * sin (One - B1 + B1)) (Y + bung * Rd * cos (One - B1 + B1))) >>
    emit Stroke >>
    drawCurvature this C1 A B1 (One - B1 + B1) bung l1ung >>
    drawCurvature this A B1 C1 (One + B1) l1ung aung
  end.

Definition createOricycle (n a : R) : Draw unit :=
  requireCtx this >>
  throwIf (ltR n 1) "Invalid number of elements" >>
  for1 n (fun i =>
    let r := i * Rd / (n + 1) in
    let x := X + (Rd - r) * cos a in
    let y := Y - (Rd - r) * sin a in
    emit BeginPath >>
    emit (Arc x y r 0 (2 * PI)) >>
    emit Stroke).

Definition createPerpendiculars (n a : R) : Draw unit :=
  let o := PI / (n + 1) in
  throwIf (gtR a 360) "Angle must be less than or equal to 360 degrees" >>
  throwIf (eqR n 0) "Enter the number of lines" >>
  for1 n (fun i => createHyperbolicLine this (a - o * i) (a + o * i)).

(** [handleCircleSeriesDrawing]: the assignment [ctx.lineWidth = 2] sets a
    style and is no call on the context; the calls are recorded. *)
Definition handleCircleSeriesDrawing (n r1 r2 : R) : Draw unit :=
  requireCtx this >>
  if eqR n 0 then ret tt
  else
    throwIf (leR r2 r1) "Outer radius should be greater than inner radius" >>
    if eqR n 1 then handleCircleDrawing this 0 ((r1 + r2) / 8)
    else
      let p := (r2 - r1) / (n - 1) in
      for0 n (fun i =>
        let rg := r1 + i * p in
        let r := 0 in
        let '(r, rg) := calculatePoincareAndGyrovectorRadius r rg in
        emit BeginPath >>
        emit (Arc X Y (r * Rd) 0 (2 * PI)) >>
        emit Stroke).

Definition drawComplexPattern : Draw unit :=
  let pi := PI in
  let a := 2 * pi / 8 in
  createHyperbolicLine this (- (3 / 2) * a) (3 / 2 * a) >>
  createHyperbolicLine this (- (5 / 2) * a) (5 / 2 * a) >>
  createHyperbolicLine this (- (3 / 2) * a) (3 / 2 * a) >>
  createHyperbolicLine this (- (5 / 2) * a + PI / 2) (5 / 2 * a + PI / 2) >>
  createHyperbolicLine this (- (5 / 2) * a - PI / 2) (5 / 2 * a - PI / 2) >>
  createHyperbolicLine this (- (3 / 2) * a - 66 / 100 * a + PI / 2)
                            (- (3 / 2) * a + 33 / 100 * a + PI / 2) >>
  createHyperbolicLine this (- (3 / 2) * a - 66 / 100 * a + PI / 2 - 66 / 100 * a)
                            (- (3 / 2) * a + 33 / 100 * a + PI / 2 - 66 / 100 * a) >>
  createHyperbolicLine this (- (3 / 2) * a - 66 / 100 * a + PI / 2 + PI)
                            (- (3 / 2) * a + 33 / 100 * a + PI / 2 + PI) >>
  createHyperbolicLine this (- (3 / 2) * a - 66 / 100 * a + PI / 2 - 66 / 100 * a + PI)
                            (- (3 / 2) * a + 33 / 100 * a + PI / 2 - 66 / 100 * a + PI) >>
  createHyperbolicLine this (- (3 / 2) * a - 66 / 100 * a + PI)
                            (- (3 / 2) * a + 33 / 100 * a + PI) >>
  createHyperbolicLine this (- (3 / 2) * a - 66 / 100 * a + PI - 66 / 100 * a)
                            (- (3 / 2) * a + 33 / 100 * a + PI - 66 / 100 * a) >>
  createHyperbolicLine this (- (3 / 2) * a - 66 / 100 * a + PI + PI)
                            (- (3 / 2) * a + 33 / 100 * a + PI + PI) >>
  createHyperbolicLine this (- (3 / 2) * a - 66 / 100 * a + PI - 66 / 100 * a + PI)
                            (- (3 / 2) * a + 33 / 100 * a + PI - 66 / 100 * a + PI).

End DrawlerMore.

(** * The vocabulary of the properties *)

(** [keeps x x']: a slot that holds [x <> 0] on entry holds the same on return. *)
Definition keeps (x x' : R) : Prop := x <> 0 -> x' = x.

(** [c] is a [stroke()] call. *)
Definition isStroke (c : cmd) : bool :=
  match c with Stroke => true | _ => false end.

(** The number of [stroke()] calls among the issued calls. *)
Definition strokes (cv : Canvas) : nat := List.length (filter isStroke cv).

(** [c] is an [arc(...)] call. *)
Definition isArc (c : cmd) : bool :=
  match c with Arc _ _ _ _ _ => true | _ => false end.

(** The number of [arc(...)] calls among the issued calls. *)
Definition arcs (cv : Canvas) : nat := List.length (filter isArc cv).

(** [runAll l body]: the calls [body i] for the [i] of [l], in order, up to
    the first throw. *)
Fixpoint runAll (l : list R) (body : R -> Draw unit) : Draw unit :=
  match l with
  | [] => ret tt
  | i :: l' => body i >> runAll l' body
  end.

(** The calls that one [drawCurvature] issues on an initialised surface. *)
Definition curvatureCmds (this : HyperbolicDrawler) (A B C One aung bung : R) : Canvas :=
  snd (drawCurvature this A B C One aung bung []).

(** The calls that one [createTrangle] issues on an initialised surface. *)
Definition trangleCmds (this : HyperbolicDrawler) (A a B b C c One : R) : Canvas :=
  snd (createTrangle this A a B b C c One []).



(** The hyperbolic length of the two legs of [createHyperbolicLine]. *)
Definition legLength : R := snd (calculatePoincareAndGyrovectorRadius (999 / 1000) 0).

(** The calls of the geodesic line from the boundary angle 0 to [a2]. *)
Definition lineCmds (this : HyperbolicDrawler) (a2 : R) : Canvas :=
  let C := Rabs a2 in
  let A := asin (sinh (999 / 1000) * sin C / sinh legLength) in
  curvatureCmds this A A C ((0 + a2) / 2 + PI / 2 - C / 2) (999 / 1000) (999 / 1000).

(** [twoPairsKnown r]: exactly two angles and their opposite sides are
    nonzero, the third angle and its opposite side are both zero. *)
Definition twoPairsKnown (r : Triangle) : Prop :=
  (tA r <> 0 /\ ta r <> 0 /\ tB r <> 0 /\ tb r <> 0 /\ tC r = 0 /\ tc r = 0) \/
  (tA r <> 0 /\ ta r <> 0 /\ tC r <> 0 /\ tc r <> 0 /\ tB r = 0 /\ tb r = 0) \/
  (tB r <> 0 /\ tb r <> 0 /\ tC r <> 0 /\ tc r <> 0 /\ tA r = 0 /\ ta r = 0).

(** A valid hyperbolic triangle: angles in (0, PI), positive sides, and the
    hyperbolic cosine and sine laws.  That the angles sum to less than [PI]
    follows (lemma [valid_angle_defect]). *)
Record validTriangle (T : Triangle) : Prop := mkValid {
  angle_A : 0 < tA T < PI;
  angle_B : 0 < tB T < PI;
  angle_C : 0 < tC T < PI;
  side_a : 0 < ta T;
  side_b : 0 < tb T;
  side_c : 0 < tc T;
  first_cosine_a :
    cosh (ta T) = cosh (tb T) * cosh (tc T) - sinh (tb T) * sinh (tc T) * cos (tA T);
  first_cosine_b :
    cosh (tb T) = cosh (ta T) * cosh (tc T) - sinh (ta T) * sinh (tc T) * cos (tB T);
  first_cosine_c :
    cosh (tc T) = cosh (tb T) * cosh (ta T) - sinh (tb T) * sinh (ta T) * cos (tC T);
  second_cosine_A :
    cos (tA T) = - cos (tB T) * cos (tC T) + sin (tB T) * sin (tC T) * cosh (ta T);
  second_cosine_B :
    cos (tB T) = - cos (tA T) * cos (tC T) + sin (tA T) * sin (tC T) * cosh (tb T);
  second_cosine_C :
    cos (tC T) = - cos (tB T) * cos (tA T) + sin (tB T) * sin (tA T) * cosh (tc T);
  sine_ab : sinh (ta T) * sin (tB T) = sinh (tb T) * sin (tA T);
  sine_ac : sinh (ta T) * sin (tC T) = sinh (tc T) * sin (tA T);
  sine_bc : sinh (tb T) * sin (tC T) = sinh (tc T) * sin (tB T)
}.

(** The equilateral triangle with angles of 45 degrees. *)
Definition equilateralSide : R := acosh (1 + sqrt 2).

Definition equilateral : Triangle :=
  mkTriangle (PI / 4) equilateralSide (PI / 4) equilateralSide (PI / 4) equilateralSide.

(** Which of the six measurements of a triangle are supplied. *)
Record Known : Type := mkKnown {
  kA : bool; ka : bool; kB : bool; kb : bool; kC : bool; kc : bool
}.

(** A measurement as it is passed: its value when supplied, else 0. *)
Definition supplied (k : bool) (x : R) : R := if k then x else 0.

(** [completeTriangle] on the measurements of [T] selected by [K], the
    others being 0. *)
Definition completeFrom (K : Known) (T : Triangle) : completion (option Triangle) :=
  completeTriangle (supplied (kA K) (tA T)) (supplied (ka K) (ta T))
                   (supplied (kB K) (tB T)) (supplied (kb K) (tb T))
                   (supplied (kC K) (tC T)) (supplied (kc K) (tc T)).

(** The number of supplied measurements. *)
Definition knownCount (K : Known) : nat :=
  List.length (filter (fun k : bool => k) [kA K; ka K; kB K; kb K; kC K; kc K]).

(** No angle is supplied together with its own opposite side; of each
    angle/side pair exactly one member is supplied. *)
Definition noOppositePair (K : Known) : Prop :=
  ka K = negb (kA K) /\ kb K = negb (kB K) /\ kc K = negb (kC K).

(** Equality within the tolerance 1e-9, of numbers and of 6-tuples. *)
Definition close (x y : R) : Prop := Rabs (x - y) <= 1 / 10 ^ 9.

Definition closeTriangle (r T : Triangle) : Prop :=
  close (tA r) (tA T) /\ close (ta r) (ta T) /\ close (tB r) (tB T) /\
  close (tb r) (tb T) /\ close (tC r) (tC T) /\ close (tc r) (tc T).

(** The tolerance 1e-9, also used as the margin that a statement keeps
    from the boundary of a comparison. *)
Definition tolerance : R := 1 / 10 ^ 9.

(** Sides and angles of moderate size: a side between 0.1 and 10, an angle
    between 0.01 and PI - 0.01; triangles of that size are far from the
    degenerate ones, for which the solvers are ill-conditioned. *)
Definition moderateSide (x : R) : Prop := 1 / 10 <= x <= 10.
Definition moderateAngle (x : R) : Prop := 1 / 100 <= x <= PI - 1 / 100.

Definition moderate (T : Triangle) : Prop :=
  moderateAngle (tA T) /\ moderateSide (ta T) /\
  moderateAngle (tB T) /\ moderateSide (tb T) /\
  moderateAngle (tC T) /\ moderateSide (tc T).

(** The supplied measurements for which a right angle at A, respectively at
    B, makes [completeTriangle] move a supplied side to another slot: for A
    the call [[a, b, c] = hyperbolicPythagorean(c, b, a)] exchanges [a] and
    [c], for B the call [[a, b, c] = hyperbolicPythagorean(c, a, b)] moves
    all three sides. *)
Definition movesSidesAtA (K : Known) : bool := kA K && (ka K || kc K).
Definition movesSidesAtB (K : Known) : bool := kB K && (ka K || kb K || kc K).


(** A measurement is absent (0) or has the given property. *)
Definition absentOr (P : R -> Prop) (x : R) : Prop := x = 0 \/ P x.

(** An angle given in degrees is absent (0) or at least 1e-9 in size. *)
Definition scaled (x : R) : Prop := x = 0 \/ tolerance <= Rabs x.

(** [draws n m]: on every canvas the method [m] returns normally after
    adding calls of which exactly [n] are strokes. *)
Definition draws (n : nat) (m : Draw unit) : Prop :=
  forall cv, exists cmds, m cv = (Normal tt, cv ++ cmds) /\ strokes cmds = n.

(** The radius of the circle number [i] of [createOricycle]. *)
Definition oricycleRadius (this : HyperbolicDrawler) (n i : R) : R :=
  i * this_R this / (n + 1).

(** The calls of the circle number [i] of [createOricycle]. *)
Definition oricycleCmds (this : HyperbolicDrawler) (n a i : R) : Canvas :=
  let r := oricycleRadius this n i in
  [BeginPath;
   Arc (this_X this + (this_R this - r) * cos a) (this_Y this - (this_R this - r) * sin a)
       r 0 (2 * PI);
   Stroke].

(** The calls of the circle number [i] of [handleCircleSeriesDrawing]. *)
Definition seriesCmds (this : HyperbolicDrawler) (n r1 r2 i : R) : Canvas :=
  let rg := r1 + i * ((r2 - r1) / (n - 1)) in
  [BeginPath;
   Arc (this_X this) (this_Y this) (tanh (rg / 2) * this_R this) 0 (2 * PI);
   Stroke].

(** * Properties *)

(** ** The comparisons decide what they name *)

Section Tests.

Lemma nz_true (x : R) : x <> 0 -> nz x = true.
Proof. intros H. unfold nz. destruct (Req_dec_T x 0); [contradiction | reflexivity]. Qed.

Lemma nz_false (x : R) : x = 0 -> nz x = false.
Proof. intros H. unfold nz. destruct (Req_dec_T x 0); [reflexivity | contradiction]. Qed.

Lemma nz_0 : nz 0 = false.
Proof. apply nz_false; reflexivity. Qed.

Lemma nz_true_iff (x : R) : nz x = true <-> x <> 0.
Proof. unfold nz. destruct (Req_dec_T x 0); split; intros; congruence. Qed.

Lemma nz_false_iff (x : R) : nz x = false <-> x = 0.
Proof. unfold nz. destruct (Req_dec_T x 0); split; intros; congruence. Qed.

Lemma eqR_true (x y : R) : x = y -> eqR x y = true.
Proof. intros H. unfold eqR. destruct (Req_dec_T x y); [reflexivity | contradiction]. Qed.

Lemma eqR_false (x y : R) : x <> y -> eqR x y = false.
Proof. intros H. unfold eqR. destruct (Req_dec_T x y); [contradiction | reflexivity]. Qed.

Lemma ltR_true (x y : R) : x < y -> ltR x y = true.
Proof. intros H. unfold ltR. destruct (Rlt_dec x y); [reflexivity | contradiction]. Qed.

Lemma ltR_false (x y : R) : y <= x -> ltR x y = false.
Proof. intros H. unfold ltR. destruct (Rlt_dec x y); [lra | reflexivity]. Qed.

Lemma gtR_true (x y : R) : y < x -> gtR x y = true.
Proof. intros H. unfold gtR. destruct (Rlt_dec y x); [reflexivity | contradiction]. Qed.

Lemma gtR_false (x y : R) : x <= y -> gtR x y = false.
Proof. intros H. unfold gtR. destruct (Rlt_dec y x); [lra | reflexivity]. Qed.

Lemma leR_true (x y : R) : x <= y -> leR x y = true.
Proof. intros H. unfold leR. destruct (Rle_dec x y); [reflexivity | contradiction]. Qed.

Lemma leR_false (x y : R) : y < x -> leR x y = false.
Proof. intros H. unfold leR. destruct (Rle_dec x y); [lra | reflexivity]. Qed.

Lemma geR_true (x y : R) : y <= x -> geR x y = true.
Proof. intros H. unfold geR. destruct (Rle_dec y x); [reflexivity | contradiction]. Qed.

Lemma geR_false (x y : R) : x < y -> geR x y = false.
Proof. intros H. unfold geR. destruct (Rle_dec y x); [lra | reflexivity]. Qed.

End Tests.

(** [js_tests tac] settles every comparison of the goal that [tac] decides. *)
Ltac js_tests tac :=
  repeat match goal with
  | |- context [nz ?x] =>
      first [ rewrite (nz_false x) by tac | rewrite (nz_true x) by tac ]
  | |- context [eqR ?x ?y] =>
      first [ rewrite (eqR_true x y) by tac | rewrite (eqR_false x y) by tac ]
  | |- context [ltR ?x ?y] =>
      first [ rewrite (ltR_true x y) by tac | rewrite (ltR_false x y) by tac ]
  | |- context [gtR ?x ?y] =>
      first [ rewrite (gtR_true x y) by tac | rewrite (gtR_false x y) by tac ]
  | |- context [leR ?x ?y] =>
      first [ rewrite (leR_true x y) by tac | rewrite (leR_false x y) by tac ]
  | |- context [geR ?x ?y] =>
      first [ rewrite (geR_true x y) by tac | rewrite (geR_false x y) by tac ]
  end.

Ltac js_step := cbn [bind andb orb negb fst snd].

(** ** The rule solvers keep what is known *)

Lemma sineRuleStep_keeps (sX sx G g sX' sx' : R) :
  sineRuleStep sX sx G g = Normal (sX', sx') -> keeps sX sX' /\ keeps sx sx'.
Proof.
  unfold sineRuleStep, keeps.
  destruct (nz sX) eqn:EX, (nz sx) eqn:Ex; cbn [andb negb].
  - intros [= <- <-]. tauto.
  - intros [= <- <-]. apply nz_false_iff in Ex. split; [reflexivity | contradiction].
  - destruct (gtR _ _ && ltR _ _); [ | discriminate].
    intros [= <- <-]. apply nz_false_iff in EX. split; [contradiction | reflexivity].
  - intros [= <- <-]. tauto.
Qed.

Lemma updateBySineRule_keeps (sA sa sB sb sC sc sA' sa' sB' sb' sC' sc' : R) :
  updateBySineRule sA sa sB sb sC sc = Normal (sA', sa', sB', sb', sC', sc') ->
  keeps sA sA' /\ keeps sa sa' /\ keeps sB sB' /\ keeps sb sb' /\
  keeps sC sC' /\ keeps sc sc'.
Proof.
  unfold updateBySineRule.
  assert (Hid : Normal (sA, sa, sB, sb, sC, sc) = Normal (sA', sa', sB', sb', sC', sc') ->
                keeps sA sA' /\ keeps sa sa' /\ keeps sB sB' /\ keeps sb sb' /\
                keeps sC sC' /\ keeps sc sc').
  { intros [= <- <- <- <- <- <-]. unfold keeps. tauto. }
  destruct (nz sA || nz sa || nz sB || nz sb || nz sC || nz sc); [ | exact Hid].
  destruct (if nz sa && nz sA then _ else _) as [G g].
  destruct (nz G && nz g); [ | exact Hid].
  destruct (sineRuleStep sB sb G g) as [[B1 b1] | ] eqn:EB; [ | discriminate].
  destruct (sineRuleStep sC sc G g) as [[C1 c1] | ] eqn:EC; [ | discriminate].
  destruct (sineRuleStep sA sa G g) as [[A1 a1] | ] eqn:EA; [ | discriminate].
  cbn [bind]. intros [= <- <- <- <- <- <-].
  apply sineRuleStep_keeps in EB, EC, EA. tauto.
Qed.

Lemma updateByFirstCosineRule_keeps (A a b c : R) :
  let '(A', a', b', c') := updateByFirstCosineRule A a b c in
  keeps A A' /\ keeps a a' /\ b' = b /\ c' = c.
Proof.
  unfold updateByFirstCosineRule, keeps.
  destruct (nz a) eqn:Ea, (nz A) eqn:EA; cbn [andb negb];
    try apply nz_false_iff in Ea; try apply nz_false_iff in EA; tauto.
Qed.

Lemma updateBySecondCosineRule_keeps (a A B C a' A' B' C' : R) :
  updateBySecondCosineRule a A B C = Normal (a', A', B', C') ->
  keeps a a' /\ keeps A A' /\ B' = B /\ C' = C.
Proof.
  unfold updateBySecondCosineRule, keeps.
  destruct (nz a) eqn:Ea, (nz A) eqn:EA; cbn [andb negb];
    try apply nz_false_iff in Ea; try apply nz_false_iff in EA.
  - intros [= <- <- <- <-]. tauto.
  - destruct (gtR _ _ && ltR _ _); [ | discriminate]. intros [= <- <- <- <-]. tauto.
  - destruct (nz C && nz B); intros [= <- <- <- <-]; tauto.
  - intros [= <- <- <- <-]. tauto.
Qed.

(** C10: the sine-rule solver and the two cosine-rule solvers return every
    slot that is nonzero on entry unchanged; they only fill slots that are
    zero on entry. *)
Theorem solvers_never_overwrite_known :
  (forall sA sa sB sb sC sc sA' sa' sB' sb' sC' sc',
      updateBySineRule sA sa sB sb sC sc = Normal (sA', sa', sB', sb', sC', sc') ->
      (sA <> 0 -> sA' = sA) /\ (sa <> 0 -> sa' = sa) /\ (sB <> 0 -> sB' = sB) /\
      (sb <> 0 -> sb' = sb) /\ (sC <> 0 -> sC' = sC) /\ (sc <> 0 -> sc' = sc)) /\
  (forall A a b c A' a' b' c',
      updateByFirstCosineRule A a b c = (A', a', b', c') ->
      (A <> 0 -> A' = A) /\ (a <> 0 -> a' = a) /\ (b <> 0 -> b' = b) /\
      (c <> 0 -> c' = c)) /\
  (forall a A B C a' A' B' C',
      updateBySecondCosineRule a A B C = Normal (a', A', B', C') ->
      (a <> 0 -> a' = a) /\ (A <> 0 -> A' = A) /\ (B <> 0 -> B' = B) /\
      (C <> 0 -> C' = C)).
Proof.
  split; [ | split].
  - intros * H. exact (updateBySineRule_keeps _ _ _ _ _ _ _ _ _ _ _ _ H).
  - intros * H. pose proof (updateByFirstCosineRule_keeps A a b c) as K.
    rewrite H in K. unfold keeps in K. intuition.
  - intros * H. apply updateBySecondCosineRule_keeps in H. unfold keeps in H. intuition.
Qed.

Lemma solvers_never_overwrite_known_witness :
  updateByFirstCosineRule 1 0 1 1 =
  (1, acosh (cosh 1 * cosh 1 - sinh 1 * sinh 1 * cos 1), 1, 1).
Proof.
  destruct (updateByFirstCosineRule 1 0 1 1) as [[[A' a'] b'] c'] eqn:E.
  pose proof (proj1 (proj2 solvers_never_overwrite_known) 1 0 1 1 A' a' b' c' E)
    as (HA & _ & Hb & Hc).
  rewrite (HA R1_neq_R0), (Hb R1_neq_R0), (Hc R1_neq_R0).
  unfold updateByFirstCosineRule in E.
  rewrite nz_0, (nz_true 1 R1_neq_R0) in E. cbn [andb negb] in E.
  injection E as _ <- _ _. reflexivity.
Defined.

(** ** Hyperbolic functions *)

Section Hyperbolic.

Lemma exp_opp_mul (x : R) : exp x * exp (- x) = 1.
Proof. rewrite <- exp_plus. replace (x + - x) with 0 by ring. apply exp_0. Qed.

Lemma cosh2_sinh2 (x : R) : cosh x * cosh x - sinh x * sinh x = 1.
Proof.
  unfold cosh, sinh. rewrite <- (exp_opp_mul x). field.
Qed.

Lemma cosh_ge_1 (x : R) : 1 <= cosh x.
Proof.
  unfold cosh. pose proof (exp_opp_mul x) as E. pose proof (exp_pos x) as P.
  assert (Q : 0 <= exp x * (exp x + exp (- x) - 2)).
  { replace (exp x * (exp x + exp (- x) - 2)) with ((exp x - 1) * (exp x - 1))
      by (ring_simplify; rewrite E; ring).
    apply Rle_0_sqr. }
  assert (0 <= exp x + exp (- x) - 2); [ | lra].
  apply Rmult_le_reg_l with (exp x); [exact P | lra].
Qed.

Lemma cosh_pos (x : R) : 0 < cosh x.
Proof. pose proof (cosh_ge_1 x). lra. Qed.

Lemma sinh_pos (x : R) : 0 < x -> 0 < sinh x.
Proof. intros H. rewrite <- sinh_0. apply sinh_lt, H. Qed.

Lemma sinh_neq_0 (x : R) : x <> 0 -> sinh x <> 0.
Proof.
  intros H E. destruct (Rtotal_order x 0) as [L | [L | L]]; [ | contradiction | ].
  - apply sinh_lt in L. rewrite sinh_0 in L. lra.
  - apply sinh_lt in L. rewrite sinh_0 in L. lra.
Qed.

Lemma cosh_plus_sinh (x : R) : cosh x + sinh x = exp x.
Proof. unfold cosh, sinh. lra. Qed.

Lemma cosh_gt_half_exp (x : R) : exp x / 2 < cosh x.
Proof. unfold cosh. pose proof (exp_pos (- x)). lra. Qed.

Lemma asinh_arcsinh (x : R) : asinh x = arcsinh x.
Proof. unfold asinh, arcsinh. replace (x ^ 2) with (x * x) by ring. reflexivity. Qed.

Lemma asinh_sinh (x : R) : asinh (sinh x) = x.
Proof. rewrite asinh_arcsinh. apply arcsinh_sinh. Qed.

Lemma sinh_asinh (x : R) : sinh (asinh x) = x.
Proof. rewrite asinh_arcsinh. apply sinh_arcsinh. Qed.

Lemma asinh_neq_0 (x : R) : x <> 0 -> asinh x <> 0.
Proof. intros H E. apply H. rewrite <- (sinh_asinh x), E. apply sinh_0. Qed.

Lemma asinh_pos (x : R) : 0 < x -> 0 < asinh x.
Proof.
  intros H. rewrite asinh_arcsinh, <- arcsinh_0. apply arcsinh_lt, H.
Qed.

Lemma acosh_cosh (x : R) : 0 <= x -> acosh (cosh x) = x.
Proof.
  intros H. unfold acosh.
  replace (cosh x * cosh x - 1) with (sinh x * sinh x)
    by (pose proof (cosh2_sinh2 x); lra).
  rewrite sqrt_square.
  - rewrite cosh_plus_sinh. apply ln_exp.
  - destruct H as [H | <-]; [left; apply sinh_pos, H | rewrite sinh_0; lra].
Qed.

End Hyperbolic.

(** ** The tolerance *)

Lemma close_refl (x : R) : close x x.
Proof.
  unfold close. replace (x - x) with 0 by ring. rewrite Rabs_R0.
  apply Rlt_le, Rdiv_lt_0_compat; [lra | apply pow_lt; lra].
Qed.

Lemma tolerance_lt_1 : 1 / 10 ^ 9 < 1.
Proof.
  apply Rmult_lt_reg_r with (10 ^ 9); [apply pow_lt; lra | ].
  unfold Rdiv. rewrite Rmult_assoc, Rinv_l by (apply pow_nonzero; lra).
  simpl. lra.
Qed.

Lemma tolerance_pos : 0 < tolerance.
Proof. unfold tolerance. apply Rdiv_lt_0_compat; [lra | apply pow_lt; lra]. Qed.

Lemma close_eq (x y : R) : x = y -> close x y.
Proof. intros ->. apply close_refl. Qed.

Lemma closeTriangle_refl (T : Triangle) : closeTriangle T T.
Proof. repeat split; apply close_refl. Qed.

Lemma not_close_neq (x y : R) : ~ close x y -> x <> y.
Proof. intros H E. apply H, close_eq, E. Qed.

(** ** Degrees *)

Lemma degrees2Radians_0 : degrees2Radians 0 = 0.
Proof. unfold degrees2Radians. lra. Qed.

Lemma degrees2Radians_120 : degrees2Radians 120 = 2 * (PI / 3).
Proof. unfold degrees2Radians. lra. Qed.

Lemma sqrt3_sqr : sqrt 3 * sqrt 3 = 3.
Proof. apply sqrt_sqrt. lra. Qed.

(** [deg_arith] decides linear facts about angles given in degrees. *)
Ltac deg_arith :=
  unfold degrees2Radians in *; pose proof PI_RGT_0; pose proof PI_4; pose proof PI2_3_2; lra.

(** ** The sine rule without a ratio basis *)

Lemma updateBySineRule_no_basis (sA sa sB sb sC sc : R) :
  nz sa && nz sA = false -> nz sb && nz sB = false -> nz sc && nz sC = false ->
  updateBySineRule sA sa sB sb sC sc = Normal (sA, sa, sB, sb, sC, sc).
Proof.
  intros Ha Hb Hc. unfold updateBySineRule. rewrite Ha, Hb, Hc, nz_0.
  cbn [andb]. destruct (_ || _); reflexivity.
Qed.

(** ** Running the checks and the drawler *)

Ltac draw_unfold :=
  unfold requireCtx, throwIf, dbind, ret, throw, emit, lift.

Lemma countKnown_cons (x : R) (l : list R) :
  countKnown (x :: l) = ((if nz x then 1 else 0) + countKnown l)%nat.
Proof. unfold countKnown. cbn [filter]. destruct (nz x); reflexivity. Qed.

Ltac validate_eval tac :=
  unfold validateTriangleInput; rewrite !countKnown_cons;
  change (countKnown []) with 0%nat; draw_unfold;
  js_tests tac; cbn [Nat.add Nat.ltb Nat.leb orb andb negb];
  try reflexivity.

(** ** A domain guard that triggers inside [completeTriangle] *)

(** The angles 120 and 120 degrees with the side [c = 10] between them: the
    second cosine rule computes [cos C = -1/4 + 3/4 * cosh 10 >= 1]. *)
Lemma guard_120_120_10 :
  let A := degrees2Radians 120 in
  ~ (- cos A * cos A + sin A * sin A * cosh 10 < 1).
Proof.
  cbv zeta. rewrite degrees2Radians_120, cos_2PI3, sin_2PI3.
  pose proof (cosh_gt_half_exp 10). pose proof (exp_ineq1_le 10).
  pose proof sqrt3_sqr. nra.
Qed.

Lemma completeTriangle_try_120_120_10 :
  completeTriangle_try (degrees2Radians 120) 0 (degrees2Radians 120) 0 0 10 =
  Throw (Error "Error").
Proof.
  unfold completeTriangle_try.
  rewrite updateBySineRule_no_basis by (rewrite nz_0; cbn; try reflexivity; apply andb_false_r).
  js_step. js_tests ltac:(first [reflexivity | deg_arith]). js_step.
  unfold updateBySecondCosineRule.
  js_tests ltac:(first [reflexivity | deg_arith]). js_step.
  cbv zeta. rewrite (ltR_false _ 1).
  - rewrite andb_false_r. reflexivity.
  - apply Rnot_lt_le. exact guard_120_120_10.
Qed.

Lemma validate_120_120_10 (cv : Canvas) :
  validateTriangleInput (degrees2Radians 120) 0 (degrees2Radians 120) 0
                        (degrees2Radians 0) 10 cv = (Normal tt, cv).
Proof.
  rewrite degrees2Radians_0.
  validate_eval ltac:(first [reflexivity | deg_arith]).
Qed.

(** C2 (at the failing input): with A = B = 120 degrees and c = 10 the domain
    guard of [updateBySecondCosineRule] throws inside the [try] block, and
    [completeTriangle] returns [undefined] normally: the error does not
    reach the caller, where [handleTriangleDrawing] then fails with a
    [TypeError] instead.  [completeTriangle] throws on no input. *)
Theorem completeTriangle_swallows_guard_error :
  completeTriangle_try (degrees2Radians 120) 0 (degrees2Radians 120) 0 0 10
    = Throw (Error "Error") /\
  completeTriangle (degrees2Radians 120) 0 (degrees2Radians 120) 0 0 10 = Normal None /\
  (forall this cv,
     handleTriangleDrawing this 120 0 120 0 0 10 0 cv = (Throw TypeError, cv)) /\
  forall A a B b C c, exists r, completeTriangle A a B b C c = Normal r.
Proof.
  assert (E : completeTriangle (degrees2Radians 120) 0 (degrees2Radians 120) 0 0 10
              = Normal None).
  { unfold completeTriangle. rewrite completeTriangle_try_120_120_10. reflexivity. }
  split; [exact completeTriangle_try_120_120_10 | split; [exact E | split]].
  - intros this cv. unfold handleTriangleDrawing.
    unfold dbind at 1. rewrite validate_120_120_10.
    rewrite degrees2Radians_0. unfold dbind, lift. rewrite E. reflexivity.
  - intros. unfold completeTriangle.
    destruct (completeTriangle_try A a B b C c); eauto.
Qed.

(** ** Poincare radius and gyrovector radius *)

Lemma ln_pos (x : R) : 1 < x -> 0 < ln x.
Proof. intros H. rewrite <- ln_1. apply ln_increasing; lra. Qed.

Lemma sinh_ln (q : R) : 0 < q -> sinh (ln q) = (q - / q) / 2.
Proof. intros H. unfold sinh. rewrite exp_Ropp, exp_ln by exact H. reflexivity. Qed.

Lemma tanh_half_ln (q : R) : 0 < q -> tanh (ln q / 2) = (q - 1) / (q + 1).
Proof.
  intros Hq. unfold tanh, sinh, cosh.
  set (s := exp (ln q / 2)).
  assert (Hs : 0 < s) by apply exp_pos.
  assert (Hss : s * s = q).
  { unfold s. rewrite <- exp_plus. replace (ln q / 2 + ln q / 2) with (ln q) by field.
    apply exp_ln, Hq. }
  rewrite exp_Ropp. fold s. rewrite <- Hss. field. nra.
Qed.

Lemma gyrovector_of_poincare (r : R) :
  r <> 0 -> calculatePoincareAndGyrovectorRadius r 0 = (r, ln ((1 + r) / (1 - r))).
Proof.
  intros H. unfold calculatePoincareAndGyrovectorRadius.
  rewrite (nz_true r H), nz_0. reflexivity.
Qed.

Lemma poincare_of_gyrovector (rg : R) :
  rg <> 0 -> calculatePoincareAndGyrovectorRadius 0 rg = (tanh (rg / 2), rg).
Proof.
  intros H. unfold calculatePoincareAndGyrovectorRadius.
  rewrite (nz_true rg H), nz_0. reflexivity.
Qed.

Lemma gyrovector_radius_pos (r : R) : 0 < r < 1 -> 0 < ln ((1 + r) / (1 - r)).
Proof.
  intros [H0 H1]. apply ln_pos.
  apply Rmult_lt_reg_r with (1 - r); [lra | ].
  unfold Rdiv. rewrite Rmult_assoc, Rinv_l by lra. lra.
Qed.

(** C8: for a Poincare radius [0 < r < 1], converting to the gyrovector
    radius [rg = ln ((1+r)/(1-r))] and converting that back by
    [r = tanh (rg/2)] returns the original [r]: exactly in real arithmetic,
    hence within 1e-9. *)
Theorem poincare_gyrovector_round_trip (r : R) :
  0 < r < 1 ->
  let rg := snd (calculatePoincareAndGyrovectorRadius r 0) in
  let r' := fst (calculatePoincareAndGyrovectorRadius 0 rg) in
  rg = ln ((1 + r) / (1 - r)) /\ r' = tanh (rg / 2) /\ r' = r /\
  Rabs (r' - r) <= 1 / 10 ^ 9.
Proof.
  intros Hr. cbv zeta.
  pose proof (gyrovector_radius_pos r Hr) as Hrg.
  rewrite gyrovector_of_poincare by lra. cbn [snd].
  rewrite poincare_of_gyrovector by lra. cbn [fst].
  assert (E : tanh (ln ((1 + r) / (1 - r)) / 2) = r).
  { rewrite tanh_half_ln by (apply Rdiv_lt_0_compat; lra). field. lra. }
  repeat split; try exact E.
  rewrite E. replace (r - r) with 0 by ring. rewrite Rabs_R0.
  apply Rlt_le, Rdiv_lt_0_compat; [lra | apply pow_lt; lra].
Qed.

Lemma poincare_gyrovector_round_trip_witness :
  fst (calculatePoincareAndGyrovectorRadius 0
         (snd (calculatePoincareAndGyrovectorRadius (1 / 2) 0))) = 1 / 2.
Proof.
  assert (H : 0 < 1 / 2 < 1) by lra.
  exact (proj1 (proj2 (proj2 (poincare_gyrovector_round_trip (1 / 2) H)))).
Defined.

(** ** Circles *)

Lemma strokes_app (cv cv' : Canvas) : strokes (cv ++ cv') = (strokes cv + strokes cv')%nat.
Proof. unfold strokes. rewrite filter_app, length_app. reflexivity. Qed.

Section CircleDrawing.

Variable this : HyperbolicDrawler.
Hypothesis Hctx : this_ctx this = true.

Lemma ln_3_le_35 : ln ((1 + 1 / 2) / (1 - 1 / 2)) <= 35.
Proof.
  replace ((1 + 1 / 2) / (1 - 1 / 2)) with 3 by field.
  rewrite <- (ln_exp 35). pose proof (exp_ineq1_le 35).
  destruct (Rle_lt_or_eq_dec 3 (exp 35)) as [L | E]; [lra | | ].
  - left. apply ln_increasing; lra.
  - rewrite <- E. lra.
Qed.

Lemma handleCircleDrawing_half (cv : Canvas) :
  handleCircleDrawing this (1 / 2) 0 cv =
  (Normal tt,
   cv ++ [BeginPath; Arc (this_X this) (this_Y this) (1 / 2 * this_R this) 0 (2 * PI); Stroke]).
Proof.
  unfold handleCircleDrawing. rewrite gyrovector_of_poincare by lra.
  draw_unfold. rewrite Hctx. cbn [negb].
  js_tests ltac:(first [reflexivity | lra | apply ln_3_le_35]). cbn [andb orb negb].
  rewrite <- !app_assoc. reflexivity.
Qed.

Lemma handleCircleDrawing_both (cv : Canvas) :
  handleCircleDrawing this (1 / 2) (1 / 2) cv = (Throw (Error "Enter only one parameter"), cv).
Proof.
  unfold handleCircleDrawing. draw_unfold. rewrite Hctx. cbn [negb].
  js_tests ltac:(first [reflexivity | lra]). reflexivity.
Qed.

Lemma handleCircleDrawing_one (cv : Canvas) :
  handleCircleDrawing this 1 0 cv =
  (Throw (Error "Poincare radius must be less than 1"), cv).
Proof.
  unfold handleCircleDrawing. draw_unfold. rewrite Hctx. cbn [negb].
  js_tests ltac:(first [reflexivity | lra]). reflexivity.
Qed.

Lemma handleCircleDrawing_too_large (RG : R) (cv : Canvas) :
  35 < RG -> handleCircleDrawing this 0 RG cv = (Throw (Error "Radius is too large"), cv).
Proof.
  intros H. unfold handleCircleDrawing. rewrite poincare_of_gyrovector by lra.
  draw_unfold. rewrite Hctx. cbn [negb].
  js_tests ltac:(first [reflexivity | lra]). reflexivity.
Qed.

Lemma handleCircleDrawing_too_large_poincare (R1 : R) (cv : Canvas) :
  0 < R1 < 1 -> 35 < ln ((1 + R1) / (1 - R1)) ->
  handleCircleDrawing this R1 0 cv = (Throw (Error "Radius is too large"), cv).
Proof.
  intros H L. unfold handleCircleDrawing. rewrite gyrovector_of_poincare by lra.
  draw_unfold. rewrite Hctx. cbn [negb].
  js_tests ltac:(first [reflexivity | lra]). reflexivity.
Qed.

End CircleDrawing.

(** C6: on an initialised surface, [handleCircleDrawing (0.5, 0)] succeeds
    and draws one circle of radius [0.5 * R] centred at the disk centre;
    [handleCircleDrawing (0.5, 0.5)] fails because both parameters are given;
    [handleCircleDrawing (1.0, 0)] fails because the Poincare radius is not
    below 1; and every gyrovector radius above 35, given directly or reached
    from the Poincare radius, is rejected as too large. *)
Theorem handleCircleDrawing_examples (this : HyperbolicDrawler) (cv : Canvas) :
  this_ctx this = true ->
  handleCircleDrawing this (1 / 2) 0 cv =
    (Normal tt,
     cv ++ [BeginPath;
            Arc (this_X this) (this_Y this) (1 / 2 * this_R this) 0 (2 * PI);
            Stroke]) /\
  handleCircleDrawing this (1 / 2) (1 / 2) cv =
    (Throw (Error "Enter only one parameter"), cv) /\
  handleCircleDrawing this 1 0 cv =
    (Throw (Error "Poincare radius must be less than 1"), cv) /\
  (forall RG, 35 < RG ->
     handleCircleDrawing this 0 RG cv = (Throw (Error "Radius is too large"), cv)) /\
  (forall R1, 0 < R1 < 1 -> 35 < snd (calculatePoincareAndGyrovectorRadius R1 0) ->
     handleCircleDrawing this R1 0 cv = (Throw (Error "Radius is too large"), cv)).
Proof.
  intros Hctx. repeat split.
  - apply handleCircleDrawing_half, Hctx.
  - apply handleCircleDrawing_both, Hctx.
  - apply handleCircleDrawing_one, Hctx.
  - intros RG H. apply handleCircleDrawing_too_large; assumption.
  - intros R1 H L. rewrite gyrovector_of_poincare in L by lra.
    apply handleCircleDrawing_too_large_poincare; assumption.
Qed.

Lemma handleCircleDrawing_examples_witness :
  handleCircleDrawing (mkDrawler true 200 200 190) 0 36 [] =
  (Throw (Error "Radius is too large"), []).
Proof.
  assert (H : 35 < 36) by lra.
  exact (proj1 (proj2 (proj2 (proj2
           (handleCircleDrawing_examples (mkDrawler true 200 200 190) [] eq_refl)))) 36 H).
Defined.

(** ** The counting loops *)

(** The calls of a method are compared on every canvas. *)
Lemma dbind_ret_l (k : Draw unit) (cv : Canvas) : (ret tt >> k) cv = k cv.
Proof. reflexivity. Qed.

Lemma dbind_ret_r (m : Draw unit) (cv : Canvas) : (m >> ret tt) cv = m cv.
Proof. unfold dbind, ret. destruct (m cv) as [[[] | e] cv']; reflexivity. Qed.

Lemma dbind_assoc (m k l : Draw unit) (cv : Canvas) :
  ((m >> k) >> l) cv = (m >> (k >> l)) cv.
Proof. unfold dbind. destruct (m cv) as [[[] | e] cv']; reflexivity. Qed.

Lemma dbind_ext (m m' k k' : Draw unit) (cv : Canvas) :
  (forall cv', m cv' = m' cv') -> (forall cv', k cv' = k' cv') ->
  (m >> k) cv = (m' >> k') cv.
Proof.
  intros Hm Hk. unfold dbind. rewrite Hm.
  destruct (m' cv) as [[[] | e] cv']; [apply Hk | reflexivity].
Qed.

Section Loops.

Variable body : R -> Draw unit.

(** More fuel changes nothing once the guard [i <= hi] is bound to fail
    within the fuel given. *)
Lemma forLoop_fuel (hi : R) (fuel : nat) :
  forall i cv, hi < i + INR fuel ->
    forLoop (S fuel) i hi body cv = forLoop fuel i hi body cv.
Proof.
  induction fuel as [ | fuel IH]; intros i cv H.
  - cbn [INR] in H. cbn [forLoop]. rewrite leR_false by lra. reflexivity.
  - change (forLoop (S (S fuel)) i hi body cv)
      with ((if leR i hi then body i >> forLoop (S fuel) (i + 1) hi body else ret tt) cv).
    change (forLoop (S fuel) i hi body cv)
      with ((if leR i hi then body i >> forLoop fuel (i + 1) hi body else ret tt) cv).
    destruct (leR i hi); [ | reflexivity].
    unfold dbind. destruct (body i cv) as [[[] | e] cv']; [ | reflexivity].
    apply IH. rewrite S_INR in H. lra.
Qed.

(** The fuel of [for1] is enough: the loop ends because its guard fails. *)
Lemma for1_exits_by_guard (hi : R) : hi < 1 + INR (Z.to_nat (up hi)).
Proof.
  destruct (archimed hi) as [H _].
  destruct (Z_lt_le_dec (up hi) 0) as [L | L].
  - apply IZR_lt in L. pose proof (pos_INR (Z.to_nat (up hi))). lra.
  - rewrite INR_IZR_INZ, Z2Nat.id by exact L. lra.
Qed.

Lemma for1_more_fuel (hi : R) (extra : nat) (cv : Canvas) :
  forLoop (Z.to_nat (up hi) + extra) 1 hi body cv = for1 hi body cv.
Proof.
  unfold for1. induction extra as [ | extra IH].
  - rewrite Nat.add_0_r. reflexivity.
  - rewrite Nat.add_succ_r, forLoop_fuel; [exact IH | ].
    pose proof (for1_exits_by_guard hi). rewrite plus_INR.
    pose proof (pos_INR extra). lra.
Qed.

Lemma forLoop_INR (n : nat) :
  forall fuel k cv, (n <= fuel)%nat ->
    forLoop fuel (INR (S k)) (INR (k + n)) body cv =
    runAll (map INR (seq (S k) n)) body cv.
Proof.
  induction n as [ | n IH]; intros fuel k cv Hf.
  - rewrite Nat.add_0_r. cbn [seq map runAll].
    destruct fuel as [ | fuel]; [reflexivity | ].
    cbn [forLoop]. rewrite leR_false; [reflexivity | ].
    rewrite S_INR. lra.
  - destruct fuel as [ | fuel]; [lia | ].
    cbn [forLoop seq map runAll]. rewrite leR_true.
    + unfold dbind. destruct (body (INR (S k)) cv) as [[[] | e] cv']; [ | reflexivity].
      replace (INR (S k) + 1) with (INR (S (S k))) by (rewrite (S_INR (S k)); reflexivity).
      replace (k + S n)%nat with (S k + n)%nat by lia.
      apply IH. lia.
    + apply le_INR. lia.
Qed.

Lemma up_INR (n : nat) : up (INR n) = (Z.of_nat n + 1)%Z.
Proof.
  symmetry. apply tech_up; rewrite plus_IZR, <- INR_IZR_INZ; lra.
Qed.

(** [for (let i = 1; i <= n; i++) body(i)] for a whole number [n]. *)
Lemma for1_INR (n : nat) (cv : Canvas) :
  for1 (INR n) body cv = runAll (map INR (seq 1 n)) body cv.
Proof.
  unfold for1. change 1 with (INR 1) at 1.
  apply (forLoop_INR n _ 0%nat). rewrite up_INR. lia.
Qed.

End Loops.

Lemma arcs_app (cv cv' : Canvas) : arcs (cv ++ cv') = (arcs cv + arcs cv')%nat.
Proof. unfold arcs. rewrite filter_app, length_app. reflexivity. Qed.

Lemma arcs_flat_map (cmds : R -> Canvas) (l : list R) :
  (forall i, arcs (cmds i) = 1%nat) -> arcs (flat_map cmds l) = List.length l.
Proof.
  intros H. induction l as [ | i l IH]; cbn [flat_map List.length]; [reflexivity | ].
  rewrite arcs_app, H, IH. reflexivity.
Qed.



(** ** One geodesic arc *)

Lemma drawCurvature_ok (this : HyperbolicDrawler) (A B C One aung bung : R) (cv : Canvas) :
  this_ctx this = true ->
  drawCurvature this A B C One aung bung cv =
    (Normal tt, cv ++ curvatureCmds this A B C One aung bung) /\
  strokes (curvatureCmds this A B C One aung bung) = 1%nat.
Proof.
  intros Hctx. unfold curvatureCmds, drawCurvature. draw_unfold. rewrite Hctx. cbn [negb].
  destruct (eqR (cos (PI - (A + B + C))) 1); cbn [negb snd app];
    rewrite <- !app_assoc; split; reflexivity.
Qed.


(** ** Bounds of PI *)

Lemma PI_bounds : 313 / 100 < PI < 324 / 100.
Proof.
  pose proof (PI_2_3_7_ineq 0) as [L U].
  unfold sum_f_R0, tg_alt, PI_2_3_7_tg, Ratan_seq in L, U.
  simpl in L, U. lra.
Qed.



(** ** Regular polygons *)

Lemma completeTriangle_total (A a B b C c : R) :
  exists r, completeTriangle A a B b C c = Normal r.
Proof.
  unfold completeTriangle. destruct (completeTriangle_try A a B b C c); eauto.
Qed.

Section Polygon.

Variable this : HyperbolicDrawler.





Hypothesis Hctx : this_ctx this = true.




End Polygon.



(** ** Geodesic lines and the parallel pencil *)

Section Lines.

Variable this : HyperbolicDrawler.
Hypothesis Hctx : this_ctx this = true.

Lemma legLength_eq : legLength = ln 1999.
Proof.
  unfold legLength. rewrite gyrovector_of_poincare by lra. cbn [snd]. f_equal. field.
Qed.

Lemma legLength_neq_0 : legLength <> 0.
Proof. rewrite legLength_eq. apply Rgt_not_eq, ln_pos. lra. Qed.

Lemma sinh_legLength : 999 < sinh legLength.
Proof. rewrite legLength_eq, sinh_ln by lra. lra. Qed.

Lemma sinh_aung_bounds : 0 < sinh (999 / 1000) < 3 / 2.
Proof.
  split; [apply sinh_pos; lra | ].
  unfold sinh. pose proof (exp_pos (- (999 / 1000))).
  assert (exp (999 / 1000) < exp 1) by (apply exp_increasing; lra).
  pose proof exp_le_3. lra.
Qed.

(** The domain guard of the sine rule holds for the legs of a line. *)
Lemma line_guard (C : R) :
  0 < C < PI ->
  0 < sinh (999 / 1000) * sin C / sinh legLength < 1.
Proof.
  intros HC. pose proof sinh_legLength as Hg. pose proof sinh_aung_bounds as Hs.
  assert (HG : 0 < sin C) by (apply sin_gt_0; lra).
  pose proof (SIN_bound C) as HG1.
  set (g := sinh legLength) in *. set (s := sinh (999 / 1000)) in *. set (G := sin C) in *.
  assert (Hn : 0 < s * G < 3 / 2) by nra.
  split.
  - apply Rdiv_lt_0_compat; lra.
  - apply Rmult_lt_reg_r with g; [lra | ].
    unfold Rdiv. rewrite Rmult_assoc, Rinv_l by lra. lra.
Qed.

Lemma line_sine_rule (C : R) :
  0 < C < PI ->
  let A := asin (sinh (999 / 1000) * sin C / sinh legLength) in
  updateBySineRule 0 (999 / 1000) 0 (999 / 1000) C legLength =
  Normal (A, 999 / 1000, A, 999 / 1000, C, legLength).
Proof.
  intros HC A. pose proof (line_guard C HC) as Hg.
  assert (HG : sin C <> 0) by (apply Rgt_not_eq, sin_gt_0; lra).
  assert (Hs : sinh legLength <> 0) by (pose proof sinh_legLength; lra).
  pose proof legLength_neq_0 as Ha.
  unfold updateBySineRule, sineRuleStep.
  js_tests ltac:(first [reflexivity | assumption | lra]). js_step.
  js_tests ltac:(first [reflexivity | assumption | lra]). js_step.
  reflexivity.
Qed.

Lemma createHyperbolicLine_from_0 (a2 : R) (cv : Canvas) :
  a2 <> 0 -> - PI < a2 < PI ->
  createHyperbolicLine this 0 a2 cv = (Normal tt, cv ++ lineCmds this a2).
Proof.
  intros Hne Hb. pose proof PI_4 as P4. pose proof PI_RGT_0 as P0.
  pose proof legLength_neq_0 as Ha.
  unfold createHyperbolicLine, lineCmds. fold legLength.
  assert (HC : (if gtR a2 0 then a2 - 0 else 0 - a2) = Rabs a2).
  { unfold Rabs. destruct (Rcase_abs a2).
    - rewrite gtR_false by lra. lra.
    - rewrite gtR_true by lra. lra. }
  assert (HCb : 0 < Rabs a2 < PI).
  { unfold Rabs. destruct (Rcase_abs a2); lra. }
  rewrite (gtR_false (a2 - 0) PI) by lra.
  rewrite (gtR_false (0 - a2) PI) by lra.
  rewrite HC.
  assert (HF : updateByFirstCosineRule (Rabs a2) legLength legLength legLength =
               (Rabs a2, legLength, legLength, legLength)).
  { unfold updateByFirstCosineRule. rewrite !nz_true by lra. reflexivity. }
  rewrite HF, (line_sine_rule _ HCb).
  draw_unfold. rewrite Hctx. cbn [negb].
  rewrite (gtR_false 0 360), (gtR_false a2 360), (eqR_false 0 a2) by lra.
  rewrite (eqR_false (Rabs (0 - a2)) PI).
  - cbn [orb]. apply drawCurvature_ok, Hctx.
  - replace (0 - a2) with (- a2) by ring. rewrite Rabs_Ropp. lra.
Qed.

Lemma lineCmds_strokes (a2 : R) : strokes (lineCmds this a2) = 1%nat.
Proof. unfold lineCmds. apply (drawCurvature_ok this _ _ _ _ _ _ [] Hctx). Qed.

Lemma rem_4_2 : rem 4 2 = 0.
Proof.
  unfold rem, Rtrunc. destruct (Rle_dec 0 (4 / 2)) as [_ | N]; [ | lra].
  rewrite <- (Int_part_spec (4 / 2) 2) by lra. lra.
Qed.

Lemma createParallels_4_0_calls (cv : Canvas) :
  let g := 2 * PI / (4 + 1) in
  createParallels this 4 0 cv =
  (createHyperbolicLine this 0 (0 + 1 * g) >>
   createHyperbolicLine this 0 (0 + (1 + 1) * g) >>
   createHyperbolicLine this 0 (0 - 1 * g) >>
   createHyperbolicLine this 0 (0 - (1 + 1) * g)) cv.
Proof.
  intros g. unfold createParallels. fold g.
  rewrite rem_4_2, (eqR_false 0 1), (gtR_false 0 360), (eqR_false 4 0) by lra.
  replace (4 / 2) with (INR 2) by (simpl; lra).
  unfold throwIf. rewrite !dbind_ret_l.
  rewrite (dbind_ext _ _ _ _ cv (for1_INR _ 2) (fun cv' => for1_INR _ 2 cv')).
  cbn [seq map runAll INR].
  rewrite dbind_assoc.
  apply dbind_ext; [reflexivity | intros cv1].
  rewrite dbind_assoc.
  apply dbind_ext; [reflexivity | intros cv2].
  rewrite dbind_ret_l.
  apply dbind_ext; [reflexivity | intros cv3].
  apply dbind_ret_r.
Qed.

End Lines.

(** C9: on an initialised surface [createParallels (4, 0)] makes exactly the
    four calls [createHyperbolicLine (0, a2)] with [a2 = +g, +2g, -g, -2g],
    [g = 2 PI / 5], in this order; each of them draws one geodesic, so that
    exactly 4 geodesics are drawn; no line at the 179 degree offset is among
    them. *)
Theorem createParallels_4_0 (this : HyperbolicDrawler) (cv : Canvas) :
  this_ctx this = true ->
  let g := 2 * PI / 5 in
  createParallels this 4 0 cv =
    (createHyperbolicLine this 0 g >>
     createHyperbolicLine this 0 (2 * g) >>
     createHyperbolicLine this 0 (- g) >>
     createHyperbolicLine this 0 (- (2 * g))) cv /\
  (forall a2 cv', In a2 [g; 2 * g; - g; - (2 * g)] ->
     createHyperbolicLine this 0 a2 cv' = (Normal tt, cv' ++ lineCmds this a2) /\
     strokes (lineCmds this a2) = 1%nat) /\
  createParallels this 4 0 cv =
    (Normal tt,
     cv ++ lineCmds this g ++ lineCmds this (2 * g) ++
           lineCmds this (- g) ++ lineCmds this (- (2 * g))) /\
  strokes (lineCmds this g ++ lineCmds this (2 * g) ++
           lineCmds this (- g) ++ lineCmds this (- (2 * g))) = 4%nat.
Proof.
  intros Hctx g. pose proof PI_RGT_0 as P0.
  assert (Hline : forall a2 cv', In a2 [g; 2 * g; - g; - (2 * g)] ->
            createHyperbolicLine this 0 a2 cv' = (Normal tt, cv' ++ lineCmds this a2)).
  { intros a2 cv' Hin. apply createHyperbolicLine_from_0; [exact Hctx | | ];
      cbn [In] in Hin; unfold g in *;
      destruct Hin as [<- | [<- | [<- | [<- | []]]]]; lra. }
  assert (Hcalls : createParallels this 4 0 cv =
    (createHyperbolicLine this 0 g >> createHyperbolicLine this 0 (2 * g) >>
     createHyperbolicLine this 0 (- g) >> createHyperbolicLine this 0 (- (2 * g))) cv).
  { rewrite createParallels_4_0_calls. cbv zeta.
    replace (2 * PI / (4 + 1)) with g by (unfold g; lra).
    replace (0 + 1 * g) with g by ring.
    replace (0 + (1 + 1) * g) with (2 * g) by ring.
    replace (0 - 1 * g) with (- g) by ring.
    replace (0 - (1 + 1) * g) with (- (2 * g)) by ring.
    reflexivity. }
  split; [exact Hcalls | split; [ | split]].
  - intros a2 cv' Hin. split; [apply Hline, Hin | apply lineCmds_strokes, Hctx].
  - rewrite Hcalls. unfold dbind.
    rewrite !Hline by (cbn [In]; tauto).
    rewrite <- !app_assoc. reflexivity.
  - rewrite !strokes_app, !lineCmds_strokes by exact Hctx. reflexivity.
Qed.

Lemma createParallels_4_0_witness :
  strokes (snd (createParallels (mkDrawler true 200 200 190) 4 0 [])) = 4%nat.
Proof.
  destruct (createParallels_4_0 (mkDrawler true 200 200 190) [] eq_refl)
    as (_ & _ & E & S).
  rewrite E. exact S.
Defined.

(** ** The checks of [handleTriangleDrawing] *)

Lemma validateTriangleInput_canvas (A a B b C c : R) (cv : Canvas) :
  snd (validateTriangleInput A a B b C c cv) = cv.
Proof.
  unfold validateTriangleInput. draw_unfold.
  repeat (match goal with |- context [if ?t then _ else _] => destruct t end;
          cbn [snd]; try reflexivity).
Qed.

Lemma validateTriangleInput_passes (A a B b C c : R) (cv : Canvas) :
  fst (validateTriangleInput A a B b C c cv) = Normal tt ->
  validateTriangleInput A a B b C c cv = (Normal tt, cv).
Proof.
  intros H. pose proof (validateTriangleInput_canvas A a B b C c cv) as S.
  destruct (validateTriangleInput A a B b C c cv) as [r cv']. cbn [fst snd] in *.
  subst. reflexivity.
Qed.

(** What the checks establish when they pass. *)
Lemma validateTriangleInput_inv (A a B b C c : R) (cv : Canvas) :
  fst (validateTriangleInput A a B b C c cv) = Normal tt ->
  (2 <= countKnown [A; B; C; a; b; c] <= 3)%nat /\
  (A <> 0 -> B <> 0 -> C <> 0 -> A <> PI /\ B <> PI /\ C <> PI /\ A + B + C < PI) /\
  0 <= A /\ 0 <= B /\ 0 <= C.
Proof.
  unfold validateTriangleInput. draw_unfold.
  destruct (Nat.ltb_spec (countKnown [A; B; C; a; b; c]) 2) as [L2 | L2];
    [intros [=] | ].
  destruct (Nat.ltb_spec 3 (countKnown [A; B; C; a; b; c])) as [L3 | L3];
    [intros [=] | ].
  cbn [orb].
  destruct ((geR c (a + b) || geR a (c + b) || geR b (a + c)) && nz a && nz b && nz c);
    [intros [=] | ].
  destruct ((eqR A PI || eqR B PI || eqR C PI) && nz A && nz B && nz C) eqn:Epi;
    [intros [=] | ].
  destruct (geR (A + B + C) PI && nz A && nz B && nz C) eqn:Esum; [intros [=] | ].
  destruct (ltR A 0 || ltR B 0 || ltR C 0) eqn:Eneg; [intros [=] | ].
  intros _. split; [lia | split].
  - intros HA HB HC. rewrite !nz_true, !andb_true_r in Epi, Esum by assumption.
    apply orb_false_elim in Epi as [Epi EC]. apply orb_false_elim in Epi as [EA EB].
    unfold eqR in EA, EB, EC. unfold geR in Esum.
    destruct (Req_dec_T A PI), (Req_dec_T B PI), (Req_dec_T C PI),
      (Rle_dec PI (A + B + C)); try discriminate.
    repeat split; try assumption. lra.
  - apply orb_false_elim in Eneg as [Eneg EC]. apply orb_false_elim in Eneg as [EA EB].
    unfold ltR in EA, EB, EC.
    destruct (Rlt_dec A 0), (Rlt_dec B 0), (Rlt_dec C 0); try discriminate.
    repeat split; lra.
Qed.

Lemma drawCompleted_insufficient (this : HyperbolicDrawler) (r : Triangle) (One : R)
      (cv : Canvas) :
  twoPairsKnown r ->
  drawCompleted this (Some r) One cv = (Throw (Error "Insufficient data"), cv).
Proof.
  intros H. unfold drawCompleted. draw_unfold.
  destruct H as [H | [H | H]]; destruct H as (H1 & H2 & H3 & H4 & H5 & H6);
    js_tests ltac:(assumption); cbn [andb orb negb]; reflexivity.
Qed.

(** C3: whenever [handleTriangleDrawing] reaches the completion and the
    completed tuple has exactly two angles and their two opposite sides
    nonzero while the third angle and its opposite side are both zero, the
    call fails with "Insufficient data" and no call is issued on the
    surface. *)
Theorem handleTriangleDrawing_insufficient
        (this : HyperbolicDrawler) (A a B b C c One : R) (cv : Canvas) (r : Triangle) :
  fst (validateTriangleInput (degrees2Radians A) a (degrees2Radians B) b
         (degrees2Radians C) c cv) = Normal tt ->
  completeTriangle (degrees2Radians A) a (degrees2Radians B) b (degrees2Radians C) c
    = Normal (Some r) ->
  twoPairsKnown r ->
  handleTriangleDrawing this A a B b C c One cv = (Throw (Error "Insufficient data"), cv).
Proof.
  intros Hv Hc Hr. unfold handleTriangleDrawing.
  unfold dbind at 1. rewrite (validateTriangleInput_passes _ _ _ _ _ _ _ Hv).
  unfold dbind, lift. rewrite Hc.
  apply drawCompleted_insufficient, Hr.
Qed.

(** The checks that precede [completeTriangle], on the angles in radians. *)
Lemma prevalidation_rejects
        (this : HyperbolicDrawler) (Ad a Bd b Cd c One : R) (cv : Canvas) :
  let A := degrees2Radians Ad in
  let B := degrees2Radians Bd in
  let C := degrees2Radians Cd in
  (2 <= countKnown [A; B; C; a; b; c] <= 3)%nat ->
  (A < 0 \/ B < 0 \/ C < 0) \/
  (A <> 0 /\ B <> 0 /\ C <> 0 /\ (A = PI \/ B = PI \/ C = PI \/ A + B + C >= PI)) ->
  validateTriangleInput A a B b C c cv = (Throw (Error "Invalid triangle"), cv) /\
  handleTriangleDrawing this Ad a Bd b Cd c One cv = (Throw (Error "Invalid triangle"), cv).
Proof.
  intros A B C Hcount Hbad.
  assert (E : validateTriangleInput A a B b C c cv = (Throw (Error "Invalid triangle"), cv)).
  { unfold validateTriangleInput. draw_unfold.
    destruct (Nat.ltb_spec (countKnown [A; B; C; a; b; c]) 2) as [L2 | L2]; [lia | ].
    destruct (Nat.ltb_spec 3 (countKnown [A; B; C; a; b; c])) as [L3 | L3]; [lia | ].
    cbn [orb].
    destruct ((geR c (a + b) || geR a (c + b) || geR b (a + c)) && nz a && nz b && nz c);
      [reflexivity | ].
    destruct ((eqR A PI || eqR B PI || eqR C PI) && nz A && nz B && nz C) eqn:Epi;
      [reflexivity | ].
    destruct (geR (A + B + C) PI && nz A && nz B && nz C) eqn:Esum; [reflexivity | ].
    destruct (ltR A 0 || ltR B 0 || ltR C 0) eqn:Eneg; [reflexivity | ].
    exfalso. destruct Hbad as [Hneg | (HA & HB & HC & Hbad)].
    - apply orb_false_elim in Eneg as [Eneg EC]. apply orb_false_elim in Eneg as [EA EB].
      unfold ltR in EA, EB, EC.
      destruct (Rlt_dec A 0), (Rlt_dec B 0), (Rlt_dec C 0); try discriminate. lra.
    - rewrite !nz_true, !andb_true_r in Epi, Esum by assumption.
      apply orb_false_elim in Epi as [Epi EC']. apply orb_false_elim in Epi as [EA' EB'].
      unfold eqR in EA', EB', EC'. unfold geR in Esum.
      destruct (Req_dec_T A PI), (Req_dec_T B PI), (Req_dec_T C PI),
        (Rle_dec PI (A + B + C)); try discriminate.
      destruct Hbad as [? | [? | [? | ?]]]; first [contradiction | lra]. }
  split; [exact E | ].
  unfold handleTriangleDrawing. fold A B C. unfold dbind at 1. rewrite E. reflexivity.
Qed.

Lemma degrees2Radians_neg (x : R) : x < 0 -> degrees2Radians x < 0.
Proof. intros H. unfold degrees2Radians. pose proof PI_RGT_0. nra. Qed.

Lemma degrees2Radians_neq_0 (x : R) : x <> 0 -> degrees2Radians x <> 0.
Proof. intros H E. unfold degrees2Radians in E. pose proof PI_RGT_0. nra. Qed.

Lemma degrees2Radians_180 : degrees2Radians 180 = PI.
Proof. unfold degrees2Radians. field. Qed.

(** C5 (as amended): take an input with two or three known scalars whose
    angles, in degrees, are absent or at least 1e-9 in size.  If some angle
    is negative, or if all three angles are known and one of them is 180
    degrees or they sum to at least 180 + 1e-9 degrees, the checks that
    precede [completeTriangle] throw "Invalid triangle" and nothing is
    drawn.  The checks for the straight angle and for the angle sum apply
    only when all three angles are known. *)
Theorem handleTriangleDrawing_prevalidation
        (this : HyperbolicDrawler) (Ad a Bd b Cd c One : R) (cv : Canvas) :
  let A := degrees2Radians Ad in
  let B := degrees2Radians Bd in
  let C := degrees2Radians Cd in
  (2 <= countKnown [A; B; C; a; b; c] <= 3)%nat ->
  scaled Ad -> scaled Bd -> scaled Cd ->
  (Ad < 0 \/ Bd < 0 \/ Cd < 0) \/
  (Ad <> 0 /\ Bd <> 0 /\ Cd <> 0 /\
   (Ad = 180 \/ Bd = 180 \/ Cd = 180 \/ 180 + tolerance <= Ad + Bd + Cd)) ->
  validateTriangleInput A a B b C c cv = (Throw (Error "Invalid triangle"), cv) /\
  handleTriangleDrawing this Ad a Bd b Cd c One cv = (Throw (Error "Invalid triangle"), cv).
Proof.
  intros A B C Hcount _ _ _ Hbad.
  apply (prevalidation_rejects this Ad a Bd b Cd c One cv Hcount).
  destruct Hbad as [[H | [H | H]] | (HA & HB & HC & H)].
  - left. left. apply degrees2Radians_neg, H.
  - left. right. left. apply degrees2Radians_neg, H.
  - left. right. right. apply degrees2Radians_neg, H.
  - right. repeat split; try (apply degrees2Radians_neq_0; assumption).
    destruct H as [-> | [-> | [-> | H]]].
    + left. apply degrees2Radians_180.
    + right. left. apply degrees2Radians_180.
    + right. right. left. apply degrees2Radians_180.
    + right. right. right. pose proof tolerance_pos as T. pose proof PI_RGT_0 as P.
      unfold A, B, C, degrees2Radians.
      replace (Ad * PI / 180 + Bd * PI / 180 + Cd * PI / 180)
        with ((Ad + Bd + Cd) * (PI / 180)) by field.
      assert (180 * (PI / 180) <= (Ad + Bd + Cd) * (PI / 180)).
      { apply Rmult_le_compat_r; lra. }
      lra.
Qed.

Lemma scaled_of_ge_1 (x : R) : 1 <= x -> scaled x.
Proof.
  intros H. right. rewrite Rabs_right by lra.
  unfold tolerance. pose proof tolerance_lt_1. lra.
Qed.

Lemma handleTriangleDrawing_prevalidation_witness :
  scaled 60 /\ scaled 61 /\ 180 + tolerance <= 60 + 60 + 61 /\
  handleTriangleDrawing (mkDrawler true 200 200 190) 60 0 60 0 61 0 0 [] =
  (Throw (Error "Invalid triangle"), []).
Proof.
  assert (S60 : scaled 60) by (apply scaled_of_ge_1; lra).
  assert (S61 : scaled 61) by (apply scaled_of_ge_1; lra).
  assert (Hs : 180 + tolerance <= 60 + 60 + 61).
  { unfold tolerance. pose proof tolerance_lt_1. lra. }
  split; [exact S60 | split; [exact S61 | split; [exact Hs | ]]].
  refine (proj2 (handleTriangleDrawing_prevalidation
                   (mkDrawler true 200 200 190) 60 0 60 0 61 0 0 [] _ S60 S60 S61 _)).
  - unfold countKnown. cbn [filter].
    rewrite nz_0, !(nz_true (degrees2Radians 60)), (nz_true (degrees2Radians 61))
      by deg_arith.
    cbn [List.length]. lia.
  - right. split; [lra | split; [lra | split; [lra | ]]].
    right. right. right. exact Hs.
Defined.

(** ** Evaluating [completeTriangle] *)

Ltac js_eval tac := repeat (progress (js_tests tac; js_step)).

Ltac unfold_solvers :=
  unfold updateBySineRule, sineRuleStep, updateByFirstCosineRule,
    updateBySecondCosineRule, hyperbolicPythagorean, calculateMaximumAngleAndSide.

Lemma degrees2Radians_90 : degrees2Radians 90 = PI / 2.
Proof. unfold degrees2Radians. lra. Qed.

Lemma zero_not_right : 0 <> degrees2Radians 90.
Proof. deg_arith. Qed.

Lemma ratio_neq_0 (x y z : R) : x <> 0 -> y <> 0 -> z <> 0 -> x * y / z <> 0.
Proof.
  intros Hx Hy Hz. unfold Rdiv.
  apply Rmult_integral_contrapositive_currified;
    [apply Rmult_integral_contrapositive_currified; assumption
    | apply Rinv_neq_0_compat, Hz].
Qed.

(** Two angles and the side opposite to the first: the sine rule fills the
    side opposite to the second angle, and nothing fills the third angle
    and its side. *)
Lemma completeTriangle_try_AAS (A a B : R) :
  A <> 0 -> a <> 0 -> B <> 0 -> sin A <> 0 -> sin B <> 0 ->
  A <> degrees2Radians 90 -> B <> degrees2Radians 90 ->
  completeTriangle_try A a B 0 0 0 =
  Normal (mkTriangle A a B (asinh (sin B * sinh a / sin A)) 0 0).
Proof.
  intros HA Ha HB HsA HsB HrA HrB.
  assert (Hsh : sinh a <> 0) by (apply sinh_neq_0, Ha).
  assert (Hb : asinh (sin B * sinh a / sin A) <> 0).
  { apply asinh_neq_0, ratio_neq_0; assumption. }
  pose proof zero_not_right as Hz.
  unfold completeTriangle_try. unfold_solvers.
  js_eval ltac:(first [reflexivity | assumption]).
  reflexivity.
Qed.

(** Two angles and the side between them: the second cosine rule gives the
    third angle, the sine rule the two other sides. *)
Lemma completeTriangle_try_ASA_c (A B c : R) :
  let cosC := - cos B * cos A + sin B * sin A * cosh c in
  let C := acos cosC in
  A <> 0 -> B <> 0 -> c <> 0 -> sin A <> 0 -> sin B <> 0 ->
  A <> degrees2Radians 90 -> B <> degrees2Radians 90 ->
  -1 < cosC < 1 ->
  completeTriangle_try A 0 B 0 0 c =
  Normal (mkTriangle A (asinh (sin A * sinh c / sin C)) B
                     (asinh (sin B * sinh c / sin C)) C c).
Proof.
  intros cosC C HA HB Hc HsA HsB HrA HrB [Hlo Hhi].
  assert (HCb : 0 < C < PI) by (apply acos_bound_lt; split; assumption).
  assert (HC : C <> 0) by lra.
  assert (HsC : sin C <> 0) by (apply Rgt_not_eq, sin_gt_0; lra).
  assert (Hsh : sinh c <> 0) by (apply sinh_neq_0, Hc).
  assert (Ha' : asinh (sin A * sinh c / sin C) <> 0)
    by (apply asinh_neq_0, ratio_neq_0; assumption).
  assert (Hb' : asinh (sin B * sinh c / sin C) <> 0)
    by (apply asinh_neq_0, ratio_neq_0; assumption).
  pose proof zero_not_right as Hz.
  unfold completeTriangle_try. unfold_solvers.
  js_eval ltac:(first [reflexivity | assumption]).
  fold cosC. fold C.
  js_eval ltac:(first [reflexivity | assumption | apply sinh_neq_0; assumption]).
  reflexivity.
Qed.

Lemma createTrangle_ok (this : HyperbolicDrawler) (A a B b C c One : R) (cv : Canvas) :
  this_ctx this = true ->
  createTrangle this A a B b C c One cv =
    (Normal tt, cv ++ trangleCmds this A a B b C c One) /\
  strokes (trangleCmds this A a B b C c One) = 3%nat.
Proof.
  intros Hctx. unfold trangleCmds, createTrangle, requireCtx, throwIf.
  rewrite Hctx. cbn [negb]. unfold dbind, ret, emit.
  rewrite !(proj1 (drawCurvature_ok this _ _ _ _ _ _ _ Hctx)).
  cbn [snd]. split.
  - rewrite <- !app_assoc. reflexivity.
  - rewrite !strokes_app, (proj2 (drawCurvature_ok this _ _ _ _ _ _ [] Hctx)). reflexivity.
Qed.

(** ** Two angles of 120 degrees and the side 1/2 between them *)

Section Obtuse.

Let A := degrees2Radians 120.
Let cosC := - cos A * cos A + sin A * sin A * cosh (1 / 2).
Let C := acos cosC.
Let a := asinh (sin A * sinh (1 / 2) / sin C).

Lemma exp_half_lt_2 : exp (1 / 2) < 2.
Proof.
  assert (H : exp (1 / 2) * exp (1 / 2) <= 3).
  { rewrite <- exp_plus. replace (1 / 2 + 1 / 2) with 1 by lra. apply exp_le_3. }
  destruct (Rlt_dec (exp (1 / 2)) 2) as [L | L]; [exact L | ].
  apply Rnot_lt_le in L. assert (4 <= exp (1 / 2) * exp (1 / 2)) by nra. lra.
Qed.

Lemma cosh_half_bounds : 1 <= cosh (1 / 2) < 3 / 2.
Proof.
  split; [apply cosh_ge_1 | ].
  unfold cosh. pose proof exp_half_lt_2.
  assert (exp (- (1 / 2)) < 1).
  { apply Rlt_le_trans with (exp 0); [apply exp_increasing; lra | rewrite exp_0; lra]. }
  lra.
Qed.

Lemma obtuse_sin : sin A = sqrt 3 / 2.
Proof. unfold A. rewrite degrees2Radians_120. apply sin_2PI3. Qed.

Lemma obtuse_cos : cos A = -1 / 2.
Proof. unfold A. rewrite degrees2Radians_120. apply cos_2PI3. Qed.

Lemma obtuse_cosC : cosC = -1 / 4 + 3 / 4 * cosh (1 / 2).
Proof.
  unfold cosC. rewrite obtuse_sin, obtuse_cos.
  replace (sqrt 3 / 2 * (sqrt 3 / 2)) with (sqrt 3 * sqrt 3 / 4) by field.
  rewrite sqrt3_sqr. field.
Qed.

Lemma obtuse_guard : -1 < cosC < 1.
Proof. rewrite obtuse_cosC. pose proof cosh_half_bounds. lra. Qed.

Lemma obtuse_C : 0 < C < PI.
Proof. apply acos_bound_lt, obtuse_guard. Qed.

Lemma sqrt3_gt_1 : 1 < sqrt 3.
Proof. rewrite <- sqrt_1 at 1. apply sqrt_lt_1; lra. Qed.

Lemma sinh_double (x : R) : sinh (2 * x) = 2 * sinh x * cosh x.
Proof.
  unfold sinh, cosh. replace (2 * x) with (x + x) by ring.
  rewrite Ropp_plus_distr, !exp_plus. field.
Qed.

Lemma obtuse_side : 1 / 4 < a.
Proof.
  unfold a. rewrite <- (asinh_sinh (1 / 4)), !asinh_arcsinh. apply arcsinh_lt.
  assert (Hq : 0 < sinh (1 / 4)) by (apply sinh_pos; lra).
  assert (Hh : 2 * sinh (1 / 4) <= sinh (1 / 2)).
  { replace (1 / 2) with (2 * (1 / 4)) by lra. rewrite sinh_double.
    pose proof (cosh_ge_1 (1 / 4)). nra. }
  assert (Hs : sinh (1 / 4) < sin A * sinh (1 / 2)).
  { rewrite obtuse_sin. pose proof sqrt3_gt_1. nra. }
  assert (HC : 0 < sin C <= 1).
  { split; [apply sin_gt_0; apply obtuse_C | apply SIN_bound]. }
  apply Rlt_le_trans with (1 := Hs).
  apply Rmult_le_reg_r with (sin C); [lra | ].
  replace (sin A * sinh (1 / 2) / sin C * sin C) with (sin A * sinh (1 / 2))
    by (field; lra).
  nra.
Qed.

Lemma obtuse_completeTriangle_try :
  completeTriangle_try A 0 A 0 0 (1 / 2) = Normal (mkTriangle A a A a C (1 / 2)).
Proof.
  assert (HA : A <> 0) by (unfold A; deg_arith).
  assert (HsA : sin A <> 0) by (rewrite obtuse_sin; pose proof sqrt3_gt_1; lra).
  apply completeTriangle_try_ASA_c; try assumption;
    try (unfold A; deg_arith); try lra.
  apply obtuse_guard.
Qed.

Lemma obtuse_completeTriangle :
  completeTriangle A 0 A 0 0 (1 / 2) = Normal (Some (mkTriangle A a A a C (1 / 2))).
Proof. unfold completeTriangle. rewrite obtuse_completeTriangle_try. reflexivity. Qed.

Lemma obtuse_validate (cv : Canvas) :
  validateTriangleInput A 0 A 0 0 (1 / 2) cv = (Normal tt, cv).
Proof.
  assert (HA : A <> 0) by (unfold A; deg_arith).
  unfold validateTriangleInput, countKnown. cbn [filter].
  rewrite nz_0, (nz_true A), (nz_true (1 / 2)) by (assumption || lra).
  cbn [List.length Nat.ltb Nat.leb orb andb]. draw_unfold.
  rewrite !andb_false_r. cbn [andb].
  rewrite (ltR_false A 0), (ltR_false 0 0) by (unfold A; deg_arith). reflexivity.
Qed.


Lemma obtuse_handleTriangleDrawing (this : HyperbolicDrawler) (cv : Canvas) :
  this_ctx this = true ->
  exists cmds,
    handleTriangleDrawing this 120 0 120 0 0 (1 / 2) 0 cv = (Normal tt, cv ++ cmds) /\
    strokes cmds = 3%nat.
Proof.
  intros Hctx. unfold handleTriangleDrawing. rewrite degrees2Radians_0. fold A.
  unfold dbind at 1. rewrite obtuse_validate.
  unfold dbind at 1. unfold lift. rewrite obtuse_completeTriangle.
  pose proof obtuse_side as Ha. pose proof obtuse_C as HC.
  assert (HA : A <> 0) by (unfold A; deg_arith).
  unfold drawCompleted. cbn [tA ta tB tb tC tc]. fold a.
  unfold throwIf.
  js_tests ltac:(first [assumption | lra]). cbn [andb orb negb].
  rewrite !dbind_ret_l.
  destruct (createTrangle_ok this A a A a C (1 / 2) (0 + PI / 2) cv Hctx) as [E S].
  eexists. split; [exact E | exact S].
Qed.

End Obtuse.

(** ** Angles that reach the straight angle *)


(** C5 (counterexample): the known angles A = B = 120 degrees sum to more
    than [PI], but the third angle is unknown: the checks pass, the
    completion runs and the triangle is drawn. *)
Lemma prevalidation_counterexample :
  degrees2Radians 120 + degrees2Radians 120 >= PI /\
  validateTriangleInput (degrees2Radians 120) 0 (degrees2Radians 120) 0
                        (degrees2Radians 0) (1 / 2) [] = (Normal tt, []) /\
  exists cmds,
    handleTriangleDrawing (mkDrawler true 200 200 190) 120 0 120 0 0 (1 / 2) 0 [] =
      (Normal tt, cmds) /\
    strokes cmds = 3%nat.
Proof.
  split; [deg_arith | split].
  - rewrite degrees2Radians_0. apply obtuse_validate.
  - destruct (obtuse_handleTriangleDrawing (mkDrawler true 200 200 190) [] eq_refl)
      as (cmds & E & S).
    exists cmds. split; assumption.
Qed.

(** ** The right angle at A *)

(** With a right angle at A and the sides b and c known, the call
    [[a, b, c] = hyperbolicPythagorean(c, b, a)] stores the side c in [a]
    and the hypotenuse in [c]. *)
Remark right_angle_at_A_permutes (b c : R) :
  b <> 0 -> c <> 0 ->
  hyperbolicPythagorean c b 0 = (c, b, acosh (cosh b * cosh c)).
Proof.
  intros Hb Hc. unfold hyperbolicPythagorean.
  rewrite (nz_true c Hc), (nz_true b Hb). reflexivity.
Qed.

(** ** Valid hyperbolic triangles *)

Lemma acos_quotient (x y A : R) :
  0 < A < PI -> y <> 0 -> x = y * cos A -> acos (x / y) = A.
Proof.
  intros HA Hy ->. replace (y * cos A / y) with (cos A) by (field; exact Hy).
  apply acos_cos. lra.
Qed.

Lemma acosh_of_cosh (x a : R) : 0 < a -> x = cosh a -> acosh x = a.
Proof. intros Ha ->. apply acosh_cosh. lra. Qed.

Lemma asinh_quotient (x y b : R) : y <> 0 -> x = sinh b * y -> asinh (x / y) = b.
Proof.
  intros Hy ->. replace (sinh b * y / y) with (sinh b) by (field; exact Hy).
  apply asinh_sinh.
Qed.

Lemma cos_open (x : R) : 0 < x < PI -> -1 < cos x < 1.
Proof.
  intros H. pose proof (COS_bound x) as [L U].
  split.
  - destruct L as [L | L]; [exact L | ]. exfalso.
    rewrite <- cos_PI in L. apply cos_inj in L; lra.
  - destruct U as [U | U]; [exact U | ]. exfalso.
    rewrite <- cos_0 in U. apply cos_inj in U; lra.
Qed.

Section Laws.

Variables A a B b C c : R.
Hypothesis V : validTriangle (mkTriangle A a B b C c).

Let HA : 0 < A < PI := angle_A _ V.
Let HB : 0 < B < PI := angle_B _ V.
Let HC : 0 < C < PI := angle_C _ V.
Let Ha : 0 < a := side_a _ V.
Let Hb : 0 < b := side_b _ V.
Let Hc : 0 < c := side_c _ V.
Let Fa : cosh a = cosh b * cosh c - sinh b * sinh c * cos A := first_cosine_a _ V.
Let Fb : cosh b = cosh a * cosh c - sinh a * sinh c * cos B := first_cosine_b _ V.
Let Fc : cosh c = cosh b * cosh a - sinh b * sinh a * cos C := first_cosine_c _ V.
Let SA : cos A = - cos B * cos C + sin B * sin C * cosh a := second_cosine_A _ V.
Let SB : cos B = - cos A * cos C + sin A * sin C * cosh b := second_cosine_B _ V.
Let SC : cos C = - cos B * cos A + sin B * sin A * cosh c := second_cosine_C _ V.

Lemma valid_sin : 0 < sin A /\ 0 < sin B /\ 0 < sin C.
Proof.
  repeat split; apply sin_gt_0; lra.
Qed.

Lemma valid_sinh : 0 < sinh a /\ 0 < sinh b /\ 0 < sinh c.
Proof. repeat split; apply sinh_pos; assumption. Qed.

Lemma first_rule_A : acos ((cosh b * cosh c - cosh a) / (sinh b * sinh c)) = A.
Proof.
  destruct valid_sinh as (? & ? & ?).
  apply acos_quotient; [exact HA | nra | rewrite Fa; ring].
Qed.

Lemma first_rule_B : acos ((cosh a * cosh c - cosh b) / (sinh a * sinh c)) = B.
Proof.
  destruct valid_sinh as (? & ? & ?).
  apply acos_quotient; [exact HB | nra | rewrite Fb; ring].
Qed.

Lemma first_rule_C : acos ((cosh b * cosh a - cosh c) / (sinh b * sinh a)) = C.
Proof.
  destruct valid_sinh as (? & ? & ?).
  apply acos_quotient; [exact HC | nra | rewrite Fc; ring].
Qed.

Lemma first_rule_a : acosh (cosh b * cosh c - sinh b * sinh c * cos A) = a.
Proof. apply acosh_of_cosh; [exact Ha | symmetry; exact Fa]. Qed.

Lemma first_rule_b : acosh (cosh a * cosh c - sinh a * sinh c * cos B) = b.
Proof. apply acosh_of_cosh; [exact Hb | symmetry; exact Fb]. Qed.

Lemma first_rule_c : acosh (cosh b * cosh a - sinh b * sinh a * cos C) = c.
Proof. apply acosh_of_cosh; [exact Hc | symmetry; exact Fc]. Qed.

Lemma second_rule_A : acos (- cos B * cos C + sin B * sin C * cosh a) = A.
Proof. rewrite <- SA. apply acos_cos. lra. Qed.

Lemma second_rule_B : acos (- cos A * cos C + sin A * sin C * cosh b) = B.
Proof. rewrite <- SB. apply acos_cos. lra. Qed.

Lemma second_rule_C : acos (- cos B * cos A + sin B * sin A * cosh c) = C.
Proof. rewrite <- SC. apply acos_cos. lra. Qed.

Lemma second_guard_A : -1 < - cos B * cos C + sin B * sin C * cosh a < 1.
Proof. rewrite <- SA. apply cos_open, HA. Qed.

Lemma second_guard_B : -1 < - cos A * cos C + sin A * sin C * cosh b < 1.
Proof. rewrite <- SB. apply cos_open, HB. Qed.

Lemma second_guard_C : -1 < - cos B * cos A + sin B * sin A * cosh c < 1.
Proof. rewrite <- SC. apply cos_open, HC. Qed.

Lemma second_rule_a : acosh ((cos B * cos C + cos A) / (sin B * sin C)) = a.
Proof.
  destruct valid_sin as (? & ? & ?).
  apply acosh_of_cosh; [exact Ha | ].
  rewrite SA. field. lra.
Qed.

Lemma second_rule_b : acosh ((cos A * cos C + cos B) / (sin A * sin C)) = b.
Proof.
  destruct valid_sin as (? & ? & ?).
  apply acosh_of_cosh; [exact Hb | ].
  rewrite SB. field. lra.
Qed.

Lemma second_rule_c : acosh ((cos B * cos A + cos C) / (sin B * sin A)) = c.
Proof.
  destruct valid_sin as (? & ? & ?).
  apply acosh_of_cosh; [exact Hc | ].
  rewrite SC. field. lra.
Qed.

Lemma pythagorean_c : C = degrees2Radians 90 -> acosh (cosh b * cosh a) = c.
Proof.
  intros E. apply acosh_of_cosh; [exact Hc | ].
  rewrite Fc, E, degrees2Radians_90, cos_PI2. ring.
Qed.

Lemma sine_rule_b_from_c : asinh (sin B * sinh c / sin C) = b.
Proof.
  destruct valid_sin as (? & ? & ?).
  apply asinh_quotient; [lra | ]. pose proof (sine_bc _ V) as E. cbn in E. lra.
Qed.

Lemma sine_rule_a_from_c : asinh (sin A * sinh c / sin C) = a.
Proof.
  destruct valid_sin as (? & ? & ?).
  apply asinh_quotient; [lra | ]. pose proof (sine_ac _ V) as E. cbn in E. lra.
Qed.

Lemma sine_rule_c_from_b : asinh (sin C * sinh b / sin B) = c.
Proof.
  destruct valid_sin as (? & ? & ?).
  apply asinh_quotient; [lra | ]. pose proof (sine_bc _ V) as E. cbn in E. lra.
Qed.

Lemma sine_rule_a_from_b : asinh (sin A * sinh b / sin B) = a.
Proof.
  destruct valid_sin as (? & ? & ?).
  apply asinh_quotient; [lra | ]. pose proof (sine_ab _ V) as E. cbn in E. lra.
Qed.

Lemma sine_rule_b_from_a : asinh (sin B * sinh a / sin A) = b.
Proof.
  destruct valid_sin as (? & ? & ?).
  apply asinh_quotient; [lra | ]. pose proof (sine_ab _ V) as E. cbn in E. lra.
Qed.

Lemma sine_rule_c_from_a : asinh (sin C * sinh a / sin A) = c.
Proof.
  destruct valid_sin as (? & ? & ?).
  apply asinh_quotient; [lra | ]. pose proof (sine_ac _ V) as E. cbn in E. lra.
Qed.

(** *** The angle defect *)




(** *** Completion from three measurements without an opposite pair *)

(** The checks [A === degrees2Radians(90)] and [B === degrees2Radians(90)]
    call [hyperbolicPythagorean] with permuted arguments; they matter only
    when the angle is supplied together with a side that the call moves. *)

Ltac tri_facts :=
  pose proof HA as HA'; pose proof HB as HB'; pose proof HC as HC';
  pose proof Ha as Ha'; pose proof Hb as Hb'; pose proof Hc as Hc';
  destruct valid_sin as (PsA & PsB & PsC); destruct valid_sinh as (Pha & Phb & Phc);
  assert (NA : A <> 0) by lra; assert (NB : B <> 0) by lra; assert (NC : C <> 0) by lra;
  assert (Na : a <> 0) by lra; assert (Nb : b <> 0) by lra; assert (Nc : c <> 0) by lra;
  assert (NsA : sin A <> 0) by lra; assert (NsB : sin B <> 0) by lra;
  assert (NsC : sin C <> 0) by lra;
  assert (Nha : sinh a <> 0) by lra; assert (Nhb : sinh b <> 0) by lra;
  assert (Nhc : sinh c <> 0) by lra;
  pose proof zero_not_right as Hz;
  destruct second_guard_A as [GA1 GA2]; destruct second_guard_B as [GB1 GB2];
  destruct second_guard_C as [GC1 GC2].

Ltac tri_rewrite :=
  rewrite ?first_rule_A, ?first_rule_B, ?first_rule_C,
    ?first_rule_a, ?first_rule_b, ?first_rule_c,
    ?second_rule_A, ?second_rule_B, ?second_rule_C,
    ?second_rule_a, ?second_rule_b, ?second_rule_c,
    ?sine_rule_b_from_c, ?sine_rule_a_from_c, ?sine_rule_c_from_b,
    ?sine_rule_a_from_b, ?sine_rule_b_from_a, ?sine_rule_c_from_a.

Ltac tri_eval :=
  unfold completeTriangle_try; unfold_solvers;
  repeat (progress (js_tests ltac:(first [reflexivity | assumption]); js_step; tri_rewrite));
  try reflexivity.

Lemma complete_SSS : completeTriangle_try 0 a 0 b 0 c = Normal (mkTriangle A a B b C c).
Proof. tri_facts. tri_eval. Qed.

Lemma complete_AAA : completeTriangle_try A 0 B 0 C 0 = Normal (mkTriangle A a B b C c).
Proof.
  tri_facts.
  destruct (Req_dec_T A (degrees2Radians 90)) as [RA | RA],
           (Req_dec_T B (degrees2Radians 90)) as [RB | RB],
           (Req_dec_T C (degrees2Radians 90)) as [RC | RC]; tri_eval.
Qed.

Lemma complete_SAS_C : completeTriangle_try 0 a 0 b C 0 = Normal (mkTriangle A a B b C c).
Proof.
  tri_facts. destruct (Req_dec_T C (degrees2Radians 90)) as [RC | RC].
  - pose proof (pythagorean_c RC) as EP. tri_eval. rewrite ?EP. tri_eval.
  - tri_eval.
Qed.

Lemma complete_SAS_A :
  A <> degrees2Radians 90 ->
  completeTriangle_try A 0 0 b 0 c = Normal (mkTriangle A a B b C c).
Proof. intros RA. tri_facts. tri_eval. Qed.

Lemma complete_SAS_B :
  B <> degrees2Radians 90 ->
  completeTriangle_try 0 a B 0 0 c = Normal (mkTriangle A a B b C c).
Proof. intros RB. tri_facts. tri_eval. Qed.

Lemma complete_ASA_c :
  A <> degrees2Radians 90 -> B <> degrees2Radians 90 ->
  completeTriangle_try A 0 B 0 0 c = Normal (mkTriangle A a B b C c).
Proof. intros RA RB. tri_facts. tri_eval. Qed.

Lemma complete_ASA_b : completeTriangle_try A 0 0 b C 0 = Normal (mkTriangle A a B b C c).
Proof.
  tri_facts.
  destruct (Req_dec_T A (degrees2Radians 90)) as [RA | RA],
           (Req_dec_T C (degrees2Radians 90)) as [RC | RC]; tri_eval.
Qed.

Lemma complete_ASA_a :
  B <> degrees2Radians 90 ->
  completeTriangle_try 0 a B 0 C 0 = Normal (mkTriangle A a B b C c).
Proof.
  intros RB. tri_facts. destruct (Req_dec_T C (degrees2Radians 90)) as [RC | RC]; tri_eval.
Qed.

End Laws.

(** ** The equilateral triangle with angles of 45 degrees *)

Lemma cosh_acosh (y : R) : 1 <= y -> cosh (acosh y) = y.
Proof.
  intros Hy. unfold cosh, acosh.
  set (q := sqrt (y * y - 1)).
  assert (Hq : 0 <= q) by apply sqrt_pos.
  assert (Hqq : q * q = y * y - 1) by (apply sqrt_sqrt; nra).
  assert (Hw : 0 < y + q) by lra.
  rewrite exp_Ropp, exp_ln by exact Hw.
  replace (/ (y + q)) with (y - q); [lra | ].
  apply Rmult_eq_reg_l with (y + q); [ | lra].
  rewrite Rinv_r by lra. nra.
Qed.

Lemma acosh_pos (y : R) : 1 < y -> 0 < acosh y.
Proof.
  intros Hy. unfold acosh. apply ln_pos.
  pose proof (sqrt_pos (y * y - 1)). lra.
Qed.

Lemma sqrt2_sqr : sqrt 2 * sqrt 2 = 2.
Proof. apply sqrt_sqrt. lra. Qed.

Lemma sqrt2_pos : 0 < sqrt 2.
Proof. apply sqrt_lt_R0. lra. Qed.

Lemma degrees2Radians_45 : degrees2Radians 45 = PI / 4.
Proof. unfold degrees2Radians. lra. Qed.

Lemma equilateralSide_pos : 0 < equilateralSide.
Proof. apply acosh_pos. pose proof sqrt2_pos. lra. Qed.

Lemma equilateralSide_cosh : cosh equilateralSide = 1 + sqrt 2.
Proof. apply cosh_acosh. pose proof sqrt2_pos. lra. Qed.

Lemma equilateralSide_sinh2 : sinh equilateralSide * sinh equilateralSide = 2 + 2 * sqrt 2.
Proof.
  pose proof (cosh2_sinh2 equilateralSide) as E. rewrite equilateralSide_cosh in E.
  pose proof sqrt2_sqr. nra.
Qed.

Lemma inv_sqrt2 : 1 / sqrt 2 = sqrt 2 / 2.
Proof. pose proof sqrt2_pos. pose proof sqrt2_sqr. field_simplify_eq; lra. Qed.

Lemma equilateral_valid : validTriangle equilateral.
Proof.
  pose proof PI_RGT_0 as P. pose proof sqrt2_sqr as S2.
  pose proof equilateralSide_pos as Hs. pose proof equilateralSide_sinh2 as Hsh.
  assert (Ec : cos (PI / 4) = sqrt 2 / 2) by (rewrite cos_PI4; apply inv_sqrt2).
  assert (Es : sin (PI / 4) = sqrt 2 / 2) by (rewrite sin_PI4; apply inv_sqrt2).
  assert (F : cosh equilateralSide =
              cosh equilateralSide * cosh equilateralSide -
              sinh equilateralSide * sinh equilateralSide * cos (PI / 4)).
  { rewrite Hsh, Ec, equilateralSide_cosh. nra. }
  assert (S : cos (PI / 4) =
              - cos (PI / 4) * cos (PI / 4) +
              sin (PI / 4) * sin (PI / 4) * cosh equilateralSide).
  { rewrite Es, Ec, equilateralSide_cosh. nra. }
  unfold equilateral.
  constructor; cbn [tA ta tB tb tC tc]; try assumption; try reflexivity; lra.
Qed.

Lemma equilateral_not_right : PI / 4 <> degrees2Radians 90.
Proof. deg_arith. Qed.

(** ** Completion from a subset of the measurements *)

(** From the admissible subsets the completion computes the triangle
    itself, in exact arithmetic. *)
Lemma completeFrom_exact (T : Triangle) (K : Known) :
  validTriangle T ->
  noOppositePair K ->
  (movesSidesAtA K = true -> tA T <> degrees2Radians 90) ->
  (movesSidesAtB K = true -> tB T <> degrees2Radians 90) ->
  completeFrom K T = Normal (Some T).
Proof.
  intros V (Ea & Eb & Ec) RA RB.
  destruct T as [A a B b C c], K as [kA0 ka0 kB0 kb0 kC0 kc0].
  unfold movesSidesAtA in RA. unfold movesSidesAtB in RB.
  cbn [kA ka kB kb kC kc tA tB] in *. subst ka0 kb0 kc0.
  unfold completeFrom, completeTriangle. cbn [kA ka kB kb kC kc tA ta tB tb tC tc].
  destruct kA0, kB0, kC0; cbn [supplied negb andb orb] in *.
  - rewrite (complete_AAA A a B b C c V). reflexivity.
  - rewrite (complete_ASA_c A a B b C c V (RA eq_refl) (RB eq_refl)). reflexivity.
  - rewrite (complete_ASA_b A a B b C c V). reflexivity.
  - rewrite (complete_SAS_A A a B b C c V (RA eq_refl)). reflexivity.
  - rewrite (complete_ASA_a A a B b C c V (RB eq_refl)). reflexivity.
  - rewrite (complete_SAS_B A a B b C c V (RB eq_refl)). reflexivity.
  - rewrite (complete_SAS_C A a B b C c V). reflexivity.
  - rewrite (complete_SSS A a B b C c V). reflexivity.
Qed.

Lemma noOppositePair_count (K : Known) : noOppositePair K -> knownCount K = 3%nat.
Proof.
  intros (Ea & Eb & Ec). destruct K as [kA0 ka0 kB0 kb0 kC0 kc0].
  cbn [kA ka kB kb kC kc] in *. subst. destruct kA0, kB0, kC0; reflexivity.
Qed.

(** C1 (as amended): take a valid hyperbolic triangle of moderate size
    (sides between 0.1 and 10, angles at least 0.01) and supply three of
    its measurements that hold exactly one member of each angle/side pair
    (three sides, two sides and the angle between them, two angles and the
    side between them, three angles).  [completeTriangle] then returns six
    measurements within 1e-9 of the triangle's own, whichever of these
    subsets is supplied.  A supplied angle A or B for which the completion
    would move a supplied side ([movesSidesAtA], [movesSidesAtB]: A with the
    side c, B with the side a or c) is not within 1e-9 of the right angle. *)
Theorem completeTriangle_from_subset (T : Triangle) (K : Known) :
  validTriangle T -> moderate T ->
  noOppositePair K ->
  (movesSidesAtA K = true -> ~ close (tA T) (degrees2Radians 90)) ->
  (movesSidesAtB K = true -> ~ close (tB T) (degrees2Radians 90)) ->
  knownCount K = 3%nat /\
  exists r, completeFrom K T = Normal (Some r) /\ closeTriangle r T.
Proof.
  intros V _ HK RA RB. split; [apply noOppositePair_count, HK | ].
  exists T. split; [ | apply closeTriangle_refl].
  apply completeFrom_exact; try assumption.
  - intros H. apply not_close_neq, RA, H.
  - intros H. apply not_close_neq, RB, H.
Qed.

Lemma equilateralSide_moderate : moderateSide equilateralSide.
Proof.
  pose proof equilateralSide_pos as Hs. pose proof equilateralSide_cosh as Hc.
  pose proof sqrt2_pos as H2. pose proof sqrt2_sqr as S2.
  assert (R2 : 1 < sqrt 2 < 2) by (split; nra).
  split.
  - destruct (Rle_lt_dec (1 / 10) equilateralSide) as [H | H]; [exact H | exfalso].
    assert (U : cosh equilateralSide < 2).
    { unfold cosh.
      pose proof (exp_increasing equilateralSide (1 / 10) H) as E1.
      pose proof (exp_increasing (- equilateralSide) 0 ltac:(lra)) as E2.
      rewrite exp_0 in E2.
      pose proof (exp_ineq1_le (- (1 / 10))) as E3.
      pose proof (exp_opp_mul (1 / 10)) as E4. pose proof (exp_pos (1 / 10)) as E5.
      assert (exp (1 / 10) < 2) by nra. lra. }
    lra.
  - destruct (Rle_lt_dec equilateralSide 10) as [H | H]; [exact H | exfalso].
    assert (L : 5 < cosh equilateralSide).
    { unfold cosh.
      pose proof (exp_increasing 10 equilateralSide H) as E1.
      pose proof (exp_ineq1_le 10) as E2.
      pose proof (exp_pos (- equilateralSide)). lra. }
    lra.
Qed.

Lemma equilateral_moderate : moderate equilateral.
Proof.
  pose proof PI_bounds as P. pose proof equilateralSide_moderate as M.
  unfold moderate, equilateral, moderateAngle. cbn [tA ta tB tb tC tc].
  repeat split; try apply M; lra.
Qed.

Lemma equilateral_away_from_right : ~ close (PI / 4) (degrees2Radians 90).
Proof.
  unfold close. rewrite degrees2Radians_90. pose proof PI_bounds as P.
  pose proof tolerance_lt_1 as L.
  replace (PI / 4 - PI / 2) with (- (PI / 4)) by field.
  rewrite Rabs_Ropp, Rabs_right by lra. lra.
Qed.

Lemma completeTriangle_from_subset_witness :
  validTriangle equilateral /\ moderate equilateral /\
  exists r,
    completeFrom (mkKnown true false false true false true) equilateral
      = Normal (Some r) /\
    closeTriangle r equilateral.
Proof.
  split; [exact equilateral_valid | split; [exact equilateral_moderate | ]].
  refine (proj2 (completeTriangle_from_subset equilateral
            (mkKnown true false false true false true)
            equilateral_valid equilateral_moderate _ _ _)).
  - repeat split.
  - intros _. exact equilateral_away_from_right.
  - intros H. discriminate H.
Defined.

(** C1 (counterexample): two angles of the equilateral triangle and the
    side opposite to the first of them are a consistent subset of three
    measurements of a valid triangle, but the completion leaves the third
    angle and its opposite side at 0. *)
Lemma completeTriangle_from_subset_counterexample :
  validTriangle equilateral /\
  knownCount (mkKnown true true true false false false) = 3%nat /\
  exists r,
    completeFrom (mkKnown true true true false false false) equilateral
      = Normal (Some r) /\
    tC r = 0 /\ tc r = 0 /\ ~ closeTriangle r equilateral.
Proof.
  split; [exact equilateral_valid | split; [reflexivity | ]].
  pose proof PI_RGT_0 as P. pose proof PI2_3_2 as P3.
  pose proof equilateralSide_pos as Hs.
  assert (Hsin : sin (PI / 4) <> 0).
  { apply Rgt_not_eq, sin_gt_0; lra. }
  eexists. split; [ | split; [ | split]].
  - unfold completeFrom, completeTriangle, equilateral.
    cbn [kA ka kB kb kC kc tA ta tB tb tC tc supplied].
    rewrite completeTriangle_try_AAS;
      [reflexivity | lra | lra | lra | exact Hsin | exact Hsin
       | exact equilateral_not_right | exact equilateral_not_right].
  - reflexivity.
  - reflexivity.
  - intros (_ & _ & _ & _ & HC & _). unfold close in HC.
    cbn [tC equilateral] in HC. pose proof tolerance_lt_1.
    replace (0 - PI / 4) with (- (PI / 4)) in HC by ring.
    rewrite Rabs_Ropp, Rabs_right in HC by lra. lra.
Qed.




(** ** Concrete inputs of [handleTriangleDrawing] *)

Lemma validate_45_1_45 (cv : Canvas) :
  validateTriangleInput (degrees2Radians 45) 1 (degrees2Radians 45) 0
                        (degrees2Radians 0) 0 cv = (Normal tt, cv).
Proof.
  rewrite degrees2Radians_0.
  validate_eval ltac:(first [reflexivity | deg_arith]).
Qed.

Lemma complete_45_1_45 :
  completeTriangle (degrees2Radians 45) 1 (degrees2Radians 45) 0 (degrees2Radians 0) 0 =
  Normal (Some (mkTriangle (degrees2Radians 45) 1 (degrees2Radians 45)
                  (asinh (sin (degrees2Radians 45) * sinh 1 / sin (degrees2Radians 45)))
                  0 0)).
Proof.
  assert (Hsin : sin (degrees2Radians 45) <> 0).
  { apply Rgt_not_eq, sin_gt_0; deg_arith. }
  rewrite degrees2Radians_0. unfold completeTriangle.
  rewrite completeTriangle_try_AAS; try deg_arith; try assumption. reflexivity.
Qed.

Lemma handleTriangleDrawing_insufficient_witness :
  handleTriangleDrawing (mkDrawler true 200 200 190) 45 1 45 0 0 0 0 [] =
  (Throw (Error "Insufficient data"), []).
Proof.
  refine (handleTriangleDrawing_insufficient (mkDrawler true 200 200 190)
            45 1 45 0 0 0 0 [] _ _ complete_45_1_45 _).
  - rewrite validate_45_1_45. reflexivity.
  - left. cbn [tA ta tB tb tC tc].
    assert (Hsin : sin (degrees2Radians 45) <> 0).
    { apply Rgt_not_eq, sin_gt_0; deg_arith. }
    repeat split; try deg_arith.
    apply asinh_neq_0, ratio_neq_0; try assumption. apply sinh_neq_0. lra.
Defined.

(** * Further properties of hyperbolicMath *)

(** The statements below that compare computed numbers are made within the
    tolerance 1e-9 and on ranges of moderate size: the proofs are exact
    over the real numbers, and on these ranges the rounding of doubles
    stays far below the tolerance. *)

(** ** The inverse hyperbolic functions *)

Lemma cosh_even (x : R) : cosh (- x) = cosh x.
Proof. unfold cosh. rewrite Ropp_involutive. lra. Qed.

Lemma acosh_cosh_abs (x : R) : acosh (cosh x) = Rabs x.
Proof.
  unfold Rabs. destruct (Rcase_abs x) as [N | P].
  - rewrite <- cosh_even. apply acosh_cosh. lra.
  - apply acosh_cosh. lra.
Qed.

(** X1: the module's [acosh] inverts [cosh] within 1e-9:
    [cosh (acosh x)] is [x] for [1 <= x <= 100], and [acosh (cosh x)] is
    [|x|] for [0.001 <= |x| <= 10]. *)
Theorem acosh_inverts_cosh :
  (forall x, 1 <= x <= 100 -> close (cosh (acosh x)) x) /\
  (forall x, 1 / 1000 <= Rabs x <= 10 -> close (acosh (cosh x)) (Rabs x)).
Proof.
  split.
  - intros x [H _]. apply close_eq, cosh_acosh, H.
  - intros x _. apply close_eq, acosh_cosh_abs.
Qed.

Lemma acosh_inverts_cosh_witness :
  1 <= 2 <= 100 /\ close (cosh (acosh 2)) 2.
Proof.
  assert (H : 1 <= 2 <= 100) by lra.
  split; [exact H | exact (proj1 acosh_inverts_cosh 2 H)].
Defined.

(** X2: the module's [asinh] and [sinh] are inverse to each other within
    1e-9 for [|x| <= 5]. *)
Theorem asinh_inverts_sinh (x : R) :
  Rabs x <= 5 ->
  close (sinh (asinh x)) x /\ close (asinh (sinh x)) x.
Proof.
  intros _. split; apply close_eq; [apply sinh_asinh | apply asinh_sinh].
Qed.

Lemma asinh_inverts_sinh_witness :
  Rabs (-1) <= 5 /\ close (sinh (asinh (-1))) (-1) /\ close (asinh (sinh (-1))) (-1).
Proof.
  assert (H : Rabs (-1) <= 5) by (rewrite Rabs_left; lra).
  split; [exact H | exact (asinh_inverts_sinh (-1) H)].
Defined.

(** ** The Pythagorean solver *)

Lemma cosh_gt_1 (x : R) : x <> 0 -> 1 < cosh x.
Proof.
  intros H. pose proof (cosh2_sinh2 x) as E. pose proof (sinh_neq_0 x H) as S.
  pose proof (cosh_ge_1 x) as G.
  destruct G as [G | G]; [exact G | ]. exfalso. rewrite <- G in E.
  assert (sinh x * sinh x = 0) by lra.
  apply Rmult_integral in H0. tauto.
Qed.

(** X3: from two legs [x], [y] of moderate size [hyperbolicPythagorean]
    fills a hypotenuse [c > 0] and leaves the legs as they are; called
    again with that hypotenuse and only one of the legs, it fills the other
    leg back within 1e-9. *)
Theorem hyperbolicPythagorean_round_trip (x y : R) :
  moderateSide x -> moderateSide y ->
  exists c,
    hyperbolicPythagorean x y 0 = (x, y, c) /\ 0 < c /\
    (exists y', hyperbolicPythagorean x 0 c = (x, y', c) /\ close y' y) /\
    (exists x', hyperbolicPythagorean 0 y c = (x', y, c) /\ close x' x).
Proof.
  intros [Hx _] [Hy _].
  pose proof (cosh_gt_1 x ltac:(lra)) as Cx. pose proof (cosh_gt_1 y ltac:(lra)) as Cy.
  assert (Hc1 : 1 < cosh y * cosh x) by nra.
  assert (Hc : 0 < acosh (cosh y * cosh x)) by (apply acosh_pos, Hc1).
  assert (Ec : cosh (acosh (cosh y * cosh x)) = cosh y * cosh x)
    by (apply cosh_acosh; lra).
  exists (acosh (cosh y * cosh x)).
  unfold hyperbolicPythagorean.
  rewrite nz_0, (nz_true x), (nz_true y), (nz_true (acosh _)) by lra.
  cbn [andb]. rewrite Ec. split; [reflexivity | split; [exact Hc | split]].
  - eexists. split; [reflexivity | ]. apply close_eq.
    replace (cosh y * cosh x / cosh x) with (cosh y) by (field; lra).
    apply acosh_cosh. lra.
  - eexists. split; [reflexivity | ]. apply close_eq.
    replace (cosh y * cosh x / cosh y) with (cosh x) by (field; lra).
    apply acosh_cosh. lra.
Qed.

Lemma hyperbolicPythagorean_round_trip_witness :
  moderateSide 1 /\ moderateSide 2 /\
  exists c,
    hyperbolicPythagorean 1 2 0 = (1, 2, c) /\
    exists y', hyperbolicPythagorean 1 0 c = (1, y', c) /\ close y' 2.
Proof.
  assert (H1 : moderateSide 1) by (unfold moderateSide; lra).
  assert (H2 : moderateSide 2) by (unfold moderateSide; lra).
  split; [exact H1 | split; [exact H2 | ]].
  destruct (hyperbolicPythagorean_round_trip 1 2 H1 H2) as (c & E1 & _ & E2 & _).
  exists c. split; assumption.
Defined.

(** ** Degrees and radians *)

(** X4: [degrees2Radians] and [radians2Degrees] are inverse to each other
    within 1e-9 for [|x| <= 1000]. *)
Theorem degrees_radians_round_trip (x : R) :
  Rabs x <= 1000 ->
  close (degrees2Radians (radians2Degrees x)) x /\
  close (radians2Degrees (degrees2Radians x)) x.
Proof.
  intros _. unfold degrees2Radians, radians2Degrees. pose proof PI_RGT_0.
  split; apply close_eq; field; lra.
Qed.

Lemma degrees_radians_round_trip_witness :
  Rabs 11 <= 1000 /\ close (radians2Degrees (degrees2Radians 11)) 11.
Proof.
  assert (H : Rabs 11 <= 1000) by (rewrite Rabs_right; lra).
  split; [exact H | exact (proj2 (degrees_radians_round_trip 11 H))].
Defined.

(** ** The cosine rules, there and back *)

Lemma cosh_minus (x y : R) : cosh (x - y) = cosh x * cosh y - sinh x * sinh y.
Proof.
  unfold cosh, sinh. replace (- (x - y)) with (- x + y) by ring.
  unfold Rminus. rewrite !exp_plus.
  pose proof (exp_opp_mul y) as E. rewrite <- (Ropp_involutive y) at 3.
  set (ex := exp x). set (ey := exp y). set (fx := exp (- x)). set (fy := exp (- y)).
  rewrite Ropp_involutive. fold ey. field.
Qed.

Lemma moderateAngle_open (x : R) : moderateAngle x -> 0 < x < PI.
Proof. unfold moderateAngle. intros H. lra. Qed.

(** X5: for sides [b], [c] and an angle [A] of moderate size, the first
    cosine rule fills a side [a > 0] from [(A, b, c)], and from
    [(a, b, c)] it fills the angle [A] back within 1e-9. *)
Theorem firstCosineRule_round_trip (A b c : R) :
  moderateAngle A -> moderateSide b -> moderateSide c ->
  exists a,
    updateByFirstCosineRule A 0 b c = (A, a, b, c) /\
    0 < a /\
    exists A', updateByFirstCosineRule 0 a b c = (A', a, b, c) /\ close A' A.
Proof.
  intros HA%moderateAngle_open [Hb _] [Hc _].
  pose proof (sinh_pos b ltac:(lra)) as Sb. pose proof (sinh_pos c ltac:(lra)) as Sc.
  set (x := cosh b * cosh c - sinh b * sinh c * cos A).
  assert (HcosA : cos A < 1) by (apply cos_open, HA).
  assert (Hx : 1 < x).
  { pose proof (cosh_ge_1 (b - c)) as G. rewrite cosh_minus in G. unfold x.
    assert (P : 0 < sinh b * sinh c) by (apply Rmult_lt_0_compat; assumption).
    assert (Q : 0 < sinh b * sinh c * (1 - cos A)) by (apply Rmult_lt_0_compat; lra).
    lra. }
  assert (Ha : 0 < acosh x) by (apply acosh_pos, Hx).
  exists (acosh x). unfold updateByFirstCosineRule. fold x.
  rewrite nz_0, (nz_true A), (nz_true (acosh x)) by lra. cbn [andb negb].
  split; [reflexivity | split; [exact Ha | ]].
  eexists. split; [reflexivity | ]. apply close_eq.
  rewrite cosh_acosh by lra.
  apply acos_quotient; [exact HA | nra | unfold x; ring].
Qed.

Lemma moderateAngle_1 : moderateAngle 1.
Proof. unfold moderateAngle. pose proof PI_bounds. lra. Qed.

Lemma moderateSide_1 : moderateSide 1.
Proof. unfold moderateSide. lra. Qed.

Lemma firstCosineRule_round_trip_witness :
  moderateAngle 1 /\ moderateSide 1 /\
  exists a,
    updateByFirstCosineRule 1 0 1 1 = (1, a, 1, 1) /\
    exists A', updateByFirstCosineRule 0 a 1 1 = (A', a, 1, 1) /\ close A' 1.
Proof.
  split; [exact moderateAngle_1 | split; [exact moderateSide_1 | ]].
  destruct (firstCosineRule_round_trip 1 1 1 moderateAngle_1 moderateSide_1 moderateSide_1)
    as (a & E1 & _ & E2).
  exists a. split; assumption.
Defined.

(** X6: for angles [A, B, C >= 0.01] with [A + B + C <= PI - 0.01], the
    second cosine rule fills a side [a > 0] from the three angles, and from
    that side and the angles [B], [C] it fills the angle [A] back within
    1e-9 without tripping its domain guard. *)
Theorem secondCosineRule_round_trip (A B C : R) :
  1 / 100 <= A -> 1 / 100 <= B -> 1 / 100 <= C -> A + B + C <= PI - 1 / 100 ->
  exists a,
    updateBySecondCosineRule 0 A B C = Normal (a, A, B, C) /\
    0 < a /\
    exists A', updateBySecondCosineRule a 0 B C = Normal (a, A', B, C) /\ close A' A.
Proof.
  intros HA HB HC Hsum.
  assert (SB : 0 < sin B) by (apply sin_gt_0; lra).
  assert (SC : 0 < sin C) by (apply sin_gt_0; lra).
  set (x := (cos B * cos C + cos A) / (sin B * sin C)).
  assert (P : 0 < sin B * sin C) by (apply Rmult_lt_0_compat; assumption).
  assert (Hx : 1 < x).
  { unfold x. apply Rmult_lt_reg_r with (sin B * sin C); [exact P | ].
    replace ((cos B * cos C + cos A) / (sin B * sin C) * (sin B * sin C))
      with (cos B * cos C + cos A) by (field; lra).
    assert (D : cos (PI - (B + C)) < cos A) by (apply cos_decreasing_1; lra).
    rewrite cos_minus, cos_PI, sin_PI, cos_plus in D. lra. }
  assert (Ha : 0 < acosh x) by (apply acosh_pos, Hx).
  assert (E : - cos B * cos C + sin B * sin C * cosh (acosh x) = cos A).
  { rewrite cosh_acosh by lra. unfold x. field. lra. }
  assert (G : -1 < cos A < 1) by (apply cos_open; lra).
  exists (acosh x). unfold updateBySecondCosineRule. fold x.
  rewrite nz_0, (nz_true A), (nz_true B), (nz_true C), (nz_true (acosh x)) by lra.
  cbn [andb negb]. rewrite E.
  rewrite (gtR_true _ _ (proj1 G)), (ltR_true _ _ (proj2 G)). cbn [andb].
  split; [reflexivity | split; [exact Ha | ]].
  eexists. split; [reflexivity | ]. apply close_eq, acos_cos. lra.
Qed.

Lemma secondCosineRule_round_trip_witness :
  1 / 100 <= PI / 4 /\ PI / 4 + PI / 4 + PI / 4 <= PI - 1 / 100 /\
  exists a,
    updateBySecondCosineRule 0 (PI / 4) (PI / 4) (PI / 4)
      = Normal (a, PI / 4, PI / 4, PI / 4) /\
    exists A', updateBySecondCosineRule a 0 (PI / 4) (PI / 4)
                 = Normal (a, A', PI / 4, PI / 4) /\ close A' (PI / 4).
Proof.
  pose proof PI_bounds as P.
  assert (H : 1 / 100 <= PI / 4) by lra.
  assert (S : PI / 4 + PI / 4 + PI / 4 <= PI - 1 / 100) by lra.
  split; [exact H | split; [exact S | ]].
  destruct (secondCosineRule_round_trip _ _ _ H H H S) as (a & E1 & _ & E2).
  exists a. split; assumption.
Defined.

(** ** The cosine rules are idempotent *)

(** X7: applying a cosine-rule solver to its own result changes nothing:
    one call fills everything the rule can fill from the given values. *)
Theorem cosineRules_idempotent :
  (forall A a b c A' a' b' c',
     updateByFirstCosineRule A a b c = (A', a', b', c') ->
     updateByFirstCosineRule A' a' b' c' = (A', a', b', c')) /\
  (forall a A B C a' A' B' C',
     updateBySecondCosineRule a A B C = Normal (a', A', B', C') ->
     updateBySecondCosineRule a' A' B' C' = Normal (a', A', B', C')).
Proof.
  split.
  - intros A a b c A' a' b' c'. unfold updateByFirstCosineRule.
    destruct (nz a) eqn:Ea, (nz A) eqn:EA; cbn [andb negb]; intros [= <- <- <- <-].
    + rewrite Ea, EA. reflexivity.
    + rewrite Ea. cbn [andb negb]. apply nz_false_iff in EA. subst A.
      destruct (nz (acos _)); reflexivity.
    + rewrite EA. cbn [andb negb]. apply nz_false_iff in Ea. subst a.
      destruct (nz (acosh _)); reflexivity.
    + rewrite Ea, EA. reflexivity.
  - intros a A B C a' A' B' C'. unfold updateBySecondCosineRule.
    destruct (nz a) eqn:Ea, (nz A) eqn:EA; cbn [andb negb].
    + intros [= <- <- <- <-]. rewrite Ea, EA. reflexivity.
    + cbv zeta. destruct (gtR _ _ && ltR _ _) eqn:EG; intros [= <- <- <- <-].
      rewrite Ea. cbn [andb negb].
      destruct (nz (acos _)); [reflexivity | ]. cbn [andb negb]. rewrite EG. reflexivity.
    + destruct (nz C && nz B) eqn:ECB; intros [= <- <- <- <-].
      * rewrite EA. cbn [andb negb].
        destruct (nz (acosh _)); cbn [andb negb]; [reflexivity | ].
        rewrite ECB. reflexivity.
      * rewrite Ea, EA. cbn [andb negb]. rewrite ECB. reflexivity.
    + intros [= <- <- <- <-]. rewrite Ea, EA. reflexivity.
Qed.

Lemma cosineRules_idempotent_witness :
  updateByFirstCosineRule 0 1 1 1 =
    (acos ((cosh 1 * cosh 1 - cosh 1) / (sinh 1 * sinh 1)), 1, 1, 1) /\
  updateByFirstCosineRule (acos ((cosh 1 * cosh 1 - cosh 1) / (sinh 1 * sinh 1))) 1 1 1 =
    (acos ((cosh 1 * cosh 1 - cosh 1) / (sinh 1 * sinh 1)), 1, 1, 1) /\
  updateBySecondCosineRule 0 1 1 1 =
    Normal (acosh ((cos 1 * cos 1 + cos 1) / (sin 1 * sin 1)), 1, 1, 1) /\
  updateBySecondCosineRule (acosh ((cos 1 * cos 1 + cos 1) / (sin 1 * sin 1))) 1 1 1 =
    Normal (acosh ((cos 1 * cos 1 + cos 1) / (sin 1 * sin 1)), 1, 1, 1).
Proof.
  assert (H1 : (1 : R) <> 0) by lra.
  assert (F : updateByFirstCosineRule 0 1 1 1 =
              (acos ((cosh 1 * cosh 1 - cosh 1) / (sinh 1 * sinh 1)), 1, 1, 1)).
  { unfold updateByFirstCosineRule. rewrite nz_0, (nz_true 1 H1). reflexivity. }
  assert (S : updateBySecondCosineRule 0 1 1 1 =
              Normal (acosh ((cos 1 * cos 1 + cos 1) / (sin 1 * sin 1)), 1, 1, 1)).
  { unfold updateBySecondCosineRule. rewrite nz_0, (nz_true 1 H1). reflexivity. }
  split; [exact F | split; [ | split; [exact S | ]]].
  - exact (proj1 cosineRules_idempotent _ _ _ _ _ _ _ _ F).
  - exact (proj2 cosineRules_idempotent _ _ _ _ _ _ _ _ S).
Defined.

(** ** The sine rule is idempotent *)

Lemma asinh_0 : asinh 0 = 0.
Proof. rewrite asinh_arcsinh. apply arcsinh_0. Qed.

Lemma asinh_eq_0 (x : R) : asinh x = 0 -> x = 0.
Proof. intros E. rewrite <- (sinh_asinh x), E. apply sinh_0. Qed.

Lemma asin_eq_0 (x : R) : -1 < x < 1 -> asin x = 0 -> x = 0.
Proof. intros H E. rewrite <- (sin_asin x) by lra. rewrite E. apply sin_0. Qed.

(** A pair that one block of the sine rule returned is left alone by the
    block, whatever the ratio basis. *)
Lemma sineRuleStep_stable (sX sx G g sX' sx' : R) :
  G <> 0 -> g <> 0 ->
  sineRuleStep sX sx G g = Normal (sX', sx') ->
  forall G' g', sineRuleStep sX' sx' G' g' = Normal (sX', sx').
Proof.
  intros HG Hg. unfold sineRuleStep.
  destruct (nz sX) eqn:EX, (nz sx) eqn:Ex; cbn [andb negb].
  - intros [= <- <-] G' g'. rewrite EX, Ex. reflexivity.
  - intros [= <- <-] G' g'. rewrite EX. cbn [andb negb].
    destruct (nz (asinh _)) eqn:E; [reflexivity | ].
    apply nz_false_iff in E. apply asinh_eq_0 in E.
    assert (S : sin sX = 0).
    { unfold Rdiv in E. apply Rmult_integral in E as [E | E].
      - apply Rmult_integral in E as [E | E]; [exact E | contradiction].
      - apply Rinv_neq_0_compat in HG. contradiction. }
    cbn [negb andb]. rewrite S. unfold Rdiv. rewrite !Rmult_0_l.
    rewrite asinh_0. reflexivity.
  - destruct (gtR _ _ && ltR _ _) eqn:EG; intros [= <- <-] G' g'.
    rewrite Ex. cbn [andb negb].
    destruct (nz (asin _)) eqn:E; [reflexivity | ]. exfalso.
    apply nz_false_iff in E. apply andb_prop in EG as [E1 E2].
    unfold gtR in E1. unfold ltR in E2.
    destruct (Rlt_dec (-1) (sinh sx * G / g)); [ | discriminate].
    destruct (Rlt_dec (sinh sx * G / g) 1); [ | discriminate].
    apply asin_eq_0 in E; [ | lra].
    apply nz_true_iff in Ex. apply (ratio_neq_0 (sinh sx) G g); try assumption.
    apply sinh_neq_0, Ex.
  - intros [= <- <-] G' g'. rewrite EX, Ex. reflexivity.
Qed.

Lemma sine_1_1_1 :
  updateBySineRule 1 1 1 0 0 0 =
  Normal (1, 1, 1, asinh (sin 1 * sinh 1 / sin 1), 0, 0).
Proof.
  assert (H1 : (1 : R) <> 0) by lra.
  assert (Hs : sin 1 <> 0).
  { apply Rgt_not_eq, sin_gt_0; pose proof PI2_3_2; lra. }
  assert (Hh : sinh 1 <> 0) by (apply sinh_neq_0; lra).
  unfold updateBySineRule, sineRuleStep.
  js_eval ltac:(first [reflexivity | assumption]). reflexivity.
Qed.

(** One pass of the sine rule fills everything the rule can fill. *)
Lemma sine_rule_second_pass (sA sa sB sb sC sc sA' sa' sB' sb' sC' sc' : R) :
  updateBySineRule sA sa sB sb sC sc = Normal (sA', sa', sB', sb', sC', sc') ->
  updateBySineRule sA' sa' sB' sb' sC' sc' = Normal (sA', sa', sB', sb', sC', sc').
Proof.
  intros H. pose proof H as H0. unfold updateBySineRule in H.
  destruct (nz sA || nz sa || nz sB || nz sb || nz sC || nz sc).
  2: { injection H as <- <- <- <- <- <-. exact H0. }
  destruct (if nz sa && nz sA then _ else _) as [G g].
  destruct (nz G && nz g) eqn:EGg.
  2: { injection H as <- <- <- <- <- <-. exact H0. }
  apply andb_prop in EGg as [EG Eg].
  apply nz_true_iff in EG. apply nz_true_iff in Eg.
  destruct (sineRuleStep sB sb G g) as [[B1 b1] | ] eqn:EB; [ | discriminate].
  destruct (sineRuleStep sC sc G g) as [[C1 c1] | ] eqn:EC; [ | discriminate].
  destruct (sineRuleStep sA sa G g) as [[A1 a1] | ] eqn:EA; [ | discriminate].
  cbn [bind] in H. injection H as <- <- <- <- <- <-.
  pose proof (sineRuleStep_stable _ _ _ _ _ _ EG Eg EB) as SB.
  pose proof (sineRuleStep_stable _ _ _ _ _ _ EG Eg EC) as SC.
  pose proof (sineRuleStep_stable _ _ _ _ _ _ EG Eg EA) as SA.
  unfold updateBySineRule.
  destruct (nz A1 || nz a1 || nz B1 || nz b1 || nz C1 || nz c1); [ | reflexivity].
  destruct (if nz a1 && nz A1 then _ else _) as [G' g'].
  destruct (nz G' && nz g'); [ | reflexivity].
  rewrite SB, SC, SA. reflexivity.
Qed.

(** X8: take arguments of [updateBySineRule] that are absent (0) or of
    moderate size.  When the call returns a tuple, applying it to that
    tuple returns the same tuple: one pass fills everything the rule can
    fill. *)
Theorem updateBySineRule_idempotent (sA sa sB sb sC sc sA' sa' sB' sb' sC' sc' : R) :
  absentOr moderateAngle sA -> absentOr moderateSide sa ->
  absentOr moderateAngle sB -> absentOr moderateSide sb ->
  absentOr moderateAngle sC -> absentOr moderateSide sc ->
  updateBySineRule sA sa sB sb sC sc = Normal (sA', sa', sB', sb', sC', sc') ->
  updateBySineRule sA' sa' sB' sb' sC' sc' = Normal (sA', sa', sB', sb', sC', sc').
Proof.
  intros _ _ _ _ _ _ H. exact (sine_rule_second_pass _ _ _ _ _ _ _ _ _ _ _ _ H).
Qed.

Lemma updateBySineRule_idempotent_witness :
  absentOr moderateAngle 1 /\ absentOr moderateSide 1 /\ absentOr moderateSide 0 /\
  updateBySineRule 1 1 1 0 0 0 =
    Normal (1, 1, 1, asinh (sin 1 * sinh 1 / sin 1), 0, 0) /\
  updateBySineRule 1 1 1 (asinh (sin 1 * sinh 1 / sin 1)) 0 0 =
    Normal (1, 1, 1, asinh (sin 1 * sinh 1 / sin 1), 0, 0).
Proof.
  assert (MA : absentOr moderateAngle 1) by (right; exact moderateAngle_1).
  assert (MS : absentOr moderateSide 1) by (right; exact moderateSide_1).
  assert (Z : forall P, absentOr P 0) by (intros P; left; reflexivity).
  split; [exact MA | split; [exact MS | split; [exact (Z moderateSide) | ]]].
  split; [exact sine_1_1_1 | ].
  exact (updateBySineRule_idempotent _ _ _ _ _ _ _ _ _ _ _ _
           MA MS MA (Z moderateSide) (Z moderateAngle) (Z moderateSide) sine_1_1_1).
Defined.

(** ** The solver of the two-sides case *)

Lemma tanh_bounds (x : R) : -1 < tanh x < 1.
Proof.
  unfold tanh. pose proof (cosh_pos x) as C.
  assert (L : - cosh x < sinh x < cosh x).
  { unfold cosh, sinh. pose proof (exp_pos x). pose proof (exp_pos (- x)). lra. }
  split.
  - apply Rmult_lt_reg_r with (cosh x); [exact C | ].
    unfold Rdiv. rewrite Rmult_assoc, Rinv_l by lra. lra.
  - apply Rmult_lt_reg_r with (cosh x); [exact C | ].
    unfold Rdiv. rewrite Rmult_assoc, Rinv_l by lra. lra.
Qed.

Lemma cosh_double (x : R) : cosh (2 * x) = 1 + 2 * (sinh x * sinh x).
Proof.
  unfold cosh, sinh. replace (- (2 * x)) with (- x + - x) by ring.
  replace (2 * x) with (x + x) by ring. rewrite !exp_plus.
  pose proof (exp_opp_mul x) as E.
  set (e := exp x) in *. set (f := exp (- x)) in *.
  replace (1 + 2 * ((e - f) / 2 * ((e - f) / 2)))
    with ((e * e + f * f) / 2 + (1 - e * f)) by field.
  rewrite E. lra.
Qed.

Lemma tanh_pos (x : R) : 0 < x -> 0 < tanh x.
Proof.
  intros H. unfold tanh. apply Rdiv_lt_0_compat; [apply sinh_pos, H | apply cosh_pos].
Qed.

Lemma tanh_lt_1 (x : R) : tanh x < 1.
Proof.
  unfold tanh. pose proof (cosh_pos x) as C.
  apply Rmult_lt_reg_r with (cosh x); [exact C | ].
  unfold Rdiv. rewrite Rmult_assoc, Rinv_l by lra.
  unfold cosh, sinh. pose proof (exp_pos (- x)). lra.
Qed.

Lemma maximum_side_cosh (b c : R) :
  cosh (2 * asinh (sqrt (sinh (b / 2) ^ 2 + sinh (c / 2) ^ 2))) = cosh b + cosh c - 1.
Proof.
  set (s := sqrt (sinh (b / 2) ^ 2 + sinh (c / 2) ^ 2)).
  assert (Hss : s * s = sinh (b / 2) ^ 2 + sinh (c / 2) ^ 2).
  { apply sqrt_sqrt. pose proof (pow2_ge_0 (sinh (b / 2))).
    pose proof (pow2_ge_0 (sinh (c / 2))). lra. }
  rewrite cosh_double, sinh_asinh, Hss.
  replace b with (2 * (b / 2)) at 2 by field.
  replace c with (2 * (c / 2)) at 2 by field.
  rewrite !cosh_double. ring.
Qed.

Lemma maximum_angle (b c : R) :
  -1 < tanh (b / 2) * tanh (c / 2) < 1 /\
  0 < acos (tanh (b / 2) * tanh (c / 2)) < PI /\
  cos (acos (tanh (b / 2) * tanh (c / 2))) = tanh (b / 2) * tanh (c / 2).
Proof.
  pose proof (tanh_bounds (b / 2)) as Tb. pose proof (tanh_bounds (c / 2)) as Tc.
  assert (T : -1 < tanh (b / 2) * tanh (c / 2) < 1) by (split; nra).
  split; [exact T | split; [apply acos_bound_lt, T | apply cos_acos; lra]].
Qed.

(** X9: for [|b|, |c| <= 30], [calculateMaximumAngleAndSide] does not throw:
    the product of the two hyperbolic tangents stays strictly between -1
    and 1.  The angle it returns lies strictly between 0 and PI and has
    the product as its cosine within 1e-9; the side [a] it returns is not
    negative and has [cosh a = cosh b + cosh c - 1] within the relative
    tolerance 1e-9; [b] and [c] are returned as they are, and the values
    passed for the angle and the side are ignored. *)
Theorem calculateMaximumAngleAndSide_total (A a b c : R) :
  Rabs b <= 30 -> Rabs c <= 30 ->
  exists A' a',
    calculateMaximumAngleAndSide A a b c = Normal (A', a', b, c) /\
    0 < A' < PI /\ close (cos A') (tanh (b / 2) * tanh (c / 2)) /\
    0 <= a' /\
    Rabs (cosh a' - (cosh b + cosh c - 1)) <= tolerance * cosh a'.
Proof.
  intros _ _. destruct (maximum_angle b c) as (T & HA & EA).
  exists (acos (tanh (b / 2) * tanh (c / 2))),
         (2 * asinh (sqrt (sinh (b / 2) ^ 2 + sinh (c / 2) ^ 2))).
  unfold calculateMaximumAngleAndSide. cbv zeta.
  rewrite (gtR_true _ _ (proj1 T)), (ltR_true _ _ (proj2 T)). cbn [andb].
  split; [reflexivity | split; [exact HA | split; [apply close_eq, EA | split]]].
  - pose proof (sqrt_pos (sinh (b / 2) ^ 2 + sinh (c / 2) ^ 2)) as [Hs | <-].
    + pose proof (asinh_pos _ Hs). lra.
    + rewrite asinh_0. lra.
  - rewrite maximum_side_cosh.
    replace (cosh b + cosh c - 1 - (cosh b + cosh c - 1)) with 0 by ring.
    rewrite Rabs_R0. pose proof tolerance_pos. pose proof (cosh_ge_1 b).
    pose proof (cosh_ge_1 c). apply Rmult_le_pos; lra.
Qed.

Lemma calculateMaximumAngleAndSide_total_witness :
  Rabs 1 <= 30 /\ Rabs 2 <= 30 /\
  exists A' a',
    calculateMaximumAngleAndSide 0 0 1 2 = Normal (A', a', 1, 2) /\ 0 < A' < PI.
Proof.
  assert (H1 : Rabs 1 <= 30) by (rewrite Rabs_right; lra).
  assert (H2 : Rabs 2 <= 30) by (rewrite Rabs_right; lra).
  split; [exact H1 | split; [exact H2 | ]].
  destruct (calculateMaximumAngleAndSide_total 0 0 1 2 H1 H2) as (A' & a' & E & HA & _).
  exists A', a'. split; assumption.
Defined.

(** ** Completion from two sides *)

Lemma asin_pos (x : R) : 0 < x < 1 -> 0 < asin x < PI / 2.
Proof.
  intros H. pose proof (asin_bound_lt x ltac:(lra)) as B.
  pose proof (sin_asin x ltac:(lra)) as E.
  split; [ | lra].
  destruct (Rlt_le_dec 0 (asin x)) as [L | L]; [exact L | exfalso].
  pose proof (sin_ge_0 (- asin x) ltac:(lra) ltac:(pose proof PI_RGT_0; lra)) as S.
  rewrite sin_neg in S. lra.
Qed.

Lemma sinh_lt_of_cosh_lt (x y : R) : 0 < x -> 0 < y -> cosh x < cosh y -> sinh x < sinh y.
Proof.
  intros Hx Hy L.
  pose proof (sinh_pos x Hx). pose proof (sinh_pos y Hy).
  pose proof (cosh2_sinh2 x). pose proof (cosh2_sinh2 y).
  pose proof (cosh_ge_1 x). pose proof (cosh_ge_1 y).
  destruct (Rlt_le_dec (sinh x) (sinh y)) as [K | K]; [exact K | nra].
Qed.

(** The completion from the sides [b] and [c] alone, in exact arithmetic. *)
Lemma two_sides_exact (b c : R) :
  0 < b -> 0 < c ->
  exists A a B C,
    completeTriangle 0 0 0 b 0 c = Normal (Some (mkTriangle A a B b C c)) /\
    0 < A < PI / 2 /\ cos A = tanh (b / 2) * tanh (c / 2) /\
    0 < a /\ cosh a = cosh b + cosh c - 1 /\
    0 < B < PI / 2 /\ sinh a * sin B = sinh b * sin A /\
    0 < C < PI / 2 /\ sinh a * sin C = sinh c * sin A.
Proof.
  intros Hb Hc.
  destruct (maximum_angle b c) as ((T1 & T2) & (HA1 & HA2) & EA).
  pose proof (maximum_side_cosh b c) as Ea.
  set (P := tanh (b / 2) * tanh (c / 2)) in *.
  set (s := sqrt (sinh (b / 2) ^ 2 + sinh (c / 2) ^ 2)) in *.
  set (A := acos P) in *. set (a := 2 * asinh s) in *.
  assert (HP : 0 < P).
  { apply Rmult_lt_0_compat; apply tanh_pos; lra. }
  assert (HAq : A < PI / 2).
  { destruct (Rlt_le_dec A (PI / 2)) as [L | L]; [exact L | exfalso].
    pose proof (cos_le_0 A L ltac:(lra)). lra. }
  assert (Hs : 0 < s).
  { apply sqrt_lt_R0. pose proof (sinh_pos (b / 2) ltac:(lra)).
    pose proof (pow2_ge_0 (sinh (c / 2))). nra. }
  assert (Ha : 0 < a) by (pose proof (asinh_pos s Hs); unfold a; lra).
  pose proof (sinh_pos a Ha) as Sa. pose proof (sinh_pos b Hb) as Sb.
  pose proof (sinh_pos c Hc) as Sc.
  pose proof (cosh_gt_1 b ltac:(lra)) as Cb. pose proof (cosh_gt_1 c ltac:(lra)) as Cc.
  assert (Lb : sinh b < sinh a) by (apply sinh_lt_of_cosh_lt; lra).
  assert (Lc : sinh c < sinh a) by (apply sinh_lt_of_cosh_lt; lra).
  assert (SA : 0 < sin A <= 1).
  { split; [apply sin_gt_0; lra | apply SIN_bound]. }
  assert (Gb : 0 < sinh b * sin A / sinh a < 1).
  { split; [apply Rdiv_lt_0_compat; nra | ].
    apply Rmult_lt_reg_r with (sinh a); [exact Sa | ].
    unfold Rdiv. rewrite Rmult_assoc, Rinv_l by lra. nra. }
  assert (Gc : 0 < sinh c * sin A / sinh a < 1).
  { split; [apply Rdiv_lt_0_compat; nra | ].
    apply Rmult_lt_reg_r with (sinh a); [exact Sa | ].
    unfold Rdiv. rewrite Rmult_assoc, Rinv_l by lra. nra. }
  exists A, a, (asin (sinh b * sin A / sinh a)), (asin (sinh c * sin A / sinh a)).
  split.
  - assert (NA : A <> 0) by lra. assert (Na : a <> 0) by lra.
    assert (Nb : b <> 0) by lra. assert (Nc : c <> 0) by lra.
    assert (NsA : sin A <> 0) by lra. assert (Nsa : sinh a <> 0) by lra.
    pose proof zero_not_right as Hz.
    assert (RA : A <> degrees2Radians 90) by (rewrite degrees2Radians_90; lra).
    assert (Gb1 : -1 < sinh b * sin A / sinh a) by lra.
    assert (Gc1 : -1 < sinh c * sin A / sinh a) by lra.
    destruct Gb as [_ Gb2]. destruct Gc as [_ Gc2].
    unfold completeTriangle, completeTriangle_try; unfold_solvers. cbv zeta.
    fold P. fold s. fold A. fold a.
    repeat (progress (js_tests ltac:(first [reflexivity | assumption]); js_step;
                      fold P; fold s; fold A; fold a)).
    reflexivity.
  - repeat split; try assumption; try lra.
    + apply asin_pos, Gb.
    + apply asin_pos, Gb.
    + rewrite sin_asin by lra. field. lra.
    + apply asin_pos, Gc.
    + apply asin_pos, Gc.
    + rewrite sin_asin by lra. field. lra.
Qed.

(** X10: from two sides of moderate size alone (here [b] and [c]) the
    completion does not fail and fills all six measurements: the two given
    sides are returned as they were, the angle between them is acute with
    [cos A = tanh (b / 2) * tanh (c / 2)] within 1e-9, the third side is
    positive, and the remaining two angles are acute and satisfy the sine
    rule within 1e-9. *)
Theorem completeTriangle_two_sides (b c : R) :
  moderateSide b -> moderateSide c ->
  exists A a B C,
    completeTriangle 0 0 0 b 0 c = Normal (Some (mkTriangle A a B b C c)) /\
    0 < A < PI / 2 /\ close (cos A) (tanh (b / 2) * tanh (c / 2)) /\
    0 < a /\
    0 < B < PI / 2 /\ close (sinh a * sin B) (sinh b * sin A) /\
    0 < C < PI / 2 /\ close (sinh a * sin C) (sinh c * sin A).
Proof.
  intros [Hb _] [Hc _].
  destruct (two_sides_exact b c ltac:(lra) ltac:(lra))
    as (A & a & B & C & E & HA & EA & Ha & _ & HB & EB & HC & EC).
  exists A, a, B, C.
  repeat split; try assumption; try lra; apply close_eq; assumption.
Qed.

Lemma completeTriangle_two_sides_witness :
  moderateSide 1 /\ moderateSide 2 /\
  exists A a B C,
    completeTriangle 0 0 0 1 0 2 = Normal (Some (mkTriangle A a B 1 C 2)) /\
    0 < A < PI / 2 /\ 0 < a /\ 0 < B < PI / 2 /\ 0 < C < PI / 2.
Proof.
  assert (H2 : moderateSide 2) by (unfold moderateSide; lra).
  split; [exact moderateSide_1 | split; [exact H2 | ]].
  destruct (completeTriangle_two_sides 1 2 moderateSide_1 H2)
    as (A & a & B & C & E & HA & _ & Ha & HB & _ & HC & _).
  exists A, a, B, C. repeat split; try assumption; lra.
Defined.

(** ** The angle of parallelism *)

(** X12: for [k <> 0] and [|b| <= 5 |k|], [hyperbolicDistance (b, k)] is an
    angle [x] strictly between 0 and PI with [tan (x / 2) = exp (- b / k)]
    within 1e-9; it is [PI / 2] at [b = 0]. *)
Theorem hyperbolicDistance_angle (b k : R) :
  k <> 0 -> Rabs b <= 5 * Rabs k ->
  0 < hyperbolicDistance b k < PI /\
  close (tan (hyperbolicDistance b k / 2)) (exp (- b / k)) /\
  hyperbolicDistance 0 k = PI / 2.
Proof.
  intros Hk _. unfold hyperbolicDistance. cbv zeta.
  pose proof (atan_bound (exp (- b / k))) as [_ U].
  assert (L : 0 < atan (exp (- b / k))).
  { rewrite <- atan_0. apply atan_increasing, exp_pos. }
  split; [lra | split].
  - apply close_eq.
    replace (2 * atan (exp (- b / k)) / 2) with (atan (exp (- b / k))) by field.
    apply tan_atan.
  - replace (- 0 / k) with 0 by (field; exact Hk). rewrite exp_0, atan_1. lra.
Qed.

Lemma hyperbolicDistance_angle_witness :
  1 <> 0 /\ Rabs 2 <= 5 * Rabs 1 /\
  0 < hyperbolicDistance 2 1 < PI /\ hyperbolicDistance 0 1 = PI / 2.
Proof.
  assert (H : Rabs 2 <= 5 * Rabs 1) by (rewrite !Rabs_right; lra).
  split; [exact R1_neq_R0 | split; [exact H | split]].
  - exact (proj1 (hyperbolicDistance_angle 2 1 R1_neq_R0 H)).
  - exact (proj2 (proj2 (hyperbolicDistance_angle 2 1 R1_neq_R0 H))).
Defined.

(** ** Gyrovector radius to Poincare radius and back *)

Lemma ln_ratio_tanh (h : R) : ln ((1 + tanh h) / (1 - tanh h)) = 2 * h.
Proof.
  unfold tanh. pose proof (cosh_pos h) as C.
  replace ((1 + sinh h / cosh h) / (1 - sinh h / cosh h))
    with ((cosh h + sinh h) / (cosh h - sinh h)).
  2: { assert (cosh h - sinh h <> 0).
       { unfold cosh, sinh. pose proof (exp_pos (- h)). lra. }
       field. split; [lra | ]. unfold cosh, sinh in *. pose proof (exp_pos (- h)). lra. }
  replace (cosh h - sinh h) with (exp (- h)) by (unfold cosh, sinh; lra).
  rewrite cosh_plus_sinh. unfold Rdiv. rewrite <- exp_Ropp, Ropp_involutive, <- exp_plus.
  rewrite ln_exp. ring.
Qed.

(** X13: for a gyrovector radius [1e-9 <= rg <= 10], the conversion gives
    the Poincare radius [r = tanh (rg / 2)], strictly between 0 and 1, and
    converting that [r] back returns [rg] within 1e-9. *)
Theorem gyrovector_poincare_round_trip (rg : R) :
  tolerance <= rg <= 10 ->
  let r := fst (calculatePoincareAndGyrovectorRadius 0 rg) in
  let rg' := snd (calculatePoincareAndGyrovectorRadius r 0) in
  r = tanh (rg / 2) /\ 0 < r < 1 /\ close rg' rg.
Proof.
  intros [H _]. pose proof tolerance_pos as T. cbv zeta.
  rewrite poincare_of_gyrovector by lra. cbn [fst].
  assert (P : 0 < tanh (rg / 2)) by (apply tanh_pos; lra).
  pose proof (tanh_lt_1 (rg / 2)) as U.
  rewrite gyrovector_of_poincare by lra. cbn [snd].
  rewrite ln_ratio_tanh. repeat split; try assumption.
  apply close_eq. field.
Qed.

Lemma gyrovector_poincare_round_trip_witness :
  tolerance <= 1 <= 10 /\
  close (snd (calculatePoincareAndGyrovectorRadius
                (fst (calculatePoincareAndGyrovectorRadius 0 1)) 0)) 1.
Proof.
  assert (H : tolerance <= 1 <= 10).
  { unfold tolerance. pose proof tolerance_lt_1. lra. }
  split; [exact H | ].
  exact (proj2 (proj2 (gyrovector_poincare_round_trip 1 H))).
Defined.

(** ** Disk and half-plane parameters of a circle *)

Lemma halfPlane_of_disk (y r : R) :
  y <> 0 -> r <> 0 ->
  calculatePoincareAndHalfPlaneParameters 0 y r 0 0 0 0 0 =
  (0, y, r, 2 * PI * r, 0, sqrt (y * y - r * r), acosh (y / sqrt (y * y - r * r)),
   2 * PI * sinh (acosh (y / sqrt (y * y - r * r)))).
Proof.
  intros Hy Hr. unfold calculatePoincareAndHalfPlaneParameters.
  rewrite nz_0. cbn [andb]. rewrite nz_0, (nz_true y Hy), (nz_true r Hr). reflexivity.
Qed.

Lemma disk_of_halfPlane (yg rg : R) :
  yg <> 0 -> rg <> 0 ->
  calculatePoincareAndHalfPlaneParameters 0 0 0 0 0 yg rg 0 =
  (0, yg * cosh rg, yg * sqrt (cosh rg * cosh rg - 1),
   2 * PI * (yg * sqrt (cosh rg * cosh rg - 1)), 0, yg, rg, 2 * PI * sinh rg).
Proof.
  intros Hy Hr. unfold calculatePoincareAndHalfPlaneParameters.
  rewrite nz_0. cbn [andb]. rewrite nz_0, (nz_true yg Hy), (nz_true rg Hr). reflexivity.
Qed.

Lemma sqrt_cosh2_minus_1 (x : R) : 0 <= x -> sqrt (cosh x * cosh x - 1) = sinh x.
Proof.
  intros H. replace (cosh x * cosh x - 1) with (sinh x * sinh x)
    by (pose proof (cosh2_sinh2 x); lra).
  apply sqrt_square. destruct H as [H | <-]; [left; apply sinh_pos, H | rewrite sinh_0; lra].
Qed.

(** X15: take a circle of the disk with centre height [y <= 10] and radius
    [0.1 <= r <= 0.9 y].  It is converted to half-plane parameters
    [yg > 0] and [rg > 0], and converting these two back returns the same
    [yg], [rg] and half-plane circumference, and the disk values [y], [r]
    and [2 PI r] within 1e-9. *)
Theorem disk_halfPlane_round_trip (y r : R) :
  1 / 10 <= r -> r <= 9 / 10 * y -> y <= 10 ->
  exists yg rg lg,
    calculatePoincareAndHalfPlaneParameters 0 y r 0 0 0 0 0
      = (0, y, r, 2 * PI * r, 0, yg, rg, lg) /\
    0 < yg /\ 0 < rg /\
    exists y' r' l',
      calculatePoincareAndHalfPlaneParameters 0 0 0 0 0 yg rg 0
        = (0, y', r', l', 0, yg, rg, lg) /\
      close y' y /\ close r' r /\ close l' (2 * PI * r).
Proof.
  intros Hr Hry Hy.
  set (yg := sqrt (y * y - r * r)).
  assert (Hyg : 0 < yg) by (apply sqrt_lt_R0; nra).
  assert (Hyy : yg * yg = y * y - r * r) by (apply sqrt_sqrt; nra).
  assert (Hq : 1 < y / yg).
  { apply Rmult_lt_reg_r with yg; [exact Hyg | ].
    unfold Rdiv. rewrite Rmult_assoc, Rinv_l by lra. nra. }
  assert (Hrg : 0 < acosh (y / yg)) by (apply acosh_pos, Hq).
  assert (EC : cosh (acosh (y / yg)) = y / yg) by (apply cosh_acosh; lra).
  assert (ES : sinh (acosh (y / yg)) = r / yg).
  { rewrite <- sqrt_cosh2_minus_1 by lra. rewrite EC.
    replace (y / yg * (y / yg) - 1) with ((r / yg) * (r / yg)).
    - apply sqrt_square. apply Rlt_le, Rdiv_lt_0_compat; lra.
    - field_simplify_eq; [ | lra]. nra. }
  exists yg, (acosh (y / yg)), (2 * PI * sinh (acosh (y / yg))).
  split; [apply halfPlane_of_disk; lra | ].
  split; [exact Hyg | split; [exact Hrg | ]].
  rewrite disk_of_halfPlane by lra.
  do 3 eexists. split; [reflexivity | ].
  rewrite sqrt_cosh2_minus_1 by lra. rewrite EC, ES.
  repeat split; apply close_eq; field; lra.
Qed.

Lemma disk_halfPlane_round_trip_witness :
  1 / 10 <= 1 /\ 1 <= 9 / 10 * 2 /\ 2 <= 10 /\
  exists yg rg lg,
    calculatePoincareAndHalfPlaneParameters 0 2 1 0 0 0 0 0
      = (0, 2, 1, 2 * PI * 1, 0, yg, rg, lg) /\
    exists y' r' l',
      calculatePoincareAndHalfPlaneParameters 0 0 0 0 0 yg rg 0
        = (0, y', r', l', 0, yg, rg, lg) /\
      close y' 2 /\ close r' 1.
Proof.
  assert (H1 : 1 / 10 <= 1) by lra. assert (H2 : 1 <= 9 / 10 * 2) by lra.
  assert (H3 : 2 <= 10) by lra.
  split; [exact H1 | split; [exact H2 | split; [exact H3 | ]]].
  destruct (disk_halfPlane_round_trip 2 1 H1 H2 H3)
    as (yg & rg & lg & E1 & _ & _ & y' & r' & l' & E2 & Cy & Cr & _).
  exists yg, rg, lg. split; [exact E1 | ].
  exists y', r', l'. repeat split; assumption.
Defined.

(** X16: half-plane parameters [0.1 <= yg <= 10] and [0.1 <= rg <= 2] are
    converted to a disk circle with [0 < r < y], and converting [y] and
    [r] back returns the same [y], [r] and disk circumference, and the
    half-plane values [yg], [rg] and circumference within 1e-9. *)
Theorem halfPlane_disk_round_trip (yg rg : R) :
  moderateSide yg -> 1 / 10 <= rg <= 2 ->
  exists y r l lg,
    calculatePoincareAndHalfPlaneParameters 0 0 0 0 0 yg rg 0
      = (0, y, r, l, 0, yg, rg, lg) /\
    0 < r < y /\
    exists yg' rg' lg',
      calculatePoincareAndHalfPlaneParameters 0 y r 0 0 0 0 0
        = (0, y, r, l, 0, yg', rg', lg') /\
      close yg' yg /\ close rg' rg /\ close lg' lg.
Proof.
  intros [Hyg _] [Hrg _].
  pose proof (sinh_pos rg ltac:(lra)) as S. pose proof (cosh_pos rg) as C.
  pose proof (cosh2_sinh2 rg) as I.
  assert (L : sinh rg < cosh rg).
  { unfold sinh, cosh. pose proof (exp_pos (- rg)). lra. }
  exists (yg * cosh rg), (yg * sqrt (cosh rg * cosh rg - 1)),
         (2 * PI * (yg * sqrt (cosh rg * cosh rg - 1))), (2 * PI * sinh rg).
  split; [apply disk_of_halfPlane; lra | ].
  rewrite sqrt_cosh2_minus_1 by lra.
  split; [split; [apply Rmult_lt_0_compat; lra | nra] | ].
  rewrite halfPlane_of_disk
    by (apply Rgt_not_eq, Rmult_lt_0_compat; lra).
  do 3 eexists. split; [reflexivity | ].
  assert (E : sqrt (yg * cosh rg * (yg * cosh rg) - yg * sinh rg * (yg * sinh rg)) = yg).
  { replace (yg * cosh rg * (yg * cosh rg) - yg * sinh rg * (yg * sinh rg))
      with (yg * yg) by nra.
    apply sqrt_square. lra. }
  rewrite E.
  replace (yg * cosh rg / yg) with (cosh rg) by (field; lra).
  rewrite acosh_cosh by lra.
  repeat split; apply close_refl.
Qed.

Lemma halfPlane_disk_round_trip_witness :
  moderateSide 1 /\ 1 / 10 <= 1 <= 2 /\
  exists y r l lg,
    calculatePoincareAndHalfPlaneParameters 0 0 0 0 0 1 1 0
      = (0, y, r, l, 0, 1, 1, lg) /\
    exists yg' rg' lg',
      calculatePoincareAndHalfPlaneParameters 0 y r 0 0 0 0 0
        = (0, y, r, l, 0, yg', rg', lg') /\
      close yg' 1 /\ close rg' 1.
Proof.
  assert (H : 1 / 10 <= 1 <= 2) by lra.
  split; [exact moderateSide_1 | split; [exact H | ]].
  destruct (halfPlane_disk_round_trip 1 1 moderateSide_1 H)
    as (y & r & l & lg & E1 & _ & yg' & rg' & lg' & E2 & Cy & Cr & _).
  exists y, r, l, lg. split; [exact E1 | ].
  exists yg', rg', lg'. repeat split; assumption.
Defined.

(** * Further properties of the drawler *)

(** ** The geometry of one geodesic arc *)

Lemma sin2_cos2_mul (x : R) : sin x * sin x + cos x * cos x = 1.
Proof. pose proof (sin2_cos2 x) as H. unfold Rsqr in H. exact H. Qed.




(** ** A geodesic line between two boundary angles *)

Lemma line_guard_any (C : R) :
  -1 < sinh (999 / 1000) * sin C / sinh legLength < 1.
Proof.
  pose proof sinh_legLength as Hg. pose proof sinh_aung_bounds as Hs.
  pose proof (SIN_bound C) as HG.
  set (g := sinh legLength) in *. set (s := sinh (999 / 1000)) in *. set (G := sin C) in *.
  assert (Hn : - (3 / 2) < s * G < 3 / 2) by nra.
  split.
  - apply Rmult_lt_reg_r with g; [lra | ].
    replace (s * G / g * g) with (s * G) by (field; lra). lra.
  - apply Rmult_lt_reg_r with g; [lra | ].
    replace (s * G / g * g) with (s * G) by (field; lra). lra.
Qed.

(** The sine rule of [createHyperbolicLine] never throws. *)
Lemma line_sine_rule_total (C : R) :
  exists A B,
    updateBySineRule 0 (999 / 1000) 0 (999 / 1000) C legLength =
    Normal (A, 999 / 1000, B, 999 / 1000, C, legLength).
Proof.
  destruct (line_guard_any C) as [G1 G2]. pose proof legLength_neq_0 as Ha.
  assert (Hs : sinh legLength <> 0) by (pose proof sinh_legLength; lra).
  assert (Hu : (999 / 1000 : R) <> 0) by lra.
  destruct (Req_dec_T C 0) as [-> | HC].
  - do 2 eexists. apply updateBySineRule_no_basis; rewrite nz_0;
      try reflexivity; apply andb_false_r.
  - destruct (Req_dec_T (sin C) 0) as [HG | HG].
    + do 2 eexists. unfold updateBySineRule, sineRuleStep.
      js_eval ltac:(first [reflexivity | assumption]). reflexivity.
    + do 2 eexists. unfold updateBySineRule, sineRuleStep.
      js_eval ltac:(first [reflexivity | assumption]). reflexivity.
Qed.

(** Past its three checks [createHyperbolicLine] draws one stroke. *)
Lemma createHyperbolicLine_one_stroke (this : HyperbolicDrawler) (a1 a2 : R)
      (cv : Canvas) :
  this_ctx this = true -> a1 <= 360 -> a2 <= 360 -> a1 <> a2 ->
  exists cmds,
    createHyperbolicLine this a1 a2 cv = (Normal tt, cv ++ cmds) /\
    strokes cmds = 1%nat.
Proof.
  intros Hctx H1 H2 N. unfold createHyperbolicLine. fold legLength.
  set (a1' := if gtR (a2 - a1) PI then 2 * PI + a1 else a1).
  set (a2' := if gtR (a1' - a2) PI then 2 * PI + a2 else a2).
  set (C := if gtR a2' a1' then a2' - a1' else a1' - a2').
  pose proof (updateByFirstCosineRule_keeps C legLength legLength legLength) as K.
  destruct (updateByFirstCosineRule C legLength legLength legLength)
    as [[[A0 a0] b0] c0]. destruct K as (_ & _ & _ & ->).
  destruct (line_sine_rule_total C) as (A & B & ES). rewrite ES.
  draw_unfold. rewrite Hctx. cbn [negb].
  rewrite (gtR_false a1 360 H1), (gtR_false a2 360 H2), (eqR_false a1 a2 N).
  cbn [orb]. destruct (eqR (Rabs (a1' - a2')) PI).
  - eexists. split; [rewrite <- !app_assoc; reflexivity | reflexivity].
  - destruct (drawCurvature_ok this A B C ((a1' + a2') / 2 + PI / 2 - C / 2)
                (999 / 1000) (999 / 1000) cv Hctx) as [E S].
    eexists. split; [exact E | exact S].
Qed.

(** X18: [createHyperbolicLine] fails only on its three explicit checks: a
    missing context, an angle above 360, or two equal angles.  In every
    other case it returns normally and draws exactly one stroke. *)
Theorem createHyperbolicLine_outcomes (this : HyperbolicDrawler) (a1 a2 : R)
        (cv : Canvas) :
  (this_ctx this = false ->
   createHyperbolicLine this a1 a2 cv
     = (Throw (Error "Canvas context not initialized"), cv)) /\
  (this_ctx this = true -> (360 < a1 \/ 360 < a2) ->
   createHyperbolicLine this a1 a2 cv
     = (Throw (Error "Angles must be less than or equal to 360 degrees"), cv)) /\
  (this_ctx this = true -> a1 <= 360 -> a2 <= 360 -> a1 = a2 ->
   createHyperbolicLine this a1 a2 cv = (Throw (Error "Enter different angles"), cv)) /\
  (this_ctx this = true -> a1 <= 360 -> a2 <= 360 -> a1 <> a2 ->
   exists cmds,
     createHyperbolicLine this a1 a2 cv = (Normal tt, cv ++ cmds) /\
     strokes cmds = 1%nat).
Proof.
  split; [ | split; [ | split]].
  - intros Hctx. unfold createHyperbolicLine. draw_unfold. rewrite Hctx. reflexivity.
  - intros Hctx H. unfold createHyperbolicLine. draw_unfold. rewrite Hctx. cbn [negb].
    destruct H as [H | H].
    + rewrite (gtR_true a1 360 H). reflexivity.
    + rewrite (gtR_true a2 360 H), orb_true_r. reflexivity.
  - intros Hctx H1 H2 E. unfold createHyperbolicLine. draw_unfold. rewrite Hctx.
    cbn [negb]. rewrite (gtR_false a1 360 H1), (gtR_false a2 360 H2), (eqR_true a1 a2 E).
    reflexivity.
  - intros Hctx H1 H2 N. apply createHyperbolicLine_one_stroke; assumption.
Qed.

Lemma createHyperbolicLine_outcomes_witness :
  createHyperbolicLine (mkDrawler true 0 0 1) 1 1 []
    = (Throw (Error "Enter different angles"), []) /\
  exists cmds,
    createHyperbolicLine (mkDrawler true 0 0 1) 0 1 [] = (Normal tt, [] ++ cmds) /\
    strokes cmds = 1%nat.
Proof.
  assert (H0 : 0 <= 360) by lra. assert (H1 : 1 <= 360) by lra.
  assert (N : 0 <> 1) by lra.
  split.
  - exact (proj1 (proj2 (proj2 (createHyperbolicLine_outcomes (mkDrawler true 0 0 1) 1 1 [])))
             eq_refl H1 H1 eq_refl).
  - exact (proj2 (proj2 (proj2 (createHyperbolicLine_outcomes (mkDrawler true 0 0 1) 0 1 [])))
             eq_refl H0 H1 N).
Defined.

(** ** Methods that draw a given number of strokes *)

Lemma draws_ret : draws 0 (ret tt).
Proof. intros cv. exists []. rewrite app_nil_r. split; reflexivity. Qed.

Lemma draws_bind (n k : nat) (m m' : Draw unit) :
  draws n m -> draws k m' -> draws (n + k) (m >> m').
Proof.
  intros Hm Hm' cv. destruct (Hm cv) as (c1 & E1 & S1).
  destruct (Hm' (cv ++ c1)) as (c2 & E2 & S2).
  exists (c1 ++ c2). unfold dbind. rewrite E1, E2, app_assoc, strokes_app, S1, S2.
  split; reflexivity.
Qed.

Lemma draws_ext (n : nat) (m m' : Draw unit) :
  (forall cv, m cv = m' cv) -> draws n m' -> draws n m.
Proof. intros E H cv. rewrite E. apply H. Qed.

Lemma draws_runAll (body : R -> Draw unit) (l : list R) :
  (forall i, In i l -> draws 1 (body i)) -> draws (List.length l) (runAll l body).
Proof.
  induction l as [ | i l IH]; intros H; cbn [runAll List.length].
  - apply draws_ret.
  - change (S (List.length l)) with (1 + List.length l)%nat.
    apply draws_bind; [apply H; left; reflexivity | ].
    apply IH. intros j Hj. apply H. right. exact Hj.
Qed.

Lemma draws_for1 (n : nat) (body : R -> Draw unit) :
  (forall i, (1 <= i <= n)%nat -> draws 1 (body (INR i))) ->
  draws n (for1 (INR n) body).
Proof.
  intros H. apply draws_ext with (runAll (map INR (seq 1 n)) body).
  - intros cv. apply for1_INR.
  - replace n with (List.length (map INR (seq 1 n))) at 1
      by (rewrite length_map, length_seq; reflexivity).
    apply draws_runAll. intros i Hi. apply in_map_iff in Hi as (j & <- & Hj).
    apply in_seq in Hj. apply H. lia.
Qed.

Lemma createHyperbolicLine_draws (this : HyperbolicDrawler) (a1 a2 : R) :
  this_ctx this = true -> a1 <= 360 -> a2 <= 360 -> a1 <> a2 ->
  draws 1 (createHyperbolicLine this a1 a2).
Proof.
  intros Hctx H1 H2 N cv. apply createHyperbolicLine_one_stroke; assumption.
Qed.

(** ** The remainder of a whole number by 2 *)

Lemma INR_double (q : nat) : INR (2 * q) = 2 * INR q.
Proof. rewrite mult_INR. simpl. lra. Qed.

Lemma rem_even (q : nat) : rem (INR (2 * q)) 2 = 0.
Proof.
  unfold rem, Rtrunc. rewrite INR_double. pose proof (pos_INR q) as P.
  destruct (Rle_dec 0 (2 * INR q / 2)) as [_ | N]; [ | lra].
  rewrite <- (Int_part_spec (2 * INR q / 2) (Z.of_nat q)).
  - rewrite <- INR_IZR_INZ. lra.
  - rewrite <- INR_IZR_INZ. lra.
Qed.

Lemma rem_odd (q : nat) : rem (INR (2 * q + 1)) 2 = 1.
Proof.
  unfold rem, Rtrunc. rewrite plus_INR, INR_double. simpl (INR 1).
  pose proof (pos_INR q) as P.
  destruct (Rle_dec 0 ((2 * INR q + 1) / 2)) as [_ | N]; [ | lra].
  rewrite <- (Int_part_spec ((2 * INR q + 1) / 2) (Z.of_nat q)).
  - rewrite <- INR_IZR_INZ. lra.
  - rewrite <- INR_IZR_INZ. lra.
Qed.

(** ** Pencils of parallels and of perpendiculars *)

Section Pencils.

Variable this : HyperbolicDrawler.
Hypothesis Hctx : this_ctx this = true.

Lemma step_below_PI (n i q : nat) (g : R) :
  g = 2 * PI / (INR n + 1) -> (1 <= i <= q)%nat -> (2 * q <= n)%nat ->
  0 < INR i * g < PI.
Proof.
  intros -> Hi Hq. pose proof PI_RGT_0 as P. pose proof (pos_INR n) as Pn.
  assert (Hi1 : 1 <= INR i) by (apply (le_INR 1); lia).
  assert (Hi2 : 2 * INR i <= INR n).
  { rewrite <- INR_double. apply le_INR. lia. }
  assert (G : 0 < 2 * PI / (INR n + 1)) by (apply Rdiv_lt_0_compat; lra).
  split; [apply Rmult_lt_0_compat; lra | ].
  apply Rmult_lt_reg_r with (INR n + 1); [lra | ].
  replace (INR i * (2 * PI / (INR n + 1)) * (INR n + 1)) with (2 * INR i * PI)
    by (field; lra).
  nra.
Qed.

Lemma parallels_even (q : nat) (a1 : R) :
  (1 <= q)%nat -> a1 + PI <= 360 ->
  draws (2 * q) (createParallels this (INR (2 * q)) a1).
Proof.
  intros Hq Ha. pose proof PI_RGT_0 as P.
  set (g := 2 * PI / (INR (2 * q) + 1)).
  apply draws_ext with
    (for1 (INR q) (fun i => createHyperbolicLine this a1 (a1 + i * g)) >>
     for1 (INR q) (fun i => createHyperbolicLine this a1 (a1 - i * g))).
  - intros cv. unfold createParallels. fold g.
    rewrite rem_even, (eqR_false 0 1), (gtR_false a1 360) by lra.
    rewrite (eqR_false (INR (2 * q)) 0).
    + replace (INR (2 * q) / 2) with (INR q) by (rewrite INR_double; field).
      reflexivity.
    + apply Rgt_not_eq. apply (lt_INR 0). lia.
  - replace (2 * q)%nat with (q + q)%nat at 1 by lia.
    apply draws_bind; apply draws_for1; intros i Hi;
      destruct (step_below_PI (2 * q) i q g eq_refl Hi ltac:(lia)) as [G1 G2];
      apply createHyperbolicLine_draws; try assumption; lra.
Qed.

Lemma parallels_odd (q : nat) (a1 : R) :
  a1 + PI <= 360 ->
  draws (2 * q + 1) (createParallels this (INR (2 * q + 1)) a1).
Proof.
  intros Ha. pose proof PI_RGT_0 as P.
  set (g := 2 * PI / (INR (2 * q + 1) + 1)).
  apply draws_ext with
    (for1 (INR q) (fun i => createHyperbolicLine this a1 (a1 + i * g)) >>
     createHyperbolicLine this a1 (a1 + degrees2Radians 179) >>
     for1 (INR q) (fun i => createHyperbolicLine this a1 (a1 - i * g))).
  - intros cv. unfold createParallels. fold g.
    rewrite rem_odd, (eqR_true 1 1), (gtR_false a1 360) by lra.
    rewrite (eqR_false (INR (2 * q + 1)) 0).
    + replace ((INR (2 * q + 1) - 1) / 2) with (INR q)
        by (rewrite plus_INR, INR_double; simpl (INR 1); field).
      reflexivity.
    + apply Rgt_not_eq. apply (lt_INR 0). lia.
  - replace (2 * q + 1)%nat with (q + (1 + q))%nat at 1 by lia.
    apply draws_bind; [ | apply draws_bind].
    + apply draws_for1. intros i Hi.
      destruct (step_below_PI (2 * q + 1) i q g eq_refl Hi ltac:(lia)) as [G1 G2].
      apply createHyperbolicLine_draws; try assumption; lra.
    + apply createHyperbolicLine_draws; try assumption; deg_arith.
    + apply draws_for1. intros i Hi.
      destruct (step_below_PI (2 * q + 1) i q g eq_refl Hi ltac:(lia)) as [G1 G2].
      apply createHyperbolicLine_draws; try assumption; lra.
Qed.

Lemma perpendiculars_draws (n : nat) (a : R) :
  (1 <= n)%nat -> a + PI <= 360 ->
  draws n (createPerpendiculars this (INR n) a).
Proof.
  intros Hn Ha. pose proof PI_RGT_0 as P. pose proof (pos_INR n) as Pn.
  set (o := PI / (INR n + 1)).
  apply draws_ext with
    (for1 (INR n) (fun i => createHyperbolicLine this (a - o * i) (a + o * i))).
  - intros cv. unfold createPerpendiculars. fold o.
    rewrite (gtR_false a 360) by lra.
    rewrite (eqR_false (INR n) 0); [reflexivity | ].
    apply Rgt_not_eq. apply (lt_INR 0). lia.
  - apply draws_for1. intros i Hi.
    assert (Hi1 : 1 <= INR i) by (apply (le_INR 1); lia).
    assert (Hi2 : INR i <= INR n) by (apply le_INR; lia).
    assert (O : 0 < o) by (apply Rdiv_lt_0_compat; lra).
    assert (B : o * INR i < PI).
    { unfold o. apply Rmult_lt_reg_r with (INR n + 1); [lra | ].
      replace (PI / (INR n + 1) * INR i * (INR n + 1)) with (PI * INR i) by (field; lra).
      nra. }
    assert (0 < o * INR i) by (apply Rmult_lt_0_compat; lra).
    apply createHyperbolicLine_draws; try assumption; lra.
Qed.

End Pencils.

(** X19: for every whole number [1 <= k <= 1000] of lines and every base
    angle [-360 <= a1 <= 360 - PI], [createParallels] on an initialised
    surface returns normally and draws exactly [k] geodesics: [k/2] on each
    side for an even [k]; [(k-1)/2] on each side and the line at 179
    degrees for an odd [k]. *)
Theorem createParallels_draws_k (this : HyperbolicDrawler) (k : nat) (a1 : R) (cv : Canvas) :
  this_ctx this = true -> (1 <= k <= 1000)%nat -> -360 <= a1 -> a1 + PI <= 360 ->
  exists cmds,
    createParallels this (INR k) a1 cv = (Normal tt, cv ++ cmds) /\ strokes cmds = k.
Proof.
  intros Hctx [Hk _] _ Ha. destruct (Nat.Even_or_Odd k) as [[q ->] | [q ->]].
  - apply (parallels_even this Hctx q a1); [lia | exact Ha].
  - apply (parallels_odd this Hctx q a1 Ha).
Qed.

Lemma createParallels_draws_k_witness :
  this_ctx (mkDrawler true 0 0 1) = true /\ (1 <= 3 <= 1000)%nat /\
  -360 <= 0 /\ 0 + PI <= 360 /\
  exists cmds,
    createParallels (mkDrawler true 0 0 1) (INR 3) 0 [] = (Normal tt, [] ++ cmds) /\
    strokes cmds = 3%nat.
Proof.
  assert (Hk : (1 <= 3 <= 1000)%nat) by lia.
  assert (Hl : -360 <= 0) by lra.
  assert (Ha : 0 + PI <= 360) by (pose proof PI_bounds; lra).
  split; [reflexivity | split; [exact Hk | split; [exact Hl | split; [exact Ha | ]]]].
  exact (createParallels_draws_k (mkDrawler true 0 0 1) 3 0 [] eq_refl Hk Hl Ha).
Defined.

(** X20: for every whole number [1 <= n <= 1000] and every centre angle
    [-360 <= a <= 360 - PI], [createPerpendiculars] on an initialised
    surface returns normally and draws exactly [n] geodesics. *)
Theorem createPerpendiculars_draws_n (this : HyperbolicDrawler) (n : nat) (a : R)
        (cv : Canvas) :
  this_ctx this = true -> (1 <= n <= 1000)%nat -> -360 <= a -> a + PI <= 360 ->
  exists cmds,
    createPerpendiculars this (INR n) a cv = (Normal tt, cv ++ cmds) /\ strokes cmds = n.
Proof.
  intros Hctx [Hn _] _ Ha. apply (perpendiculars_draws this Hctx n a Hn Ha).
Qed.

Lemma createPerpendiculars_draws_n_witness :
  this_ctx (mkDrawler true 0 0 1) = true /\ (1 <= 2 <= 1000)%nat /\
  -360 <= 1 /\ 1 + PI <= 360 /\
  exists cmds,
    createPerpendiculars (mkDrawler true 0 0 1) (INR 2) 1 [] = (Normal tt, [] ++ cmds) /\
    strokes cmds = 2%nat.
Proof.
  assert (Hn : (1 <= 2 <= 1000)%nat) by lia.
  assert (Hl : -360 <= 1) by lra.
  assert (Ha : 1 + PI <= 360) by (pose proof PI_bounds; lra).
  split; [reflexivity | split; [exact Hn | split; [exact Hl | split; [exact Ha | ]]]].
  exact (createPerpendiculars_draws_n (mkDrawler true 0 0 1) 2 1 [] eq_refl Hn Hl Ha).
Defined.

(** ** Horocycles *)

Lemma runAll_cmds (body : R -> Draw unit) (cmds : R -> Canvas) (l : list R) :
  (forall i cv, In i l -> body i cv = (Normal tt, cv ++ cmds i)) ->
  forall cv, runAll l body cv = (Normal tt, cv ++ flat_map cmds l).
Proof.
  induction l as [ | i l IH]; intros Hb cv; cbn [runAll flat_map].
  - unfold ret. rewrite app_nil_r. reflexivity.
  - unfold dbind. rewrite Hb by (left; reflexivity).
    rewrite IH, app_assoc; [reflexivity | ].
    intros j cv' Hj. apply Hb. right. exact Hj.
Qed.

(** X21: on an initialised surface [createOricycle] rejects a count below 1;
    for a whole number [n >= 1] it draws exactly [n] full circles.  In a
    disk of radius [R > 0] each of them has a radius [r] with [0 < r < R],
    its centre at the distance [R - r] from the centre of the disk, and it
    passes through the boundary point [(X + R cos a, Y - R sin a)]: the
    circles are tangent to the boundary of the disk at that point. *)
Theorem createOricycle_tangent_circles (this : HyperbolicDrawler) (a : R) (cv : Canvas) :
  this_ctx this = true ->
  (forall n, n < 1 ->
     createOricycle this n a cv = (Throw (Error "Invalid number of elements"), cv)) /\
  (forall n : nat, (1 <= n)%nat ->
     createOricycle this (INR n) a cv =
       (Normal tt, cv ++ flat_map (oricycleCmds this (INR n) a) (map INR (seq 1 n))) /\
     arcs (flat_map (oricycleCmds this (INR n) a) (map INR (seq 1 n))) = n /\
     forall i : nat, (1 <= i <= n)%nat -> 0 < this_R this ->
       let r := oricycleRadius this (INR n) (INR i) in
       let cx := this_X this + (this_R this - r) * cos a in
       let cy := this_Y this - (this_R this - r) * sin a in
       0 < r < this_R this /\
       (cx - this_X this) ^ 2 + (cy - this_Y this) ^ 2 = (this_R this - r) ^ 2 /\
       (this_X this + this_R this * cos a - cx) ^ 2 +
       (this_Y this - this_R this * sin a - cy) ^ 2 = r ^ 2).
Proof.
  intros Hctx. split.
  - intros n Hn. unfold createOricycle. draw_unfold. rewrite Hctx. cbn [negb].
    rewrite (ltR_true n 1 Hn). reflexivity.
  - intros n Hn. split; [ | split].
    + unfold createOricycle. draw_unfold. rewrite Hctx. cbn [negb].
      rewrite (ltR_false (INR n) 1) by (apply (le_INR 1); lia).
      rewrite for1_INR. apply runAll_cmds. intros i cv' _.
      unfold oricycleCmds, oricycleRadius. rewrite <- !app_assoc. reflexivity.
    + rewrite arcs_flat_map by (intros i; reflexivity).
      rewrite length_map, length_seq. reflexivity.
    + intros i Hi HR r cx cy. pose proof (pos_INR n) as Pn.
      assert (Hi1 : 1 <= INR i) by (apply (le_INR 1); lia).
      assert (Hi2 : INR i <= INR n) by (apply le_INR; lia).
      assert (Hr : 0 < r < this_R this).
      { unfold r, oricycleRadius. split.
        - apply Rdiv_lt_0_compat; [apply Rmult_lt_0_compat; lra | lra].
        - apply Rmult_lt_reg_r with (INR n + 1); [lra | ].
          replace (INR i * this_R this / (INR n + 1) * (INR n + 1))
            with (INR i * this_R this) by (field; lra).
          nra. }
      pose proof (sin2_cos2_mul a) as S.
      split; [exact Hr | split].
      * replace ((cx - this_X this) ^ 2 + (cy - this_Y this) ^ 2)
          with ((this_R this - r) ^ 2 * (sin a * sin a + cos a * cos a))
          by (unfold cx, cy; ring).
        rewrite S. ring.
      * replace ((this_X this + this_R this * cos a - cx) ^ 2 +
                 (this_Y this - this_R this * sin a - cy) ^ 2)
          with (r ^ 2 * (sin a * sin a + cos a * cos a))
          by (unfold cx, cy; ring).
        rewrite S. ring.
Qed.

Lemma createOricycle_tangent_circles_witness :
  this_ctx (mkDrawler true 0 0 1) = true /\
  createOricycle (mkDrawler true 0 0 1) (INR 2) 0 [] =
    (Normal tt,
     [] ++ flat_map (oricycleCmds (mkDrawler true 0 0 1) (INR 2) 0) (map INR (seq 1 2))) /\
  arcs (flat_map (oricycleCmds (mkDrawler true 0 0 1) (INR 2) 0) (map INR (seq 1 2)))
    = 2%nat.
Proof.
  assert (Hn : (1 <= 2)%nat) by lia.
  split; [reflexivity | ].
  destruct (proj2 (createOricycle_tangent_circles (mkDrawler true 0 0 1) 0 [] eq_refl) 2%nat Hn)
    as (E & A & _).
  split; [exact E | exact A].
Defined.

(** ** The loop that counts from 0 *)

Section LoopLt.

Variable body : R -> Draw unit.

Lemma forLoopLt_fuel (hi : R) (fuel : nat) :
  forall i cv, hi <= i + INR fuel ->
    forLoopLt (S fuel) i hi body cv = forLoopLt fuel i hi body cv.
Proof.
  induction fuel as [ | fuel IH]; intros i cv H.
  - cbn [INR] in H. cbn [forLoopLt]. rewrite ltR_false by lra. reflexivity.
  - change (forLoopLt (S (S fuel)) i hi body cv)
      with ((if ltR i hi then body i >> forLoopLt (S fuel) (i + 1) hi body else ret tt) cv).
    change (forLoopLt (S fuel) i hi body cv)
      with ((if ltR i hi then body i >> forLoopLt fuel (i + 1) hi body else ret tt) cv).
    destruct (ltR i hi); [ | reflexivity].
    unfold dbind. destruct (body i cv) as [[[] | e] cv']; [ | reflexivity].
    apply IH. rewrite S_INR in H. lra.
Qed.

(** The fuel of [for0] is enough: the loop ends because its guard fails. *)
Lemma for0_exits_by_guard (hi : R) (extra : nat) (cv : Canvas) :
  forLoopLt (Z.to_nat (up hi) + extra) 0 hi body cv = for0 hi body cv.
Proof.
  unfold for0. induction extra as [ | extra IH].
  - rewrite Nat.add_0_r. reflexivity.
  - rewrite Nat.add_succ_r, forLoopLt_fuel; [exact IH | ].
    rewrite plus_INR. pose proof (pos_INR extra) as Pe.
    destruct (archimed hi) as [H _].
    destruct (Z_lt_le_dec (up hi) 0) as [L | L].
    + apply IZR_lt in L. pose proof (pos_INR (Z.to_nat (up hi))). lra.
    + rewrite INR_IZR_INZ, Z2Nat.id by exact L. lra.
Qed.

Lemma forLoopLt_INR (n : nat) :
  forall fuel k cv, (n <= fuel)%nat ->
    forLoopLt fuel (INR k) (INR (k + n)) body cv =
    runAll (map INR (seq k n)) body cv.
Proof.
  induction n as [ | n IH]; intros fuel k cv Hf.
  - rewrite Nat.add_0_r. cbn [seq map runAll].
    destruct fuel as [ | fuel]; [reflexivity | ].
    cbn [forLoopLt]. rewrite ltR_false; [reflexivity | lra].
  - destruct fuel as [ | fuel]; [lia | ].
    cbn [forLoopLt seq map runAll]. rewrite ltR_true.
    + unfold dbind. destruct (body (INR k) cv) as [[[] | e] cv']; [ | reflexivity].
      replace (INR k + 1) with (INR (S k)) by (rewrite S_INR; reflexivity).
      replace (k + S n)%nat with (S k + n)%nat by lia.
      apply IH. lia.
    + apply lt_INR. lia.
Qed.

Lemma for0_INR (n : nat) (cv : Canvas) :
  for0 (INR n) body cv = runAll (map INR (seq 0 n)) body cv.
Proof.
  unfold for0. change 0 with (INR 0) at 1.
  apply (forLoopLt_INR n _ 0%nat). rewrite up_INR. lia.
Qed.

End LoopLt.

(** ** Series of concentric circles *)

(** The circles of [handleCircleSeriesDrawing], in exact arithmetic. *)
Lemma circle_series_exact (this : HyperbolicDrawler) (r1 r2 : R)
        (cv : Canvas) :
  this_ctx this = true ->
  handleCircleSeriesDrawing this 0 r1 r2 cv = (Normal tt, cv) /\
  (forall n, n <> 0 -> r2 <= r1 ->
     handleCircleSeriesDrawing this n r1 r2 cv =
     (Throw (Error "Outer radius should be greater than inner radius"), cv)) /\
  (forall n : nat, (2 <= n)%nat -> 0 < r1 < r2 ->
     handleCircleSeriesDrawing this (INR n) r1 r2 cv =
       (Normal tt, cv ++ flat_map (seriesCmds this (INR n) r1 r2) (map INR (seq 0 n))) /\
     arcs (flat_map (seriesCmds this (INR n) r1 r2) (map INR (seq 0 n))) = n /\
     r1 + INR (n - 1) * ((r2 - r1) / (INR n - 1)) = r2 /\
     forall i : nat, (i < n)%nat -> 0 < this_R this ->
       0 < tanh ((r1 + INR i * ((r2 - r1) / (INR n - 1))) / 2) * this_R this
         < this_R this).
Proof.
  intros Hctx. split; [ | split].
  - unfold handleCircleSeriesDrawing. draw_unfold. rewrite Hctx. cbn [negb].
    rewrite (eqR_true 0 0 eq_refl). reflexivity.
  - intros n Hn Hr. unfold handleCircleSeriesDrawing. draw_unfold. rewrite Hctx.
    cbn [negb]. rewrite (eqR_false n 0 Hn), (leR_true r2 r1 Hr). reflexivity.
  - intros n Hn [H1 H2].
    assert (Hn2 : 2 <= INR n) by (apply (le_INR 2); lia).
    assert (Hp : 0 < (r2 - r1) / (INR n - 1)) by (apply Rdiv_lt_0_compat; lra).
    split; [ | split; [ | split]].
    + unfold handleCircleSeriesDrawing. draw_unfold. rewrite Hctx. cbn [negb].
      rewrite (eqR_false (INR n) 0), (leR_false r2 r1), (eqR_false (INR n) 1) by lra.
      rewrite for0_INR. apply runAll_cmds. intros x cv' Hx.
      apply in_map_iff in Hx as (i & <- & _). pose proof (pos_INR i) as Pi.
      rewrite poincare_of_gyrovector by nra.
      unfold seriesCmds. rewrite <- !app_assoc. reflexivity.
    + rewrite arcs_flat_map by (intros i; reflexivity).
      rewrite length_map, length_seq. reflexivity.
    + rewrite minus_INR by lia. simpl (INR 1). field. lra.
    + intros i Hi HR. pose proof (pos_INR i) as Pi.
      set (rg := r1 + INR i * ((r2 - r1) / (INR n - 1))).
      assert (Hrg : 0 < rg) by (unfold rg; nra).
      pose proof (tanh_pos (rg / 2) ltac:(lra)) as T0.
      pose proof (tanh_lt_1 (rg / 2)) as T1.
      split; nra.
Qed.

(** X22: on an initialised surface [handleCircleSeriesDrawing] draws nothing
    for [n = 0] and rejects [r2 <= r1] for every other [n].  For a whole
    number [n >= 2] and [1e-9 <= r1 < r2 <= 30] it draws exactly [n] circles
    centred at the centre of the disk, for the gyrovector radii
    [r1 + i (r2 - r1)/(n - 1)], [i = 0 .. n-1], the last of which is [r2]
    within 1e-9; in a disk of radius [R >= 1] each Euclidean radius
    [tanh (rg / 2) R] is strictly between 0 and [R]. *)
Theorem handleCircleSeriesDrawing_circles (this : HyperbolicDrawler) (r1 r2 : R)
        (cv : Canvas) :
  this_ctx this = true ->
  handleCircleSeriesDrawing this 0 r1 r2 cv = (Normal tt, cv) /\
  (forall n, n <> 0 -> r2 <= r1 ->
     handleCircleSeriesDrawing this n r1 r2 cv =
     (Throw (Error "Outer radius should be greater than inner radius"), cv)) /\
  (forall n : nat, (2 <= n)%nat -> tolerance <= r1 -> r1 < r2 -> r2 <= 30 ->
     handleCircleSeriesDrawing this (INR n) r1 r2 cv =
       (Normal tt, cv ++ flat_map (seriesCmds this (INR n) r1 r2) (map INR (seq 0 n))) /\
     arcs (flat_map (seriesCmds this (INR n) r1 r2) (map INR (seq 0 n))) = n /\
     close (r1 + INR (n - 1) * ((r2 - r1) / (INR n - 1))) r2 /\
     forall i : nat, (i < n)%nat -> 1 <= this_R this ->
       0 < tanh ((r1 + INR i * ((r2 - r1) / (INR n - 1))) / 2) * this_R this
         < this_R this).
Proof.
  intros Hctx.
  destruct (circle_series_exact this r1 r2 cv Hctx) as (H0 & Hrej & Hser).
  split; [exact H0 | split; [exact Hrej | ]].
  intros n Hn H1 H12 _. pose proof tolerance_pos as T.
  destruct (Hser n Hn ltac:(lra)) as (E & A & L & B).
  split; [exact E | split; [exact A | split; [apply close_eq, L | ]]].
  intros i Hi HR. apply B; [exact Hi | lra].
Qed.

Lemma handleCircleSeriesDrawing_circles_witness :
  this_ctx (mkDrawler true 0 0 1) = true /\ (2 <= 3)%nat /\
  tolerance <= 1 /\ 1 < 2 /\ 2 <= 30 /\
  handleCircleSeriesDrawing (mkDrawler true 0 0 1) (INR 3) 1 2 [] =
    (Normal tt,
     [] ++ flat_map (seriesCmds (mkDrawler true 0 0 1) (INR 3) 1 2) (map INR (seq 0 3))) /\
  arcs (flat_map (seriesCmds (mkDrawler true 0 0 1) (INR 3) 1 2) (map INR (seq 0 3)))
    = 3%nat.
Proof.
  assert (Hn : (2 <= 3)%nat) by lia.
  assert (H1 : tolerance <= 1) by (unfold tolerance; pose proof tolerance_lt_1; lra).
  assert (H12 : 1 < 2) by lra. assert (H2 : 2 <= 30) by lra.
  split; [reflexivity | split; [exact Hn | split; [exact H1 | split; [exact H12 | ]]]].
  split; [exact H2 | ].
  destruct (proj2 (proj2 (handleCircleSeriesDrawing_circles (mkDrawler true 0 0 1) 1 2 []
                            eq_refl)) 3%nat Hn H1 H12 H2) as (E & A & _).
  split; [exact E | exact A].
Defined.

(** ** The fixed pattern *)

(** X23: on an initialised surface [drawComplexPattern] returns normally and
    draws exactly 13 geodesics: none of its thirteen lines trips a check of
    [createHyperbolicLine]. *)
Theorem drawComplexPattern_draws_13 (this : HyperbolicDrawler) (cv : Canvas) :
  this_ctx this = true ->
  exists cmds,
    drawComplexPattern this cv = (Normal tt, cv ++ cmds) /\ strokes cmds = 13%nat.
Proof.
  intros Hctx. revert cv. change (draws 13 (drawComplexPattern this)).
  unfold drawComplexPattern. cbv zeta.
  pose proof PI_RGT_0 as P. pose proof PI_4 as P4.
  repeat (match goal with
          | |- draws ?n (_ >> _) =>
              change n with (1 + Nat.pred n)%nat; cbn [Nat.pred]; apply draws_bind
          end;
          [apply createHyperbolicLine_draws; [exact Hctx | lra | lra | lra] | ]).
  apply createHyperbolicLine_draws; [exact Hctx | lra | lra | lra].
Qed.

Lemma drawComplexPattern_draws_13_witness :
  this_ctx (mkDrawler true 0 0 1) = true /\
  exists cmds,
    drawComplexPattern (mkDrawler true 0 0 1) [] = (Normal tt, [] ++ cmds) /\
    strokes cmds = 13%nat.
Proof.
  split; [reflexivity | ].
  exact (drawComplexPattern_draws_13 (mkDrawler true 0 0 1) [] eq_refl).
Defined.

(** ** Two sides and the angle between them *)

Lemma sas_third_side (a c B : R) :
  0 < a -> 0 < c -> 0 < B < PI ->
  1 < cosh a * cosh c - sinh a * sinh c * cos B.
Proof.
  intros Ha Hc HB. pose proof (cos_open B HB) as [_ U].
  pose proof (sinh_pos a Ha) as Sa. pose proof (sinh_pos c Hc) as Sc.
  pose proof (cosh_ge_1 (a - c)) as G. rewrite cosh_minus in G.
  assert (0 < sinh a * sinh c * (1 - cos B)).
  { apply Rmult_lt_0_compat; [apply Rmult_lt_0_compat; assumption | lra]. }
  lra.
Qed.

Lemma sas_angle_open (a b c B : R) :
  0 < a -> 0 < b -> 0 < c -> 0 < B < PI ->
  cosh b = cosh a * cosh c - sinh a * sinh c * cos B ->
  -1 < (cosh b * cosh c - cosh a) / (sinh b * sinh c) < 1.
Proof.
  intros Ha Hb Hc HB F. pose proof (cos_open B HB) as [L U].
  pose proof (sinh_pos a Ha) as Sa. pose proof (sinh_pos b Hb) as Sb.
  pose proof (sinh_pos c Hc) as Sc.
  pose proof (cosh2_sinh2 a) as Ea. pose proof (cosh2_sinh2 b) as Eb.
  pose proof (cosh2_sinh2 c) as Ec.
  set (x := cosh a) in *. set (y := cosh b) in *. set (z := cosh c) in *.
  set (sa := sinh a) in *. set (sb := sinh b) in *. set (sc := sinh c) in *.
  set (k := cos B) in *.
  assert (P : 0 < sb * sc) by (apply Rmult_lt_0_compat; assumption).
  assert (K : k * k < 1) by nra.
  assert (Q : 0 < sa * sa * (sc * sc) * (1 - k * k)).
  { apply Rmult_lt_0_compat; [ | lra].
    apply Rmult_lt_0_compat; apply Rmult_lt_0_compat; assumption. }
  assert (D : (y * z - x) * (y * z - x) < (sb * sc) * (sb * sc)).
  { replace ((sb * sc) * (sb * sc)) with ((y * y - 1) * (z * z - 1))
      by (replace (y * y - 1) with (sb * sb) by lra;
          replace (z * z - 1) with (sc * sc) by lra; ring).
    assert (E : (x * z - y) * (x * z - y) = (x * x - 1) * (z * z - 1) * (k * k)).
    { replace (x * z - y) with (sa * sc * k) by lra.
      replace (x * x - 1) with (sa * sa) by lra.
      replace (z * z - 1) with (sc * sc) by lra. ring. }
    replace (x * x - 1) with (sa * sa) in E by lra.
    replace (z * z - 1) with (sc * sc) in E by lra.
    assert (G : (y * z - x) * (y * z - x) - (y * y - 1) * (z * z - 1)
                = (x * z - y) * (x * z - y) - (x * x - 1) * (z * z - 1)) by ring.
    replace (x * x - 1) with (sa * sa) in G by lra.
    replace (z * z - 1) with (sc * sc) in G at 2 by lra.
    lra. }
  assert (N : - (sb * sc) < y * z - x < sb * sc) by (split; nra).
  split.
  - apply Rmult_lt_reg_r with (sb * sc); [exact P | ].
    unfold Rdiv. rewrite Rmult_assoc, Rinv_l by lra. lra.
  - apply Rmult_lt_reg_r with (sb * sc); [exact P | ].
    unfold Rdiv. rewrite Rmult_assoc, Rinv_l by lra. lra.
Qed.

(** Two positive sides [a], [c] and the angle [B] between them, not a right
    angle: the first cosine rule fills the third side, then the two other
    angles, and nothing fails. *)
Lemma complete_two_sides_and_angle (a c B : R) :
  0 < a -> 0 < c -> 0 < B < PI -> B <> degrees2Radians 90 ->
  exists A b C,
    completeTriangle 0 a B 0 0 c = Normal (Some (mkTriangle A a B b C c)) /\
    0 < A < PI /\ 0 < b /\ 0 < C < PI /\
    cosh b = cosh a * cosh c - sinh a * sinh c * cos B.
Proof.
  intros Ha Hc HB RB.
  pose proof (sas_third_side a c B Ha Hc HB) as Hy.
  set (b := acosh (cosh a * cosh c - sinh a * sinh c * cos B)).
  assert (Hb : 0 < b) by (apply acosh_pos, Hy).
  assert (Eb : cosh b = cosh a * cosh c - sinh a * sinh c * cos B)
    by (apply cosh_acosh; lra).
  pose proof (sas_angle_open a b c B Ha Hb Hc HB Eb) as GA.
  assert (Eb' : cosh b = cosh c * cosh a - sinh c * sinh a * cos B) by (rewrite Eb; ring).
  pose proof (sas_angle_open c b a B Hc Hb Ha HB Eb') as GC.
  pose proof (acos_bound_lt _ GA) as HA. pose proof (acos_bound_lt _ GC) as HC.
  set (A := acos ((cosh b * cosh c - cosh a) / (sinh b * sinh c))) in *.
  set (C := acos ((cosh b * cosh a - cosh c) / (sinh b * sinh a))) in *.
  exists A, b, C. split; [ | repeat split; try lra].
  assert (NA : A <> 0) by lra. assert (NB : B <> 0) by lra. assert (NC : C <> 0) by lra.
  assert (Na : a <> 0) by lra. assert (Nb : b <> 0) by lra. assert (Nc : c <> 0) by lra.
  assert (NsA : sin A <> 0) by (pose proof (sin_gt_0 A ltac:(lra) ltac:(lra)); lra).
  assert (Nha : sinh a <> 0) by (pose proof (sinh_pos a Ha); lra).
  pose proof zero_not_right as Hz.
  unfold completeTriangle, completeTriangle_try; unfold_solvers.
  repeat (progress (js_tests ltac:(first [reflexivity | assumption]); js_step;
                    fold b; fold A; fold C)).
  reflexivity.
Qed.

(** Two positive sides and a right angle between them, supplied as the
    angle B: the hypotenuse is computed by [hyperbolicPythagorean], whose
    permuted result moves the sides; the completion still fills every
    slot. *)
Lemma complete_two_sides_and_right_angle (a c : R) :
  0 < a -> 0 < c ->
  exists r, completeTriangle 0 a (degrees2Radians 90) 0 0 c = Normal (Some r).
Proof.
  intros Ha Hc.
  pose proof (cosh_gt_1 a ltac:(lra)) as Ca. pose proof (cosh_gt_1 c ltac:(lra)) as Cc.
  pose proof (sinh_pos a Ha) as Sa. pose proof (sinh_pos c Hc) as Sc.
  pose proof (cosh2_sinh2 a) as Ia. pose proof (cosh2_sinh2 c) as Ic.
  set (h := acosh (cosh a * cosh c)).
  assert (H1 : 1 < cosh a * cosh c) by nra.
  assert (Hh : 0 < h) by (apply acosh_pos, H1).
  assert (Eh : cosh h = cosh a * cosh c) by (apply cosh_acosh; lra).
  pose proof (sinh_pos h Hh) as Sh. pose proof (cosh2_sinh2 h) as Ih.
  assert (Q : 0 < (cosh a * cosh h - cosh c) / (sinh a * sinh h) < 1).
  { assert (N : cosh a * cosh h - cosh c = cosh c * (sinh a * sinh a)).
    { rewrite Eh. nra. }
    assert (D : 0 < sinh a * sinh h) by (apply Rmult_lt_0_compat; assumption).
    split; [apply Rdiv_lt_0_compat; [rewrite N; nra | exact D] | ].
    apply Rmult_lt_reg_r with (sinh a * sinh h); [exact D | ].
    unfold Rdiv. rewrite Rmult_assoc, Rinv_l by lra. rewrite N.
    assert (cosh c * sinh a < sinh h).
    { destruct (Rlt_le_dec (cosh c * sinh a) (sinh h)) as [K | K]; [exact K | exfalso].
      assert (sinh h * sinh h <= (cosh c * sinh a) * (cosh c * sinh a)) by nra.
      rewrite Eh in Ih. nra. }
    nra. }
  assert (HA : 0 < acos ((cosh a * cosh h - cosh c) / (sinh a * sinh h)) < PI)
    by (apply acos_bound_lt; lra).
  set (A := acos ((cosh a * cosh h - cosh c) / (sinh a * sinh h))) in *.
  assert (EC : acos ((cosh a * cosh c - cosh h) / (sinh a * sinh c)) = PI / 2).
  { rewrite Eh. replace (cosh a * cosh c - cosh a * cosh c) with 0 by ring.
    unfold Rdiv. rewrite Rmult_0_l. apply acos_0. }
  pose proof PI_RGT_0 as P.
  assert (NA : A <> 0) by lra. assert (Na : a <> 0) by lra. assert (Nc : c <> 0) by lra.
  assert (Nh : h <> 0) by lra.
  assert (NB : degrees2Radians 90 <> 0) by (rewrite degrees2Radians_90; lra).
  assert (NC : PI / 2 <> 0) by lra.
  assert (NsA : sin A <> 0) by (pose proof (sin_gt_0 A ltac:(lra) ltac:(lra)); lra).
  assert (Nhc : sinh c <> 0) by lra.
  pose proof zero_not_right as Hz.
  eexists. unfold completeTriangle, completeTriangle_try; unfold_solvers.
  repeat (progress (js_tests ltac:(first [reflexivity | assumption]); js_step;
                    fold h; rewrite ?EC; fold A)).
  reflexivity.
Qed.

(** ** Rectangles *)

(** X24: [createRectangle] looks at its argument [B] only to reject
    [A == B], and it does so before it looks at the context.  For sides
    [0.1 <= a, b <= 5] and an angle [0.1 <= A <= PI - 0.1], the completion
    of (a, A, b) succeeds, and on an initialised surface the call draws
    exactly four strokes: two sides from the centre and the two strokes of
    its [drawCurvature] calls. *)
Theorem createRectangle_draws_four (this : HyperbolicDrawler) (A B a b One : R)
        (cv : Canvas) :
  1 / 10 <= a <= 5 -> 1 / 10 <= b <= 5 -> 1 / 10 <= A <= PI - 1 / 10 ->
  createRectangle this A A a b One cv
    = (Throw (Error "Starting and ending angles must be different!"), cv) /\
  (A <> B -> this_ctx this = false ->
   createRectangle this A B a b One cv
     = (Throw (Error "Canvas context not initialized"), cv)) /\
  (A <> B -> this_ctx this = true ->
   exists cmds,
     createRectangle this A B a b One cv = (Normal tt, cv ++ cmds) /\
     strokes cmds = 4%nat).
Proof.
  intros [Ha _] [Hb _] HA. split; [ | split].
  - unfold createRectangle. draw_unfold. rewrite (eqR_true A A eq_refl). reflexivity.
  - intros N Hctx. unfold createRectangle. draw_unfold.
    rewrite (eqR_false A B N), Hctx. reflexivity.
  - intros N Hctx.
    assert (E : exists r, completeTriangle 0 a A 0 0 b = Normal (Some r)).
    { destruct (Req_dec_T A (degrees2Radians 90)) as [-> | RA].
      - apply complete_two_sides_and_right_angle; lra.
      - destruct (complete_two_sides_and_angle a b A ltac:(lra) ltac:(lra) ltac:(lra) RA)
          as (B1 & l1 & C1 & E & _).
        eexists. exact E. }
    destruct E as [r E].
    unfold createRectangle. draw_unfold.
    rewrite (eqR_false A B N), Hctx, E. cbn [negb].
    match goal with
    | |- context [drawCurvature this ?p ?q ?s ?t ?u ?v ?c] =>
        destruct (drawCurvature_ok this p q s t u v c Hctx) as [E1 S1]; rewrite E1
    end.
    match goal with
    | |- context [drawCurvature this ?p ?q ?s ?t ?u ?v ?c] =>
        destruct (drawCurvature_ok this p q s t u v c Hctx) as [E2 S2]; rewrite E2
    end.
    eexists. split; [rewrite <- !app_assoc; reflexivity | ].
    rewrite !strokes_app, S1, S2. reflexivity.
Qed.

Lemma createRectangle_draws_four_witness :
  1 / 10 <= 1 <= 5 /\ 1 / 10 <= degrees2Radians 90 <= PI - 1 / 10 /\
  exists cmds,
    createRectangle (mkDrawler true 0 0 1) (degrees2Radians 90) 2 1 1 0 []
      = (Normal tt, [] ++ cmds) /\
    strokes cmds = 4%nat.
Proof.
  assert (H1 : 1 / 10 <= 1 <= 5) by lra.
  assert (HA : 1 / 10 <= degrees2Radians 90 <= PI - 1 / 10)
    by (rewrite degrees2Radians_90; pose proof PI_bounds; lra).
  assert (N : degrees2Radians 90 <> 2)
    by (rewrite degrees2Radians_90; pose proof PI_bounds; lra).
  split; [exact H1 | split; [exact HA | ]].
  exact (proj2 (proj2 (createRectangle_draws_four (mkDrawler true 0 0 1)
                         (degrees2Radians 90) 2 1 1 0 [] H1 H1 HA)) N eq_refl).
Defined.

(** ** A triangle is drawn whole or not at all *)

(** X25: for angles that are absent or at least 1e-9 degrees in size,
    [handleTriangleDrawing] either fails and leaves the surface as it was,
    or it returns normally after exactly the three strokes of
    [createTrangle] on the completed triangle (two sides and one arc).  In
    the second case the surface is initialised and the input had two or
    three known scalars. *)
Theorem handleTriangleDrawing_all_or_nothing
        (this : HyperbolicDrawler) (A a B b C c One : R) (cv : Canvas) :
  scaled A -> scaled B -> scaled C ->
  (exists e, handleTriangleDrawing this A a B b C c One cv = (Throw e, cv)) \/
  (exists r,
     completeTriangle (degrees2Radians A) a (degrees2Radians B) b (degrees2Radians C) c
       = Normal (Some r) /\
     handleTriangleDrawing this A a B b C c One cv =
       (Normal tt,
        cv ++ trangleCmds this (tA r) (ta r) (tB r) (tb r) (tC r) (tc r)
                (degrees2Radians One + PI / 2)) /\
     strokes (trangleCmds this (tA r) (ta r) (tB r) (tb r) (tC r) (tc r)
                (degrees2Radians One + PI / 2)) = 3%nat /\
     this_ctx this = true /\
     (2 <= countKnown [degrees2Radians A; degrees2Radians B; degrees2Radians C; a; b; c]
        <= 3)%nat).
Proof.
  intros _ _ _.
  remember (handleTriangleDrawing this A a B b C c One cv) as res eqn:Eres.
  unfold handleTriangleDrawing in Eres. cbv zeta in Eres. unfold dbind at 1 in Eres.
  pose proof (validateTriangleInput_canvas (degrees2Radians A) a (degrees2Radians B) b
                (degrees2Radians C) c cv) as Hcv.
  pose proof (validateTriangleInput_inv (degrees2Radians A) a (degrees2Radians B) b
                (degrees2Radians C) c cv) as Hinv.
  destruct (validateTriangleInput (degrees2Radians A) a (degrees2Radians B) b
              (degrees2Radians C) c cv) as [[[] | e] cv'];
    cbn [fst snd] in *; subst cv'; [ | left; eauto].
  destruct (Hinv eq_refl) as (Hcount & _).
  unfold dbind, lift in Eres.
  destruct (completeTriangle_total (degrees2Radians A) a (degrees2Radians B) b
              (degrees2Radians C) c) as [[r | ] Er]; rewrite Er in Eres;
    [ | left; eexists; exact Eres].
  unfold drawCompleted in Eres. cbv beta iota in Eres.
  unfold throwIf, dbind, ret, throw in Eres.
  match type of Eres with
  | context [if ?t then _ else _] => destruct t
  end; [left; eauto | ].
  match type of Eres with
  | context [if ?t then _ else _] => destruct t
  end; [left; eauto | ].
  destruct (this_ctx this) eqn:Hctx.
  - right. exists r.
    destruct (createTrangle_ok this (tA r) (ta r) (tB r) (tb r) (tC r) (tc r)
                (degrees2Radians One + PI / 2) cv Hctx) as [E S].
    rewrite E in Eres. repeat split; try assumption; lia.
  - left. unfold createTrangle, requireCtx, throwIf, dbind, throw in Eres.
    rewrite Hctx in Eres. cbn [negb] in Eres. eauto.
Qed.

Lemma handleTriangleDrawing_all_or_nothing_witness :
  scaled 0 /\
  ((exists e,
      handleTriangleDrawing (mkDrawler true 0 0 1) 0 1 0 1 0 1 0 [] = (Throw e, [])) \/
   (exists r,
      completeTriangle (degrees2Radians 0) 1 (degrees2Radians 0) 1 (degrees2Radians 0) 1
        = Normal (Some r) /\
      handleTriangleDrawing (mkDrawler true 0 0 1) 0 1 0 1 0 1 0 [] =
        (Normal tt,
         [] ++ trangleCmds (mkDrawler true 0 0 1) (tA r) (ta r) (tB r) (tb r) (tC r) (tc r)
                 (degrees2Radians 0 + PI / 2)) /\
      strokes (trangleCmds (mkDrawler true 0 0 1) (tA r) (ta r) (tB r) (tb r) (tC r) (tc r)
                 (degrees2Radians 0 + PI / 2)) = 3%nat /\
      this_ctx (mkDrawler true 0 0 1) = true /\
      (2 <= countKnown [degrees2Radians 0; degrees2Radians 0; degrees2Radians 0;
                        1%R; 1%R; 1%R] <= 3)%nat)).
Proof.
  assert (Z : scaled 0) by (left; reflexivity).
  split; [exact Z | ].
  exact (handleTriangleDrawing_all_or_nothing (mkDrawler true 0 0 1) 0 1 0 1 0 1 0 [] Z Z Z).
Defined.

(** ** Three sides of a triangle, from the form to the surface *)

Lemma cosh_plus (x y : R) : cosh (x + y) = cosh x * cosh y + sinh x * sinh y.
Proof.
  unfold cosh, sinh. replace (- (x + y)) with (- x + - y) by ring.
  rewrite !exp_plus. field.
Qed.

Lemma cosh_monotone (x y : R) : 0 <= x -> x <= y -> cosh x <= cosh y.
Proof.
  intros Hx [Hxy | <-]; [ | lra].
  unfold cosh.
  pose proof (exp_opp_mul x) as Ex. pose proof (exp_opp_mul y) as Ey.
  pose proof (exp_increasing x y Hxy) as Hu.
  pose proof (exp_pos (- x)) as Px. pose proof (exp_pos (- y)) as Py.
  assert (Lx : exp (- x) <= 1).
  { destruct Hx as [Hx | <-]; [ | rewrite Ropp_0, exp_0; lra].
    rewrite <- exp_0. left. apply exp_increasing. lra. }
  assert (Ly : exp (- y) <= 1).
  { rewrite <- exp_0. left. apply exp_increasing. lra. }
  assert (D : exp (- x) - exp (- y) = exp (- x) * exp (- y) * (exp y - exp x)).
  { transitivity (exp (- x) * (exp y * exp (- y)) - exp (- y) * (exp x * exp (- x)));
      [rewrite Ex, Ey; ring | ring]. }
  assert (Q : exp (- x) * exp (- y) <= 1) by nra.
  assert (exp (- x) - exp (- y) <= exp y - exp x); [ | lra].
  rewrite D. nra.
Qed.

Lemma side_below_sum (a b c C : R) :
  0 < a -> 0 < b -> 0 < c -> -1 < cos C ->
  cosh c = cosh b * cosh a - sinh b * sinh a * cos C ->
  c < a + b.
Proof.
  intros Ha Hb Hc HC F.
  pose proof (sinh_pos a Ha) as Sa. pose proof (sinh_pos b Hb) as Sb.
  assert (L : cosh c < cosh (a + b)).
  { rewrite cosh_plus, F.
    assert (0 < sinh a * sinh b * (1 + cos C)).
    { apply Rmult_lt_0_compat; [apply Rmult_lt_0_compat; assumption | lra]. }
    lra. }
  destruct (Rlt_le_dec c (a + b)) as [H | H]; [exact H | ].
  pose proof (cosh_monotone (a + b) c ltac:(lra) H). lra.
Qed.

Lemma valid_triangle_inequality (A a B b C c : R) :
  validTriangle (mkTriangle A a B b C c) -> c < a + b /\ a < c + b /\ b < a + c.
Proof.
  intros V.
  pose proof (angle_A _ V) as HA. pose proof (angle_B _ V) as HB.
  pose proof (angle_C _ V) as HC. pose proof (side_a _ V) as Ha.
  pose proof (side_b _ V) as Hb. pose proof (side_c _ V) as Hc.
  pose proof (first_cosine_a _ V) as Fa. pose proof (first_cosine_b _ V) as Fb.
  pose proof (first_cosine_c _ V) as Fc. cbn in *.
  pose proof (cos_open A HA). pose proof (cos_open B HB). pose proof (cos_open C HC).
  repeat split.
  - apply side_below_sum with C; try assumption; lra.
  - apply side_below_sum with A; try assumption; lra.
  - apply side_below_sum with B; try assumption; lra.
Qed.

(** X26: the three sides of a valid hyperbolic triangle of moderate size
    pass every check of [handleTriangleDrawing]; the completion recovers
    the three angles within 1e-9, and the triangle is drawn with the
    completed measurements, rotated by the given angle plus a quarter
    turn. *)
Theorem handleTriangleDrawing_three_sides
        (this : HyperbolicDrawler) (T : Triangle) (One : R) (cv : Canvas) :
  validTriangle T -> moderate T ->
  this_ctx this = true ->
  exists r,
    closeTriangle r T /\
    handleTriangleDrawing this 0 (ta T) 0 (tb T) 0 (tc T) One cv =
      (Normal tt,
       cv ++ trangleCmds this (tA r) (ta r) (tB r) (tb r) (tC r) (tc r)
               (degrees2Radians One + PI / 2)).
Proof.
  intros V _ Hctx. exists T. split; [apply closeTriangle_refl | ].
  destruct T as [A a B b C c]. cbn [tA ta tB tb tC tc].
  pose proof (side_a _ V) as Ha. pose proof (side_b _ V) as Hb.
  pose proof (side_c _ V) as Hc. cbn in Ha, Hb, Hc.
  pose proof (angle_A _ V) as HA. pose proof (angle_B _ V) as HB.
  pose proof (angle_C _ V) as HC. cbn in HA, HB, HC.
  destruct (valid_triangle_inequality A a B b C c V) as (T1 & T2 & T3).
  pose proof PI_RGT_0 as P.
  unfold handleTriangleDrawing. cbv zeta. rewrite degrees2Radians_0.
  assert (Ev : validateTriangleInput 0 a 0 b 0 c cv = (Normal tt, cv)).
  { validate_eval ltac:(first [reflexivity | lra]). }
  unfold dbind at 1. rewrite Ev. unfold dbind at 1. unfold lift, completeTriangle.
  rewrite (complete_SSS A a B b C c V).
  unfold drawCompleted. cbv beta iota. cbn [tA ta tB tb tC tc].
  unfold throwIf, dbind, ret.
  js_tests ltac:(first [reflexivity | lra]). cbn [andb orb negb].
  apply (createTrangle_ok this A a B b C c (degrees2Radians One + PI / 2) cv Hctx).
Qed.

Lemma handleTriangleDrawing_three_sides_witness :
  validTriangle equilateral /\ moderate equilateral /\
  this_ctx (mkDrawler true 0 0 1) = true /\
  exists r,
    closeTriangle r equilateral /\
    handleTriangleDrawing (mkDrawler true 0 0 1) 0 equilateralSide 0 equilateralSide 0
        equilateralSide 0 [] =
      (Normal tt,
       [] ++ trangleCmds (mkDrawler true 0 0 1) (tA r) (ta r) (tB r) (tb r) (tC r) (tc r)
               (degrees2Radians 0 + PI / 2)).
Proof.
  split; [exact equilateral_valid | split; [exact equilateral_moderate | ]].
  split; [reflexivity | ].
  exact (handleTriangleDrawing_three_sides (mkDrawler true 0 0 1) equilateral 0 []
           equilateral_valid equilateral_moderate eq_refl).
Defined.
